(** * CodeArchiveParser: the archive-to-document pipeline of the route module

    A shallow embedding of [shouldIgnore], [getFileExtension],
    [buildFileTree] (with its inner [convertToArray]), [formatFileContent],
    [getLanguageFromExtension], [generateFileTreeString] and of the body of
    the upload route ([processNode], the second common-prefix computation and
    the statistics), followed by the properties of the specification.

    Conventions of the embedding.
    - A JavaScript string is a Rocq [string] holding the UTF-8 bytes of the
      text.  Every string operation of the source that the pipeline uses
      ([split], [indexOf], [startsWith], [endsWith], [substring], [join])
      is applied with ASCII separators only, so it acts on the bytes exactly
      as it acts on the UTF-16 code units.  [trim] strips the ECMAScript
      white space and line terminators in their UTF-8 form.  [toLowerCase]
      decodes the bytes and maps the code points by the default case
      conversion of Unicode (tables of Unicode 14.0).
    - [localeCompare] belongs to the host (ICU collation): it is a parameter
      of the embedding.
    - A plain JavaScript object used as a map is an association list in
      property-creation order, read through the prototype chain of
      [Object.prototype] and enumerated in the order of [Object.values]
      (array-index keys first, in ascending numeric order).
    - A thrown exception is the [Thrown] outcome of [Completion]. *)

(** Beside the pipeline the development embeds the in-memory store of the
    storage module ([MemStorage]) and the tree panel of the client
    ([FileTree]: [toggleNode], [expandAll], [collapseAll],
    [renderTreeNode]).

    - A [Map<number, V>] is an association list in insertion order, a
      [Set<string>] a list in insertion order.
    - The identifiers of the store are integers; the counters are doubles,
      so [++] stops moving at [2^53].
    - [new Date()] is an argument of the method that calls it.
    - The methods of the store are [async] without awaiting anything: each
      runs to its end when called, and is embedded as a function from the
      state to its result and the next state.
    - The element [renderTreeNode] returns is read as the rows it puts on
      the page, from top to bottom, each a node with its indentation
      level; the styling of a row is left out. *)

From Stdlib Require Import String Ascii List ZArith NArith Bool Lia Arith.
From Stdlib Require Import Permutation Sorted.
Import ListNotations.

Open Scope string_scope.
Open Scope list_scope.

Set Implicit Arguments.

(* ===================================================================== *)
(** ** JavaScript string operations *)
(* ===================================================================== *)

Module JsString.

(** [s.startsWith(p)] *)
Fixpoint startsWith (s p : string) {struct p} : bool :=
  match p with
  | EmptyString => true
  | String c p' =>
      match s with
      | EmptyString => false
      | String d s' => Ascii.eqb d c && startsWith s' p'
      end
  end.

(** [s.substring(n)] *)
Fixpoint substringFrom (n : nat) (s : string) : string :=
  match n with
  | O => s
  | S n' => match s with
            | EmptyString => EmptyString
            | String _ s' => substringFrom n' s'
            end
  end.

(** [s.substring(0, n)] *)
Fixpoint substringTo (n : nat) (s : string) : string :=
  match n with
  | O => EmptyString
  | S n' => match s with
            | EmptyString => EmptyString
            | String c s' => String c (substringTo n' s')
            end
  end.

(** [s.endsWith(p)]: [p] is no longer than [s] and the last
    [p.length] units of [s] are [p]. *)
Definition endsWith (s p : string) : bool :=
  (String.length p <=? String.length s)%nat
  && String.eqb (substringFrom (String.length s - String.length p) s) p.

(** [s.indexOf(c)] for a one-character needle: [-1] when absent. *)
Fixpoint indexOf (s : string) (c : ascii) : Z :=
  match s with
  | EmptyString => (-1)%Z
  | String d s' =>
      if Ascii.eqb d c then 0%Z
      else let i := indexOf s' c in
           if (i <? 0)%Z then (-1)%Z else (i + 1)%Z
  end.

(** [s.split(c)] for a one-character separator: never the empty array. *)
Fixpoint split (c : ascii) (s : string) : list string :=
  match s with
  | EmptyString => [EmptyString]
  | String d s' =>
      if Ascii.eqb d c then EmptyString :: split c s'
      else match split c s' with
           | [] => [String d EmptyString]
           | p :: ps => String d p :: ps
           end
  end.

(** [parts.join(sep)] *)
Fixpoint join (sep : string) (parts : list string) : string :=
  match parts with
  | [] => EmptyString
  | [p] => p
  | p :: ps => p ++ sep ++ join sep ps
  end.

(** *** Case mapping

    [toLowerCase] is the default case conversion of Unicode, which
    ECMAScript prescribes for [String.prototype.toLowerCase]: every code
    point goes to its lowercase mapping, a capital sigma to the final
    form where the context asks for it, and [U+0130] to [i] with a
    combining dot.  The tables are those of Unicode 14.0.  The string is
    read as UTF-8; a byte that belongs to no well-formed sequence stays
    as it is. *)

(** A byte outside any well-formed sequence, kept apart from the code
    points. *)
Definition rawByte (b : N) : N := (1114112 + b)%N.

Definition isContinuation (b : N) : bool := ((128 <=? b) && (b <=? 191))%N.

(** The lead byte [b1] and the byte after it open a sequence of three
    bytes: no overlong form, no surrogate. *)
Definition opensThree (b1 b2 : N) : bool :=
  ((b1 =? 224) && (160 <=? b2) && (b2 <=? 191)
   || (225 <=? b1) && (b1 <=? 236) && isContinuation b2
   || (b1 =? 237) && (128 <=? b2) && (b2 <=? 159)
   || (238 <=? b1) && (b1 <=? 239) && isContinuation b2)%N.

(** The same for four bytes: no overlong form, nothing above
    [U+10FFFF]. *)
Definition opensFour (b1 b2 : N) : bool :=
  ((b1 =? 240) && (144 <=? b2) && (b2 <=? 191)
   || (241 <=? b1) && (b1 <=? 243) && isContinuation b2
   || (b1 =? 244) && (128 <=? b2) && (b2 <=? 143))%N.

(** The code points of a string. *)
Fixpoint decodeUtf8 (s : string) : list N :=
  match s with
  | EmptyString => []
  | String c1 s1 =>
      let b1 := N_of_ascii c1 in
      if (b1 <? 128)%N then b1 :: decodeUtf8 s1
      else
        match s1 with
        | EmptyString => [rawByte b1]
        | String c2 s2 =>
            let b2 := N_of_ascii c2 in
            if ((194 <=? b1) && (b1 <=? 223))%N && isContinuation b2
            then ((b1 - 192) * 64 + (b2 - 128))%N :: decodeUtf8 s2
            else
              match s2 with
              | EmptyString => rawByte b1 :: decodeUtf8 s1
              | String c3 s3 =>
                  let b3 := N_of_ascii c3 in
                  if opensThree b1 b2 && isContinuation b3
                  then ((b1 - 224) * 4096 + (b2 - 128) * 64
                        + (b3 - 128))%N :: decodeUtf8 s3
                  else
                    match s3 with
                    | EmptyString => rawByte b1 :: decodeUtf8 s1
                    | String c4 s4 =>
                        let b4 := N_of_ascii c4 in
                        if opensFour b1 b2 && isContinuation b3
                           && isContinuation b4
                        then ((b1 - 240) * 262144 + (b2 - 128) * 4096
                              + (b3 - 128) * 64 + (b4 - 128))%N
                               :: decodeUtf8 s4
                        else rawByte b1 :: decodeUtf8 s1
                    end
              end
        end
  end.

Definition encodePoint (c : N) : string :=
  (if c <? 128 then String (ascii_of_N c) EmptyString
   else if c <? 2048 then
     String (ascii_of_N (192 + c / 64))
            (String (ascii_of_N (128 + c mod 64)) EmptyString)
   else if c <? 65536 then
     String (ascii_of_N (224 + c / 4096))
            (String (ascii_of_N (128 + (c / 64) mod 64))
                    (String (ascii_of_N (128 + c mod 64)) EmptyString))
   else if c <? 1114112 then
     String (ascii_of_N (240 + c / 262144))
            (String (ascii_of_N (128 + (c / 4096) mod 64))
                    (String (ascii_of_N (128 + (c / 64) mod 64))
                            (String (ascii_of_N (128 + c mod 64))
                                    EmptyString)))
   else String (ascii_of_N (c - 1114112)) EmptyString)%N.

Fixpoint encodeUtf8 (l : list N) : string :=
  match l with
  | [] => EmptyString
  | c :: l' => encodePoint c ++ encodeUtf8 l'
  end.

(** The lowercase mappings: [(first, last, step, image of first)] stands
    for the code points from [first] to [last] in steps of [step], which
    go to consecutive images.  In ascending order, the spans apart. *)
Definition lowerRuns : list (N * N * N * N) :=
  [ (65, 90, 1, 97); (192, 214, 1, 224); (216, 222, 1, 248);
    (256, 302, 2, 257); (306, 310, 2, 307); (313, 327, 2, 314);
    (330, 374, 2, 331); (376, 376, 1, 255); (377, 381, 2, 378);
    (385, 385, 1, 595); (386, 388, 2, 387); (390, 390, 1, 596);
    (391, 391, 1, 392); (393, 394, 1, 598); (395, 395, 1, 396);
    (398, 398, 1, 477); (399, 399, 1, 601); (400, 400, 1, 603);
    (401, 401, 1, 402); (403, 403, 1, 608); (404, 404, 1, 611);
    (406, 406, 1, 617); (407, 407, 1, 616); (408, 408, 1, 409);
    (412, 412, 1, 623); (413, 413, 1, 626); (415, 415, 1, 629);
    (416, 420, 2, 417); (422, 422, 1, 640); (423, 423, 1, 424);
    (425, 425, 1, 643); (428, 428, 1, 429); (430, 430, 1, 648);
    (431, 431, 1, 432); (433, 434, 1, 650); (435, 437, 2, 436);
    (439, 439, 1, 658); (440, 440, 1, 441); (444, 444, 1, 445);
    (452, 452, 1, 454); (453, 453, 1, 454); (455, 455, 1, 457);
    (456, 456, 1, 457); (458, 458, 1, 460); (459, 475, 2, 460);
    (478, 494, 2, 479); (497, 497, 1, 499); (498, 500, 2, 499);
    (502, 502, 1, 405); (503, 503, 1, 447); (504, 542, 2, 505);
    (544, 544, 1, 414); (546, 562, 2, 547); (570, 570, 1, 11365);
    (571, 571, 1, 572); (573, 573, 1, 410); (574, 574, 1, 11366);
    (577, 577, 1, 578); (579, 579, 1, 384); (580, 580, 1, 649);
    (581, 581, 1, 652); (582, 590, 2, 583); (880, 882, 2, 881);
    (886, 886, 1, 887); (895, 895, 1, 1011); (902, 902, 1, 940);
    (904, 906, 1, 941); (908, 908, 1, 972); (910, 911, 1, 973);
    (913, 929, 1, 945); (931, 939, 1, 963); (975, 975, 1, 983);
    (984, 1006, 2, 985); (1012, 1012, 1, 952); (1015, 1015, 1, 1016);
    (1017, 1017, 1, 1010); (1018, 1018, 1, 1019); (1021, 1023, 1, 891);
    (1024, 1039, 1, 1104); (1040, 1071, 1, 1072); (1120, 1152, 2, 1121);
    (1162, 1214, 2, 1163); (1216, 1216, 1, 1231); (1217, 1229, 2, 1218);
    (1232, 1326, 2, 1233); (1329, 1366, 1, 1377); (4256, 4293, 1, 11520);
    (4295, 4295, 1, 11559); (4301, 4301, 1, 11565); (5024, 5103, 1, 43888);
    (5104, 5109, 1, 5112); (7312, 7354, 1, 4304); (7357, 7359, 1, 4349);
    (7680, 7828, 2, 7681); (7838, 7838, 1, 223); (7840, 7934, 2, 7841);
    (7944, 7951, 1, 7936); (7960, 7965, 1, 7952); (7976, 7983, 1, 7968);
    (7992, 7999, 1, 7984); (8008, 8013, 1, 8000); (8025, 8031, 2, 8017);
    (8040, 8047, 1, 8032); (8072, 8079, 1, 8064); (8088, 8095, 1, 8080);
    (8104, 8111, 1, 8096); (8120, 8121, 1, 8112); (8122, 8123, 1, 8048);
    (8124, 8124, 1, 8115); (8136, 8139, 1, 8050); (8140, 8140, 1, 8131);
    (8152, 8153, 1, 8144); (8154, 8155, 1, 8054); (8168, 8169, 1, 8160);
    (8170, 8171, 1, 8058); (8172, 8172, 1, 8165); (8184, 8185, 1, 8056);
    (8186, 8187, 1, 8060); (8188, 8188, 1, 8179); (8486, 8486, 1, 969);
    (8490, 8490, 1, 107); (8491, 8491, 1, 229); (8498, 8498, 1, 8526);
    (8544, 8559, 1, 8560); (8579, 8579, 1, 8580); (9398, 9423, 1, 9424);
    (11264, 11311, 1, 11312); (11360, 11360, 1, 11361); (11362, 11362, 1, 619);
    (11363, 11363, 1, 7549); (11364, 11364, 1, 637); (11367, 11371, 2, 11368);
    (11373, 11373, 1, 593); (11374, 11374, 1, 625); (11375, 11375, 1, 592);
    (11376, 11376, 1, 594); (11378, 11378, 1, 11379); (11381, 11381, 1, 11382);
    (11390, 11391, 1, 575); (11392, 11490, 2, 11393); (11499, 11501, 2, 11500);
    (11506, 11506, 1, 11507); (42560, 42604, 2, 42561); (42624, 42650, 2, 42625);
    (42786, 42798, 2, 42787); (42802, 42862, 2, 42803); (42873, 42875, 2, 42874);
    (42877, 42877, 1, 7545); (42878, 42886, 2, 42879); (42891, 42891, 1, 42892);
    (42893, 42893, 1, 613); (42896, 42898, 2, 42897); (42902, 42920, 2, 42903);
    (42922, 42922, 1, 614); (42923, 42923, 1, 604); (42924, 42924, 1, 609);
    (42925, 42925, 1, 620); (42926, 42926, 1, 618); (42928, 42928, 1, 670);
    (42929, 42929, 1, 647); (42930, 42930, 1, 669); (42931, 42931, 1, 43859);
    (42932, 42946, 2, 42933); (42948, 42948, 1, 42900); (42949, 42949, 1, 642);
    (42950, 42950, 1, 7566); (42951, 42953, 2, 42952); (42960, 42960, 1, 42961);
    (42966, 42968, 2, 42967); (42997, 42997, 1, 42998); (65313, 65338, 1, 65345);
    (66560, 66599, 1, 66600); (66736, 66771, 1, 66776); (66928, 66938, 1, 66967);
    (66940, 66954, 1, 66979); (66956, 66962, 1, 66995); (66964, 66965, 1, 67003);
    (68736, 68786, 1, 68800); (71840, 71871, 1, 71872); (93760, 93791, 1, 93792);
    (125184, 125217, 1, 125218) ]%N.

(** The case-ignorable code points, as spans [(first, last)] in
    ascending order. *)
Definition caseIgnorable : list (N * N) :=
  [ (39, 39); (46, 46); (58, 58); (94, 94); (96, 96);
    (168, 168); (173, 173); (175, 175); (180, 180); (183, 184);
    (688, 879); (884, 885); (890, 890); (900, 901); (903, 903);
    (1155, 1161); (1369, 1369); (1375, 1375); (1425, 1469); (1471, 1471);
    (1473, 1474); (1476, 1477); (1479, 1479); (1524, 1524); (1536, 1541);
    (1552, 1562); (1564, 1564); (1600, 1600); (1611, 1631); (1648, 1648);
    (1750, 1757); (1759, 1768); (1770, 1773); (1807, 1807); (1809, 1809);
    (1840, 1866); (1958, 1968); (2027, 2037); (2042, 2042); (2045, 2045);
    (2070, 2093); (2137, 2139); (2184, 2184); (2192, 2193); (2200, 2207);
    (2249, 2306); (2362, 2362); (2364, 2364); (2369, 2376); (2381, 2381);
    (2385, 2391); (2402, 2403); (2417, 2417); (2433, 2433); (2492, 2492);
    (2497, 2500); (2509, 2509); (2530, 2531); (2558, 2558); (2561, 2562);
    (2620, 2620); (2625, 2626); (2631, 2632); (2635, 2637); (2641, 2641);
    (2672, 2673); (2677, 2677); (2689, 2690); (2748, 2748); (2753, 2757);
    (2759, 2760); (2765, 2765); (2786, 2787); (2810, 2815); (2817, 2817);
    (2876, 2876); (2879, 2879); (2881, 2884); (2893, 2893); (2901, 2902);
    (2914, 2915); (2946, 2946); (3008, 3008); (3021, 3021); (3072, 3072);
    (3076, 3076); (3132, 3132); (3134, 3136); (3142, 3144); (3146, 3149);
    (3157, 3158); (3170, 3171); (3201, 3201); (3260, 3260); (3263, 3263);
    (3270, 3270); (3276, 3277); (3298, 3299); (3328, 3329); (3387, 3388);
    (3393, 3396); (3405, 3405); (3426, 3427); (3457, 3457); (3530, 3530);
    (3538, 3540); (3542, 3542); (3633, 3633); (3636, 3642); (3654, 3662);
    (3761, 3761); (3764, 3772); (3782, 3782); (3784, 3789); (3864, 3865);
    (3893, 3893); (3895, 3895); (3897, 3897); (3953, 3966); (3968, 3972);
    (3974, 3975); (3981, 3991); (3993, 4028); (4038, 4038); (4141, 4144);
    (4146, 4151); (4153, 4154); (4157, 4158); (4184, 4185); (4190, 4192);
    (4209, 4212); (4226, 4226); (4229, 4230); (4237, 4237); (4253, 4253);
    (4348, 4348); (4957, 4959); (5906, 5908); (5938, 5939); (5970, 5971);
    (6002, 6003); (6068, 6069); (6071, 6077); (6086, 6086); (6089, 6099);
    (6103, 6103); (6109, 6109); (6155, 6159); (6211, 6211); (6277, 6278);
    (6313, 6313); (6432, 6434); (6439, 6440); (6450, 6450); (6457, 6459);
    (6679, 6680); (6683, 6683); (6742, 6742); (6744, 6750); (6752, 6752);
    (6754, 6754); (6757, 6764); (6771, 6780); (6783, 6783); (6823, 6823);
    (6832, 6862); (6912, 6915); (6964, 6964); (6966, 6970); (6972, 6972);
    (6978, 6978); (7019, 7027); (7040, 7041); (7074, 7077); (7080, 7081);
    (7083, 7085); (7142, 7142); (7144, 7145); (7149, 7149); (7151, 7153);
    (7212, 7219); (7222, 7223); (7288, 7293); (7376, 7378); (7380, 7392);
    (7394, 7400); (7405, 7405); (7412, 7412); (7416, 7417); (7468, 7530);
    (7544, 7544); (7579, 7679); (8125, 8125); (8127, 8129); (8141, 8143);
    (8157, 8159); (8173, 8175); (8189, 8190); (8203, 8207); (8216, 8217);
    (8228, 8228); (8231, 8231); (8234, 8238); (8288, 8292); (8294, 8303);
    (8305, 8305); (8319, 8319); (8336, 8348); (8400, 8432); (11388, 11389);
    (11503, 11505); (11631, 11631); (11647, 11647); (11744, 11775); (11823, 11823);
    (12293, 12293); (12330, 12333); (12337, 12341); (12347, 12347); (12441, 12446);
    (12540, 12542); (40981, 40981); (42232, 42237); (42508, 42508); (42607, 42610);
    (42612, 42621); (42623, 42623); (42652, 42655); (42736, 42737); (42752, 42785);
    (42864, 42864); (42888, 42890); (42994, 42996); (43000, 43001); (43010, 43010);
    (43014, 43014); (43019, 43019); (43045, 43046); (43052, 43052); (43204, 43205);
    (43232, 43249); (43263, 43263); (43302, 43309); (43335, 43345); (43392, 43394);
    (43443, 43443); (43446, 43449); (43452, 43453); (43471, 43471); (43493, 43494);
    (43561, 43566); (43569, 43570); (43573, 43574); (43587, 43587); (43596, 43596);
    (43632, 43632); (43644, 43644); (43696, 43696); (43698, 43700); (43703, 43704);
    (43710, 43711); (43713, 43713); (43741, 43741); (43756, 43757); (43763, 43764);
    (43766, 43766); (43867, 43871); (43881, 43883); (44005, 44005); (44008, 44008);
    (44013, 44013); (64286, 64286); (64434, 64450); (65024, 65039); (65043, 65043);
    (65056, 65071); (65106, 65106); (65109, 65109); (65279, 65279); (65287, 65287);
    (65294, 65294); (65306, 65306); (65342, 65342); (65344, 65344); (65392, 65392);
    (65438, 65439); (65507, 65507); (65529, 65531); (66045, 66045); (66272, 66272);
    (66422, 66426); (67456, 67461); (67463, 67504); (67506, 67514); (68097, 68099);
    (68101, 68102); (68108, 68111); (68152, 68154); (68159, 68159); (68325, 68326);
    (68900, 68903); (69291, 69292); (69446, 69456); (69506, 69509); (69633, 69633);
    (69688, 69702); (69744, 69744); (69747, 69748); (69759, 69761); (69811, 69814);
    (69817, 69818); (69821, 69821); (69826, 69826); (69837, 69837); (69888, 69890);
    (69927, 69931); (69933, 69940); (70003, 70003); (70016, 70017); (70070, 70078);
    (70089, 70092); (70095, 70095); (70191, 70193); (70196, 70196); (70198, 70199);
    (70206, 70206); (70367, 70367); (70371, 70378); (70400, 70401); (70459, 70460);
    (70464, 70464); (70502, 70508); (70512, 70516); (70712, 70719); (70722, 70724);
    (70726, 70726); (70750, 70750); (70835, 70840); (70842, 70842); (70847, 70848);
    (70850, 70851); (71090, 71093); (71100, 71101); (71103, 71104); (71132, 71133);
    (71219, 71226); (71229, 71229); (71231, 71232); (71339, 71339); (71341, 71341);
    (71344, 71349); (71351, 71351); (71453, 71455); (71458, 71461); (71463, 71467);
    (71727, 71735); (71737, 71738); (71995, 71996); (71998, 71998); (72003, 72003);
    (72148, 72151); (72154, 72155); (72160, 72160); (72193, 72202); (72243, 72248);
    (72251, 72254); (72263, 72263); (72273, 72278); (72281, 72283); (72330, 72342);
    (72344, 72345); (72752, 72758); (72760, 72765); (72767, 72767); (72850, 72871);
    (72874, 72880); (72882, 72883); (72885, 72886); (73009, 73014); (73018, 73018);
    (73020, 73021); (73023, 73029); (73031, 73031); (73104, 73105); (73109, 73109);
    (73111, 73111); (73459, 73460); (78896, 78904); (92912, 92916); (92976, 92982);
    (92992, 92995); (94031, 94031); (94095, 94111); (94176, 94177); (94179, 94180);
    (110576, 110579); (110581, 110587); (110589, 110590); (113821, 113822); (113824, 113827);
    (118528, 118573); (118576, 118598); (119143, 119145); (119155, 119170); (119173, 119179);
    (119210, 119213); (119362, 119364); (121344, 121398); (121403, 121452); (121461, 121461);
    (121476, 121476); (121499, 121503); (121505, 121519); (122880, 122886); (122888, 122904);
    (122907, 122913); (122915, 122916); (122918, 122922); (123184, 123197); (123566, 123566);
    (123628, 123631); (125136, 125142); (125252, 125259); (127995, 127999); (917505, 917505);
    (917536, 917631); (917760, 917999) ]%N.

(** The cased code points that are not case-ignorable (of the others
    the context rule does not ask whether they are cased). *)
Definition casedLetters : list (N * N) :=
  [ (65, 90); (97, 122); (170, 170); (181, 181); (186, 186);
    (192, 214); (216, 246); (248, 442); (444, 447); (452, 659);
    (661, 687); (880, 883); (886, 887); (891, 893); (895, 895);
    (902, 902); (904, 906); (908, 908); (910, 929); (931, 1013);
    (1015, 1153); (1162, 1327); (1329, 1366); (1376, 1416); (4256, 4293);
    (4295, 4295); (4301, 4301); (4304, 4346); (4349, 4351); (5024, 5109);
    (5112, 5117); (7296, 7304); (7312, 7354); (7357, 7359); (7424, 7467);
    (7531, 7543); (7545, 7578); (7680, 7957); (7960, 7965); (7968, 8005);
    (8008, 8013); (8016, 8023); (8025, 8025); (8027, 8027); (8029, 8029);
    (8031, 8061); (8064, 8116); (8118, 8124); (8126, 8126); (8130, 8132);
    (8134, 8140); (8144, 8147); (8150, 8155); (8160, 8172); (8178, 8180);
    (8182, 8188); (8450, 8450); (8455, 8455); (8458, 8467); (8469, 8469);
    (8473, 8477); (8484, 8484); (8486, 8486); (8488, 8488); (8490, 8493);
    (8495, 8500); (8505, 8505); (8508, 8511); (8517, 8521); (8526, 8526);
    (8544, 8575); (8579, 8580); (9398, 9449); (11264, 11387); (11390, 11492);
    (11499, 11502); (11506, 11507); (11520, 11557); (11559, 11559); (11565, 11565);
    (42560, 42605); (42624, 42651); (42786, 42863); (42865, 42887); (42891, 42894);
    (42896, 42954); (42960, 42961); (42963, 42963); (42965, 42969); (42997, 42998);
    (43002, 43002); (43824, 43866); (43872, 43880); (43888, 43967); (64256, 64262);
    (64275, 64279); (65313, 65338); (65345, 65370); (66560, 66639); (66736, 66771);
    (66776, 66811); (66928, 66938); (66940, 66954); (66956, 66962); (66964, 66965);
    (66967, 66977); (66979, 66993); (66995, 67001); (67003, 67004); (68736, 68786);
    (68800, 68850); (71840, 71903); (93760, 93823); (119808, 119892); (119894, 119964);
    (119966, 119967); (119970, 119970); (119973, 119974); (119977, 119980); (119982, 119993);
    (119995, 119995); (119997, 120003); (120005, 120069); (120071, 120074); (120077, 120084);
    (120086, 120092); (120094, 120121); (120123, 120126); (120128, 120132); (120134, 120134);
    (120138, 120144); (120146, 120485); (120488, 120512); (120514, 120538); (120540, 120570);
    (120572, 120596); (120598, 120628); (120630, 120654); (120656, 120686); (120688, 120712);
    (120714, 120744); (120746, 120770); (120772, 120779); (122624, 122633); (122635, 122654);
    (125184, 125251); (127280, 127305); (127312, 127337); (127344, 127369) ]%N.

Fixpoint lowerPoint (c : N) (runs : list (N * N * N * N)) : N :=
  match runs with
  | [] => c
  | (first, last, step, image) :: runs' =>
      if (c <? first)%N then c
      else if ((c <=? last) && ((c - first) mod step =? 0))%N
           then (image + (c - first))%N
           else lowerPoint c runs'
  end.

Fixpoint inSpans (c : N) (spans : list (N * N)) : bool :=
  match spans with
  | [] => false
  | (first, last) :: spans' =>
      if (c <? first)%N then false
      else if (c <=? last)%N then true
      else inSpans c spans'
  end.

(** Past the case-ignorable code points at the head of [l] stands a
    cased letter. *)
Fixpoint casedNext (l : list N) : bool :=
  match l with
  | [] => false
  | c :: l' =>
      if inSpans c caseIgnorable then casedNext l'
      else inSpans c casedLetters
  end.

(** [before] holds the code points already passed, the nearest first.  A
    capital sigma takes the final form when a cased letter stands before
    it and none after it, case-ignorable code points set aside. *)
Fixpoint lowerPoints (before l : list N) : list N :=
  match l with
  | [] => []
  | c :: l' =>
      (if (c =? 931)%N then
         [if casedNext before && negb (casedNext l') then 962%N else 963%N]
       else if (c =? 304)%N then [105%N; 775%N]
       else [lowerPoint c lowerRuns])
      ++ lowerPoints (c :: before) l'
  end.

(** [s.toLowerCase()] *)
Definition toLowerCase (s : string) : string :=
  encodeUtf8 (lowerPoints [] (decodeUtf8 s)).

Fixpoint reverse (s : string) : string :=
  match s with
  | EmptyString => EmptyString
  | String c s' => reverse s' ++ String c EmptyString
  end.

(** One-byte white space and line terminators of ECMAScript:
    TAB, LF, VT, FF, CR, SP. *)
Definition isWhiteByte (c : ascii) : bool :=
  let n := nat_of_ascii c in
  ((9 <=? n)%nat && (n <=? 13)%nat) || (n =? 32)%nat.

(** The third byte of the three-byte white space starting [E2 80]:
    U+2000..U+200A, U+2028, U+2029, U+202F. *)
Definition isE280Tail (c : ascii) : bool :=
  let n := nat_of_ascii c in
  ((128 <=? n)%nat && (n <=? 138)%nat)
  || (n =? 168)%nat || (n =? 169)%nat || (n =? 175)%nat.

Definition byteIs (c : ascii) (n : nat) : bool := (nat_of_ascii c =? n)%nat.

(** [s.trimStart()]: the multi-byte cases are U+00A0 (C2 A0),
    U+1680 (E1 9A 80), the [E2 80] block, U+205F (E2 81 9F),
    U+3000 (E3 80 80) and U+FEFF (EF BB BF). *)
Fixpoint trimStart (s : string) : string :=
  match s with
  | EmptyString => EmptyString
  | String a s1 =>
      if isWhiteByte a then trimStart s1
      else
        match s1 with
        | EmptyString => s
        | String b s2 =>
            if byteIs a 194 && byteIs b 160 then trimStart s2
            else
              match s2 with
              | EmptyString => s
              | String c s3 =>
                  if (byteIs a 225 && byteIs b 154 && byteIs c 128)
                     || (byteIs a 226 && byteIs b 128 && isE280Tail c)
                     || (byteIs a 226 && byteIs b 129 && byteIs c 159)
                     || (byteIs a 227 && byteIs b 128 && byteIs c 128)
                     || (byteIs a 239 && byteIs b 187 && byteIs c 191)
                  then trimStart s3
                  else s
              end
        end
  end.

(** [trimStart] on the reversed string: the same code points, their
    bytes read backwards. *)
Fixpoint trimStartReversed (s : string) : string :=
  match s with
  | EmptyString => EmptyString
  | String c s1 =>
      if isWhiteByte c then trimStartReversed s1
      else
        match s1 with
        | EmptyString => s
        | String b s2 =>
            if byteIs b 194 && byteIs c 160 then trimStartReversed s2
            else
              match s2 with
              | EmptyString => s
              | String a s3 =>
                  if (byteIs a 225 && byteIs b 154 && byteIs c 128)
                     || (byteIs a 226 && byteIs b 128 && isE280Tail c)
                     || (byteIs a 226 && byteIs b 129 && byteIs c 159)
                     || (byteIs a 227 && byteIs b 128 && byteIs c 128)
                     || (byteIs a 239 && byteIs b 187 && byteIs c 191)
                  then trimStartReversed s3
                  else s
              end
        end
  end.

Definition trimEnd (s : string) : string :=
  reverse (trimStartReversed (reverse s)).

(** [s.trim()] *)
Definition trim (s : string) : string := trimEnd (trimStart s).

(** Truthiness of a string: the empty string is the only falsy one. *)
Definition truthy (s : string) : bool :=
  match s with EmptyString => false | _ => true end.

(** [hay.includes(needle)] *)
Fixpoint includes (hay needle : string) : bool :=
  startsWith hay needle
  || match hay with
     | EmptyString => false
     | String _ hay' => includes hay' needle
     end.

(** Membership in a [Set] of strings. *)
Definition has (set : list string) (s : string) : bool :=
  existsb (String.eqb s) set.

(** The code-unit order of two strings, the order of [<] on JavaScript
    strings without astral characters; one instance of the comparator
    the pipeline is parametrised by. *)
Definition byteCompare (a b : string) : comparison := String.compare a b.

End JsString.

Import JsString.

(* ===================================================================== *)
(** ** Outcomes of a call, and plain JavaScript objects used as maps *)
(* ===================================================================== *)

Inductive JsError : Type :=
| TypeError   (** reading a property of [undefined] *)
| DataError.  (** [entry.getData()] failed *)

(** What a call produces: a value, or an exception that unwinds. *)
Inductive Completion (A : Type) : Type :=
| Normal (a : A)
| Thrown (e : JsError).

Arguments Normal {A} a.
Arguments Thrown {A} e.

Definition bindC {A B : Type} (c : Completion A) (k : A -> Completion B)
  : Completion B :=
  match c with
  | Normal a => k a
  | Thrown e => Thrown e
  end.

Notation "x <- c ;; k" := (bindC c (fun x => k))
  (at level 61, c at next level, right associativity).

Module JsObject.

(** The own, enumerable, string-keyed properties of an object literal,
    in the order of their creation. *)
Definition t (V : Type) : Type := list (string * V).

(** The property names every object literal inherits from
    [Object.prototype]; each holds a function or an object, so each is
    truthy and none has a [children] property. *)
Definition prototypeKeys : list string :=
  [ "constructor"; "__defineGetter__"; "__defineSetter__";
    "hasOwnProperty"; "__lookupGetter__"; "__lookupSetter__";
    "isPrototypeOf"; "propertyIsEnumerable"; "toString"; "valueOf";
    "__proto__"; "toLocaleString" ].

(** The result of reading [o[k]]. *)
Inductive Property (V : Type) : Type :=
| Undefined
| Own (v : V)
| Inherited.

Arguments Undefined {V}.
Arguments Own {V} v.
Arguments Inherited {V}.

Section Ops.
Variable V : Type.

Fixpoint getOwn (o : t V) (k : string) : option V :=
  match o with
  | [] => None
  | (k', v) :: o' => if String.eqb k' k then Some v else getOwn o' k
  end.

(** [o[k]] *)
Definition get (o : t V) (k : string) : Property V :=
  match getOwn o k with
  | Some v => Own v
  | None => if has prototypeKeys k then Inherited else Undefined
  end.

(** [o[k] = v]: an existing own property keeps its place, a new one
    is created last.  (The pipeline never writes a key of
    [prototypeKeys], see [insertParts].) *)
Fixpoint set (o : t V) (k : string) (v : V) : t V :=
  match o with
  | [] => [(k, v)]
  | (k', v') :: o' =>
      if String.eqb k' k then (k', v) :: o' else (k', v') :: set o' k v
  end.

Definition isDigit (c : ascii) : bool :=
  let n := nat_of_ascii c in (48 <=? n)%nat && (n <=? 57)%nat.

Fixpoint digitsValue (acc : N) (s : string) : option N :=
  match s with
  | EmptyString => Some acc
  | String c s' =>
      if isDigit c
      then digitsValue (acc * 10 + N.of_nat (nat_of_ascii c - 48))%N s'
      else None
  end.

(** An array index: the canonical decimal numeral of an integer of
    [0 .. 2^32 - 2]. *)
Definition arrayIndex (k : string) : option N :=
  match k with
  | EmptyString => None
  | String c rest =>
      if Ascii.eqb c "0" && truthy rest then None
      else match digitsValue 0%N k with
           | Some n => if (n <? 4294967295)%N then Some n else None
           | None => None
           end
  end.

Definition isArrayIndex (k : string) : bool :=
  match arrayIndex k with Some _ => true | None => false end.

Fixpoint insertByIndex (i : N) (kv : string * V)
         (l : list (N * (string * V))) : list (N * (string * V)) :=
  match l with
  | [] => [(i, kv)]
  | (j, kv') :: l' =>
      if (i <? j)%N then (i, kv) :: l
      else (j, kv') :: insertByIndex i kv l'
  end.

Fixpoint indexed (o : t V) : list (N * (string * V)) :=
  match o with
  | [] => []
  | kv :: o' =>
      match arrayIndex (fst kv) with
      | Some i => insertByIndex i kv (indexed o')
      | None => indexed o'
      end
  end.

(** The own properties in enumeration order (OrdinaryOwnPropertyKeys):
    the array indices in ascending numeric order, then the other
    keys in creation order. *)
Definition entries (o : t V) : t V :=
  map snd (indexed o)
  ++ filter (fun kv => negb (isArrayIndex (fst kv))) o.

(** [Object.values(o)] *)
Definition values (o : t V) : list V := map snd (entries o).

(** [Object.keys(o)] *)
Definition keys (o : t V) : list string := map fst (entries o).

End Ops.

Definition mapValues {V W : Type} (f : V -> W) (o : t V) : t W :=
  map (fun kv => (fst kv, f (snd kv))) o.

End JsObject.

(* ===================================================================== *)
(** ** The policy tables and [path.extname] *)
(* ===================================================================== *)

(** File extensions to include in processing. *)
Definition ALLOWED_EXTENSIONS : list string :=
  [ ".js"; ".jsx"; ".ts"; ".tsx"; ".py"; ".java"; ".cpp"; ".c"; ".h"; ".cs";
    ".php"; ".rb"; ".go"; ".rs"; ".swift"; ".kt"; ".scala"; ".clj"; ".hs";
    ".html"; ".htm"; ".css"; ".scss"; ".sass"; ".less"; ".xml"; ".svg";
    ".json"; ".yaml"; ".yml"; ".toml"; ".ini"; ".cfg"; ".config";
    ".md"; ".txt"; ".rst"; ".adoc"; ".tex";
    ".sql"; ".sh"; ".bat"; ".ps1"; ".dockerfile"; ".gitignore"; ".env" ].

(** Directories and files to ignore. *)
Definition IGNORE_PATTERNS : list string :=
  [ "node_modules"; ".git"; ".svn"; ".hg"; "dist"; "build"; "target";
    ".next"; ".nuxt"; "coverage"; ".nyc_output"; ".cache"; "logs";
    "__pycache__"; ".pytest_cache"; ".tox"; "venv"; "env";
    ".DS_Store"; "Thumbs.db"; ".vscode"; ".idea" ].

Definition ignoredPart (part : string) : bool :=
  has IGNORE_PATTERNS part || startsWith part ".".

Definition shouldIgnore (filePath : string) : bool :=
  let parts := split "/" filePath in
  existsb ignoredPart parts.

(** The scan of [path.extname] (POSIX), from the last character down. *)
Record ExtScan : Type := mkExtScan {
  startDot : Z;
  startPart : Z;
  endAt : Z;
  matchedSlash : bool;
  preDotState : Z
}.

Fixpoint extnameScan (path : string) (n : nat) (st : ExtScan) : ExtScan :=
  match n with
  | O => st
  | S i =>
      match String.get i path with
      | None => st
      | Some code =>
          if Ascii.eqb code "/" then
            if negb (matchedSlash st)
            then mkExtScan (startDot st) (Z.of_nat i + 1) (endAt st)
                           (matchedSlash st) (preDotState st)
            else extnameScan path i st
          else
            let st1 :=
              if (endAt st =? -1)%Z
              then mkExtScan (startDot st) (startPart st) (Z.of_nat i + 1)
                             false (preDotState st)
              else st in
            let st2 :=
              if Ascii.eqb code "." then
                if (startDot st1 =? -1)%Z
                then mkExtScan (Z.of_nat i) (startPart st1) (endAt st1)
                               (matchedSlash st1) (preDotState st1)
                else if negb (preDotState st1 =? 1)%Z
                then mkExtScan (startDot st1) (startPart st1) (endAt st1)
                               (matchedSlash st1) 1
                else st1
              else if negb (startDot st1 =? -1)%Z
              then mkExtScan (startDot st1) (startPart st1) (endAt st1)
                             (matchedSlash st1) (-1)
              else st1 in
            extnameScan path i st2
      end
  end.

(** [path.extname(p)] *)
Definition extname (p : string) : string :=
  let st := extnameScan p (String.length p) (mkExtScan (-1) 0 (-1) true 0) in
  if (startDot st =? -1)%Z
     || (endAt st =? -1)%Z
     || (preDotState st =? 0)%Z
     || ((preDotState st =? 1)%Z
         && (startDot st =? endAt st - 1)%Z
         && (startDot st =? startPart st + 1)%Z)
  then EmptyString
  else substringTo (Z.to_nat (endAt st - startDot st))
                   (substringFrom (Z.to_nat (startDot st)) p).

Definition getFileExtension (filename : string) : string :=
  toLowerCase (extname filename).

Definition langMap : JsObject.t string :=
  [ (".js", "javascript"); (".jsx", "jsx"); (".ts", "typescript");
    (".tsx", "tsx"); (".py", "python"); (".java", "java"); (".cpp", "cpp");
    (".c", "c"); (".h", "c"); (".cs", "csharp"); (".php", "php");
    (".rb", "ruby"); (".go", "go"); (".rs", "rust"); (".swift", "swift");
    (".kt", "kotlin"); (".scala", "scala"); (".html", "html");
    (".htm", "html"); (".css", "css"); (".scss", "scss"); (".sass", "sass");
    (".json", "json"); (".yaml", "yaml"); (".yml", "yaml"); (".xml", "xml");
    (".svg", "xml"); (".md", "markdown"); (".sql", "sql"); (".sh", "bash");
    (".dockerfile", "dockerfile") ].

(** [langMap[ext] || 'text'].  The argument is a result of
    [getFileExtension]: empty or starting with a dot, so never a name
    inherited from [Object.prototype]. *)
Definition getLanguageFromExtension (ext : string) : string :=
  match JsObject.getOwn langMap ext with
  | Some lang => if truthy lang then lang else "text"
  | None => "text"
  end.

Definition formatFileContent (filename content : string) : string :=
  let extension := getFileExtension filename in
  let language := getLanguageFromExtension extension in
  "### " ++ filename ++ String "010" "```" ++ language ++ String "010" ""
    ++ content ++ String "010" "```" ++ String "010" (String "010" "").

(* ===================================================================== *)
(** ** Archive entries and tree nodes *)
(* ===================================================================== *)

(** The view of an [AdmZip.IZipEntry] the pipeline reads: [entryName],
    [isDirectory], [header.size] and the outcome of
    [getData().toString('utf8')]. *)
Record ZipEntry : Type := mkEntry {
  entryName : string;
  isDirectory : bool;
  headerSize : Z;
  getData : Completion string
}.

Inductive NodeType : Type := file | folder.

Definition NodeType_eqb (a b : NodeType) : bool :=
  match a, b with
  | file, file | folder, folder => true
  | _, _ => false
  end.

Unset Elimination Schemes.

(** The objects [buildFileTree] stores in its nested map: the fields of a
    [FileTreeNode], with [children] still an object keyed by name. *)
Inductive RawNode : Type := mkRaw {
  r_name : string;
  r_path : string;
  r_type : NodeType;
  r_size : option Z;
  r_extension : option string;
  r_children : option (list (string * RawNode))
}.

Definition RawObject : Type := JsObject.t RawNode.

(** [FileTreeNode] of the shared schema; an absent optional field is
    [None]. *)
Inductive FileTreeNode : Type := mkNode {
  name : string;
  path : string;
  type : NodeType;
  size : option Z;
  extension : option string;
  children : option (list FileTreeNode)
}.

Set Elimination Schemes.

Record ProcessingStats : Type := mkStats {
  totalFiles : Z;
  totalFolders : Z;
  linesOfCode : Z
}.

(** The three outputs of the pipeline; the two display strings of the
    statistics ([fileSize], [processingTime]) come from the upload size and
    the clock and are not part of the embedding. *)
Record ProcessedOutput : Type := mkOutput {
  fileTree : list FileTreeNode;
  formattedContent : string;
  stats : ProcessingStats
}.

(* ===================================================================== *)
(** ** [buildFileTree] *)
(* ===================================================================== *)

(** The common-prefix detection.  The source has this text twice, in
    [buildFileTree] over [validEntries] and in the upload route over
    [entries]; [list] stands for either array. *)
Definition detectCommonPrefix (list : list ZipEntry) : string :=
  match list with
  | [] => EmptyString
  | first :: _ =>
      let firstPath := entryName first in
      let firstSlash := indexOf firstPath "/" in
      if (firstSlash >? 0)%Z then
        let potentialPrefix :=
          substringTo (Z.to_nat (firstSlash + 1)) firstPath in
        if forallb (fun entry => startsWith (entryName entry) potentialPrefix)
                   list
        then potentialPrefix
        else EmptyString
      else EmptyString
  end.

(** Remove common prefix from entry name. *)
Definition cleanPath (commonPrefix : string) (entry : ZipEntry) : string :=
  if startsWith (entryName entry) commonPrefix
  then substringFrom (String.length commonPrefix) (entryName entry)
  else entryName entry.

(** [cleanPath.split('/').filter(part => part.length > 0)] *)
Definition cleanParts (commonPrefix : string) (entry : ZipEntry) : list string :=
  filter (fun part => (0 <? String.length part)%nat)
         (split "/" (cleanPath commonPrefix entry)).

(** The object literal [buildFileTree] stores at [current[part]]. *)
Definition newNode (entry : ZipEntry) (parts : list string) (index : nat)
           (part : string) : RawNode :=
  let isFile :=
    (index =? List.length parts - 1)%nat && negb (isDirectory entry) in
  mkRaw part
        (join "/" (firstn (index + 1) parts))
        (if isFile then file else folder)
        (if isFile then Some (headerSize entry) else None)
        (if isFile then Some (getFileExtension part) else None)
        (if isFile then None else Some []).

(** [node] once the object its [children] field refers to has become
    [below]. *)
Definition withChildren (node : RawNode) (below : list (string * RawNode))
  : RawNode :=
  mkRaw (r_name node) (r_path node) (r_type node) (r_size node)
        (r_extension node) (Some below).

(** The body of [parts.forEach((part, index) => ...)] from position
    [index] on, [rest] being the segments still to visit and [current] the
    object the walk stands in.  The result is [current] after the walk;
    writing the visited child back renders the in-place update of the
    [children] object all its holders share.  Going down into something
    that has no [children] leaves [current] undefined, and the next
    iteration throws on [current[part]]. *)
Fixpoint insertParts (entry : ZipEntry) (parts : list string) (index : nat)
         (rest : list string) (current : RawObject) : Completion RawObject :=
  match rest with
  | [] => Normal current
  | part :: rest' =>
      let current1 :=
        match JsObject.get current part with
        | JsObject.Undefined =>
            JsObject.set current part (newNode entry parts index part)
        | _ => current
        end in
      if (index <? List.length parts - 1)%nat then
        match JsObject.get current1 part with
        | JsObject.Own node =>
            match r_children node with
            | Some below =>
                below' <- insertParts entry parts (S index) rest' below ;;
                Normal (JsObject.set current1 part (withChildren node below'))
            | None => Thrown TypeError
            end
        | _ => Thrown TypeError
        end
      else insertParts entry parts (S index) rest' current1
  end.

(** [convertToArray] on one value of the map. *)
Fixpoint convertItem (item : RawNode) : FileTreeNode :=
  mkNode (r_name item) (r_path item) (r_type item) (r_size item)
         (r_extension item)
         (match r_children item with
          | Some below =>
              Some (JsObject.values
                      (map (fun kv => (fst kv, convertItem (snd kv))) below))
          | None => None
          end).

(** [convertToArray(node)]: [Object.values(node).map(item => ...)]; see
    [convertToArray_values] for this reading. *)
Definition convertToArray (node : RawObject) : list FileTreeNode :=
  JsObject.values (JsObject.mapValues convertItem node).

Section Build.

(** [a.localeCompare(b)], by its sign. *)
Variable localeCompare : string -> string -> comparison.

(** One step of the stable sort: [entry] goes before the first element
    it compares below. *)
Fixpoint insertSorted (entry : ZipEntry) (sorted : list ZipEntry)
  : list ZipEntry :=
  match sorted with
  | [] => [entry]
  | other :: sorted' =>
      match localeCompare (entryName entry) (entryName other) with
      | Lt => entry :: sorted
      | _ => other :: insertSorted entry sorted'
      end
  end.

(** [array.sort((a, b) => a.entryName.localeCompare(b.entryName))]:
    stable, as [Array.prototype.sort] is. *)
Definition sortByName (l : list ZipEntry) : list ZipEntry :=
  fold_left (fun sorted entry => insertSorted entry sorted) l [].

Definition validEntries (entries : list ZipEntry) : list ZipEntry :=
  sortByName (filter (fun entry => negb (shouldIgnore (entryName entry)))
                     entries).

(** [validEntries.forEach(entry => ...)] on the map [root]. *)
Fixpoint insertEntries (commonPrefix : string) (l : list ZipEntry)
         (root : RawObject) : Completion RawObject :=
  match l with
  | [] => Normal root
  | entry :: l' =>
      let parts := cleanParts commonPrefix entry in
      root' <- insertParts entry parts 0 parts root ;;
      insertEntries commonPrefix l' root'
  end.

Definition buildFileTree (entries : list ZipEntry)
  : Completion (list FileTreeNode) :=
  let valid := validEntries entries in
  let commonPrefix := detectCommonPrefix valid in
  root <- insertEntries commonPrefix valid [] ;;
  Normal (convertToArray root).

End Build.

(* ===================================================================== *)
(** ** [generateFileTreeString] and the upload route *)
(* ===================================================================== *)

Definition LF : string := String "010" EmptyString.

(** The text [generateFileTreeString] adds for one node; [isLastItem] is
    [index === nodes.length - 1], which the walk over the siblings reads
    off the remaining list. *)
Fixpoint renderNode (node : FileTreeNode) (prefix : string)
         (isLastItem : bool) {struct node} : string :=
  let connector := if isLastItem then "└── " else "├── " in
  let icon := match type node with folder => "📁 " | file => "📄 " end in
  let line := (prefix ++ connector ++ icon ++ name node ++ LF)%string in
  match children node with
  | Some kids =>
      if (0 <? List.length kids)%nat then
        let newPrefix :=
          (prefix ++ (if isLastItem then "    " else "│   "))%string in
        (line ++
        (fix walk (nodes : list FileTreeNode) : string :=
           match nodes with
           | [] => EmptyString
           | child :: nodes' =>
               renderNode child newPrefix
                          (match nodes' with [] => true | _ => false end)
               ++ walk nodes'
           end) kids)%string
      else line
  | None => line
  end.

Fixpoint generateFileTreeString (nodes : list FileTreeNode) (prefix : string)
  : string :=
  match nodes with
  | [] => EmptyString
  | node :: nodes' =>
      renderNode node prefix (match nodes' with [] => true | _ => false end)
      ++ generateFileTreeString nodes' prefix
  end.

(** The variables of the route handler that [processNode] updates. *)
Record Locals : Type := mkLocals {
  l_formattedContent : string;
  l_totalFiles : Z;
  l_totalFolders : Z;
  l_linesOfCode : Z
}.

(** [entries.find(e => e.entryName === originalPath
                       || e.entryName.endsWith('/' + node.path))] *)
Definition findEntry (entries : list ZipEntry) (originalPath nodePath : string)
  : option ZipEntry :=
  find (fun e => String.eqb (entryName e) originalPath
                 || endsWith (entryName e) ("/" ++ nodePath))
       entries.

(** The [try] block of [processNode]. *)
Definition embedFile (entries : list ZipEntry) (node : FileTreeNode)
           (commonPrefix : string) (st : Locals) : Completion Locals :=
  let originalPath := (commonPrefix ++ path node)%string in
  match findEntry entries originalPath (path node) with
  | Some entry =>
      if negb (isDirectory entry) then
        content <- getData entry ;;
        if truthy (trim content) then
          Normal (mkLocals
                    (l_formattedContent st
                     ++ formatFileContent (path node) content)
                    (l_totalFiles st)
                    (l_totalFolders st)
                    (l_linesOfCode st
                     + Z.of_nat (List.length (split "010" content))))
        else Normal st
      else Normal st
  | None => Normal st
  end.

(** The work of [processNode] on a file node, after the type test:
    count, then embed under [try]/[catch]. *)
Definition processFile (entries : list ZipEntry) (node : FileTreeNode)
           (commonPrefix : string) (st : Locals) : Locals :=
  let st1 := mkLocals (l_formattedContent st) (l_totalFiles st + 1)
                      (l_totalFolders st) (l_linesOfCode st) in
  let ext := getFileExtension (name node) in
  if has ALLOWED_EXTENSIONS ext then
    match embedFile entries node commonPrefix st1 with
    | Normal st2 => st2
    | Thrown _ => st1
    end
  else st1.

Fixpoint processNode (entries : list ZipEntry) (node : FileTreeNode)
         (commonPrefix : string) (st : Locals) {struct node} : Locals :=
  match type node with
  | folder =>
      let st1 := mkLocals (l_formattedContent st) (l_totalFiles st)
                          (l_totalFolders st + 1) (l_linesOfCode st) in
      match children node with
      | Some kids =>
          fold_left (fun s child => processNode entries child commonPrefix s)
                    kids st1
      | None => st1
      end
  | file => processFile entries node commonPrefix st
  end.

(** [nodes.forEach(node => processNode(node, commonPrefix))] *)
Definition processNodes (entries : list ZipEntry) (nodes : list FileTreeNode)
           (commonPrefix : string) (st : Locals) : Locals :=
  fold_left (fun s node => processNode entries node commonPrefix s) nodes st.

Definition documentHead (fileTree : list FileTreeNode) : string :=
  "# Project Structure and Contents" ++ LF ++ LF
  ++ "## File Tree" ++ LF ++ LF ++ "```" ++ LF
  ++ generateFileTreeString fileTree EmptyString
  ++ "```" ++ LF ++ LF ++ "## File Contents" ++ LF ++ LF.

Section Route.

Variable localeCompare : string -> string -> comparison.

(** The handler of POST /api/upload from [zip.getEntries()] to the
    values it hands to storage and to the response.  The upload record,
    the schema checks of the storage layer and the removal of the
    uploaded file lie outside the embedding. *)
Definition processUpload (entries : list ZipEntry)
  : Completion ProcessedOutput :=
  fileTree <- buildFileTree localeCompare entries ;;
  let st0 := mkLocals (documentHead fileTree) 0 0 0 in
  let commonPrefix := detectCommonPrefix entries in
  let st := processNodes entries fileTree commonPrefix st0 in
  Normal (mkOutput fileTree (l_formattedContent st)
                   (mkStats (l_totalFiles st) (l_totalFolders st)
                            (l_linesOfCode st))).

End Route.

(* ===================================================================== *)
(** ** Vocabulary of the specification *)
(* ===================================================================== *)

(** [seg] holds no slash. *)
Definition noSlash (seg : string) : Prop := indexOf seg "/" = (-1)%Z.

(** Every entry of [l] lies below the top-level folder [seg]. *)
Definition sharesTopFolder (l : list ZipEntry) (seg : string) : Prop :=
  seg <> EmptyString /\ noSlash seg
  /\ Forall (fun e => startsWith (entryName e) (seg ++ "/") = true) l.

(** An entry under another name. *)
Definition renamed (e : ZipEntry) (n : string) : ZipEntry :=
  mkEntry n (isDirectory e) (headerSize e) (getData e).

(** One application of the normalizer: detect the prefix of the list and
    strip it from every path. *)
Definition stripAll (l : list ZipEntry) : list ZipEntry :=
  map (fun e => renamed e (cleanPath (detectCommonPrefix l) e)) l.

(** The prefix [buildFileTree] strips: detected on the filtered, sorted
    entries. *)
Definition treePrefix (localeCompare : string -> string -> comparison)
           (entries : list ZipEntry) : string :=
  detectCommonPrefix (validEntries localeCompare entries).

(** The prefix the route passes to [processNode]: detected on all the
    entries, in archive order. *)
Definition lookupPrefix (entries : list ZipEntry) : string :=
  detectCommonPrefix entries.

(** A file entry holding [content]. *)
Definition fileEntry (n content : string) : ZipEntry :=
  mkEntry n false (Z.of_nat (String.length content)) (Normal content).

(** A directory entry. *)
Definition dirEntry (n : string) : ZipEntry :=
  mkEntry n true 0 (Normal EmptyString).

(** [n] is a node of the forest [forest], at any depth. *)
Inductive Occurs (n : FileTreeNode) : list FileTreeNode -> Prop :=
| Occurs_here (forest : list FileTreeNode) :
    In n forest -> Occurs n forest
| Occurs_below (forest : list FileTreeNode) (m : FileTreeNode)
               (kids : list FileTreeNode) :
    In m forest -> children m = Some kids -> Occurs n kids ->
    Occurs n forest.

Arguments Occurs_here : clear implicits.
Arguments Occurs_below : clear implicits.

(** [r] is a value of the nested map [o], at any depth. *)
Inductive OccursRaw (r : RawNode) : RawObject -> Prop :=
| OccursRaw_here (o : RawObject) (k : string) :
    In (k, r) o -> OccursRaw r o
| OccursRaw_below (o : RawObject) (k : string) (m : RawNode)
                  (below : RawObject) :
    In (k, m) o -> r_children m = Some below -> OccursRaw r below ->
    OccursRaw r o.

Arguments OccursRaw_here : clear implicits.
Arguments OccursRaw_below : clear implicits.

(** The number of nodes of kind [t] in a tree, by full traversal. *)
Fixpoint countType (t : NodeType) (node : FileTreeNode) : nat :=
  (if NodeType_eqb (type node) t then 1 else 0)
  + match children node with
    | Some kids => list_sum (map (countType t) kids)
    | None => 0
    end.

Definition countNodes (t : NodeType) (forest : list FileTreeNode) : nat :=
  list_sum (map (countType t) forest).

(** A file whose content goes into the document: the node, the archive
    entry the lookup returns for it, and the decoded content. *)
Record Embedded : Type := mkEmbedded {
  e_node : FileTreeNode;
  e_entry : ZipEntry;
  e_content : string
}.

(** The conditions under which the file node [node] is embedded: its
    extension is allowed, the lookup finds an entry that is no directory,
    the entry decodes, and the text is not blank. *)
Definition embedding (entries : list ZipEntry) (commonPrefix : string)
           (node : FileTreeNode) : option Embedded :=
  if has ALLOWED_EXTENSIONS (getFileExtension (name node)) then
    match findEntry entries (commonPrefix ++ path node) (path node) with
    | Some entry =>
        if isDirectory entry then None
        else match getData entry with
             | Normal content =>
                 if truthy (trim content)
                 then Some (mkEmbedded node entry content)
                 else None
             | Thrown _ => None
             end
    | None => None
    end
  else None.

(** The embedded files below a node, in traversal order. *)
Fixpoint embeddedIn (entries : list ZipEntry) (commonPrefix : string)
         (node : FileTreeNode) : list Embedded :=
  match type node with
  | folder =>
      match children node with
      | Some kids => flat_map (embeddedIn entries commonPrefix) kids
      | None => []
      end
  | file =>
      match embedding entries commonPrefix node with
      | Some x => [x]
      | None => []
      end
  end.

Definition embeddedFiles (entries : list ZipEntry) (commonPrefix : string)
           (forest : list FileTreeNode) : list Embedded :=
  flat_map (embeddedIn entries commonPrefix) forest.

(** [content.split('\n').length] *)
Definition splitLength (content : string) : Z :=
  Z.of_nat (List.length (split "010" content)).

Definition block (x : Embedded) : string :=
  formatFileContent (path (e_node x)) (e_content x).

Definition blocks (l : list Embedded) : string :=
  fold_right (fun x acc => (block x ++ acc)%string) EmptyString l.

Definition sumZ (l : list Z) : Z := fold_right Z.add 0%Z l.

(** In a tree of [buildFileTree] a file node has no [children] field and
    a folder node has one. *)
Definition typedNode (n : FileTreeNode) : Prop :=
  match type n with
  | file => children n = None
  | folder => children n <> None
  end.

Definition typedRaw (r : RawNode) : Prop :=
  match r_type r with
  | file => r_children r = None
  | folder => r_children r <> None
  end.

(** The document and the line counter after walking [nodes] from [st]:
    the blocks of the embedded files are appended, their line counts
    added. *)
Definition walkedFrom (entries : list ZipEntry) (commonPrefix : string)
           (nodes : list FileTreeNode) (st st' : Locals) : Prop :=
  l_formattedContent st'
    = (l_formattedContent st
       ++ blocks (embeddedFiles entries commonPrefix nodes))%string
  /\ l_linesOfCode st'
     = (l_linesOfCode st
        + sumZ (map (fun x => splitLength (e_content x))
                    (embeddedFiles entries commonPrefix nodes)))%Z.

(** The two node counters after walking [nodes] from [st]. *)
Definition counted (nodes : list FileTreeNode) (st st' : Locals) : Prop :=
  l_totalFiles st' = (l_totalFiles st + Z.of_nat (countNodes file nodes))%Z
  /\ l_totalFolders st'
     = (l_totalFolders st + Z.of_nat (countNodes folder nodes))%Z.

(** [Q] holds of every value of the nested map [o]. *)
Definition AllRaw (Q : RawNode -> Prop) (o : RawObject) : Prop :=
  forall r, OccursRaw r o -> Q r.

(** What makes [Q] an invariant of the values of the map while the
    segments [parts] of [entry] are inserted, [R] being known of every
    object the walk has gone through: [Q] holds of a node created at the
    last segment, of a node created above it once the walk below has
    filled its children, and of an older node whose children the walk has
    changed. *)
Record InsertInvariant (Q : RawNode -> Prop) (R : RawObject -> Prop)
       (entry : ZipEntry) (parts : list string) : Prop := {
  inv_new_last :
    forall index part,
      skipn index parts = [part] -> Q (newNode entry parts index part);
  inv_new_inner :
    forall index part rest' below,
      skipn index parts = part :: rest' -> rest' <> [] -> R below ->
      Q (withChildren (newNode entry parts index part) below);
  inv_update :
    forall node below,
      Q node -> r_children node <> None -> R below ->
      Q (withChildren node below);
  inv_result :
    forall index rest current current',
      rest <> [] -> skipn index parts = rest ->
      insertParts entry parts index rest current = Normal current' ->
      R current'
}.

(** No segment is the name of a property of [Object.prototype]. *)
Definition plainNames (parts : list string) : Prop :=
  forall p, In p parts -> has JsObject.prototypeKeys p = false.

(** The archive of the scenario of the specification; the third entry
    is of any size and content. *)
Definition scenario (xSize : Z) (xData : Completion string) : list ZipEntry :=
  [ fileEntry "proj/src/a.py" ("print(1)" ++ LF);
    fileEntry "proj/src/b.txt" EmptyString;
    mkEntry "proj/node_modules/x.js" false xSize xData ].

Definition scenarioTree : list FileTreeNode :=
  [ mkNode "src" "src" folder None None
      (Some [ mkNode "a.py" "src/a.py" file (Some 9%Z) (Some ".py") None;
              mkNode "b.txt" "src/b.txt" file (Some 0%Z) (Some ".txt") None ])
  ].

(** [st] after a file was counted and nothing else was done. *)
Definition countedOnly (st : Locals) : Locals :=
  mkLocals (l_formattedContent st) (l_totalFiles st + 1) (l_totalFolders st)
           (l_linesOfCode st).

(** The outcomes of the content lookup that leave a file without a
    block: a blank text, a failing read, no entry found. *)
Inductive NoContent (entries : list ZipEntry) (commonPrefix : string)
          (node : FileTreeNode) : Prop :=
| Blank (entry : ZipEntry) (content : string) :
    findEntry entries (commonPrefix ++ path node) (path node) = Some entry ->
    isDirectory entry = false ->
    getData entry = Normal content ->
    trim content = EmptyString ->
    NoContent entries commonPrefix node
| ReadFails (entry : ZipEntry) (err : JsError) :
    findEntry entries (commonPrefix ++ path node) (path node) = Some entry ->
    isDirectory entry = false ->
    getData entry = Thrown err ->
    NoContent entries commonPrefix node
| NotFound :
    findEntry entries (commonPrefix ++ path node) (path node) = None ->
    NoContent entries commonPrefix node.

Arguments Blank : clear implicits.
Arguments ReadFails : clear implicits.
Arguments NotFound : clear implicits.

(** A segment that survives the ignore filter: not ignored, without a
    slash, not empty. *)
Definition keptSegment (p : string) : Prop :=
  ignoredPart p = false /\ noSlash p /\ p <> EmptyString.

(** The path of [r] joins kept segments, and its name is the last of
    them. *)
Definition visibleRaw (r : RawNode) : Prop :=
  exists ps, ps <> [] /\ Forall keptSegment ps
             /\ r_path r = join "/" ps /\ r_name r = last ps EmptyString.

(** No segment of the path of [n] is ignored, and the name of [n] is the
    last segment of its path. *)
Definition visibleNode (n : FileTreeNode) : Prop :=
  Forall (fun seg => ignoredPart seg = false) (split "/" (path n))
  /\ name n = last (split "/" (path n)) EmptyString.

(** An empty folder of the map is the folder of a directory entry of
    [valid]. *)
Definition emptyIsDirectory (commonPrefix : string) (valid : list ZipEntry)
           (r : RawNode) : Prop :=
  r_children r = Some [] ->
  exists e, In e valid /\ isDirectory e = true
            /\ r_path r = join "/" (cleanParts commonPrefix e).

(** A comparator that orders: swapping the arguments swaps the sign, and
    "not above" is transitive. *)
Definition consistentCompare (cmp : string -> string -> comparison) : Prop :=
  (forall a b, cmp b a = CompOpp (cmp a b))
  /\ (forall a b c, cmp a b <> Gt -> cmp b c <> Gt -> cmp a c <> Gt).

(** [entry] sorts at or before [other]. *)
Definition notAfter (cmp : string -> string -> comparison)
           (entry other : ZipEntry) : Prop :=
  cmp (entryName entry) (entryName other) <> Gt.

(** The segments of [ps] after the leading segments [q], when [ps] starts
    with [q]. *)
Fixpoint dropPrefix (q ps : list string) : option (list string) :=
  match q with
  | [] => Some ps
  | k :: q' =>
      match ps with
      | p :: ps' => if String.eqb p k then dropPrefix q' ps' else None
      | [] => None
      end
  end.

(** The stripped path of [e] is [q] or lies below [q]. *)
Definition liesBelow (commonPrefix : string) (q : list string) (e : ZipEntry)
  : bool :=
  match dropPrefix q (cleanParts commonPrefix e) with
  | Some _ => true
  | None => false
  end.

(** The first of the sorted entries at or below the node of segments
    [q]. *)
Definition firstBelow (commonPrefix : string) (valid : list ZipEntry)
           (q : list string) : option ZipEntry :=
  find (liesBelow commonPrefix q) valid.

(** [sibs] is a list of siblings of [forest]: the roots, reached by the
    empty list of names, or the children of a node, reached by the names
    from a root down to it. *)
Inductive SiblingsAt (forest : list FileTreeNode)
  : list string -> list FileTreeNode -> Prop :=
| Siblings_root : SiblingsAt forest [] forest
| Siblings_below (q : list string) (sibs : list FileTreeNode)
                 (n : FileTreeNode) (kids : list FileTreeNode) :
    SiblingsAt forest q sibs -> In n sibs -> children n = Some kids ->
    SiblingsAt forest (q ++ [name n]) kids.

Arguments Siblings_root : clear implicits.
Arguments Siblings_below : clear implicits.

(** Entries with the segments they still have to go from some level
    on, in insertion order. *)
Definition Pending : Type := list (ZipEntry * list string).

(** The entries at or below [q], with their segments after [q]. *)
Definition tailsAt (commonPrefix : string) (q : list string)
           (valid : list ZipEntry) : Pending :=
  flat_map (fun e => match dropPrefix q (cleanParts commonPrefix e) with
                     | Some t => [(e, t)]
                     | None => []
                     end) valid.

(** One level down: the pending entries that go on with [k]. *)
Definition tailsOf (k : string) (done : Pending) : Pending :=
  flat_map (fun d => match snd d with
                     | p :: t => if String.eqb p k then [(fst d, t)] else []
                     | [] => []
                     end) done.

Definition headIs (k : string) (d : ZipEntry * list string) : bool :=
  match snd d with
  | p :: _ => String.eqb p k
  | [] => false
  end.

(** The keys of a level after one more entry: its next segment comes
    last unless it is there already or is an inherited name. *)
Definition addKey (keys : list string) (d : ZipEntry * list string)
  : list string :=
  match snd d with
  | [] => keys
  | p :: _ =>
      if has JsObject.prototypeKeys p || has keys p then keys
      else keys ++ [p]
  end.

(** The next segments of the pending entries in the order of their first
    appearance. *)
Definition firstKeys (done : Pending) : list string :=
  fold_left addKey done [].

(** The map [o] holds what inserting the entries of [done] leaves at a
    level: its keys are [firstKeys done] in this order, each value is
    named by its key, and each [children] object holds what the entries
    going on with that key leave. *)
Inductive Ordered : Pending -> RawObject -> Prop :=
| Ordered_level (done : Pending) (o : RawObject) :
    map fst o = firstKeys done ->
    (forall k node, In (k, node) o -> r_name node = k) ->
    (forall k node below,
        In (k, node) o -> r_children node = Some below ->
        Ordered (tailsOf k done) below) ->
    Ordered done o.

Arguments Ordered_level : clear implicits.

(** [x] comes before [y] in [l]. *)
Definition comesBefore {A : Type} (x y : A) (l : list A) : Prop :=
  exists a b c, l = a ++ x :: b ++ y :: c.

(** No segment of an entry name is an array index. *)
Definition noArrayIndex (entries : list ZipEntry) : Prop :=
  forall e p, In e entries -> In p (split "/" (entryName e)) ->
              JsObject.isArrayIndex p = false.

(* ===================================================================== *)
(** ** Vocabulary of the further properties *)
(* ===================================================================== *)

(** What the fields of a value of the map say: a file has no children,
    the extension of its name, and the size and stripped path of a
    retained file entry; a folder has children and neither size nor
    extension. *)
Definition recordOf (commonPrefix : string) (valid : list ZipEntry)
           (r : RawNode) : Prop :=
  match r_type r with
  | file =>
      r_children r = None
      /\ r_extension r = Some (getFileExtension (r_name r))
      /\ exists e, In e valid /\ isDirectory e = false
                   /\ r_size r = Some (headerSize e)
                   /\ r_path r = join "/" (cleanParts commonPrefix e)
  | folder =>
      r_children r <> None /\ r_size r = None /\ r_extension r = None
  end.

(** The values of the map [o] found below the segments [q] are named by
    their keys and carry as path the segments from the root down to them,
    joined by slashes; and so for the maps below. *)
Inductive Positioned : list string -> RawObject -> Prop :=
| Positioned_level (q : list string) (o : RawObject) :
    (forall k node, In (k, node) o ->
                    r_name node = k /\ r_path node = join "/" (q ++ [k])) ->
    (forall k node below,
        In (k, node) o -> r_children node = Some below ->
        Positioned (q ++ [k]) below) ->
    Positioned q o.

Arguments Positioned_level : clear implicits.

(** The stripped path of the file entry [e1] is a proper beginning of
    the stripped path of [e2]: [e2] needs a folder where [e1] puts a
    file. *)
Definition fileAbove (commonPrefix : string) (e1 e2 : ZipEntry) : Prop :=
  isDirectory e1 = false
  /\ cleanParts commonPrefix e1 <> []
  /\ exists t, t <> []
               /\ cleanParts commonPrefix e2 = cleanParts commonPrefix e1 ++ t.

(** The number of line feeds of a text. *)
Fixpoint countLF (s : string) : nat :=
  match s with
  | EmptyString => 0
  | String c s' => (if Ascii.eqb c "010" then 1 else 0) + countLF s'
  end.

(** The nodes of [scenarioTree], one by one. *)
Definition scenarioA : FileTreeNode :=
  mkNode "a.py" "src/a.py" file (Some 9%Z) (Some ".py") None.

Definition scenarioB : FileTreeNode :=
  mkNode "b.txt" "src/b.txt" file (Some 0%Z) (Some ".txt") None.

Definition scenarioSrc : FileTreeNode :=
  mkNode "src" "src" folder None None (Some [scenarioA; scenarioB]).

(** The name of a value of the map is a segment of a retained entry. *)
Definition namedAfter (commonPrefix : string) (valid : list ZipEntry)
           (r : RawNode) : Prop :=
  exists e, In e valid /\ In (r_name r) (cleanParts commonPrefix e).

(** One line per node, for a node whose names hold no line feed. *)
Definition oneLineEach (node : FileTreeNode) : Prop :=
  (forall n, Occurs n [node] -> countLF (name n) = 0) ->
  forall prefix isLastItem,
    countLF prefix = 0 ->
    countLF (renderNode node prefix isLastItem)
    = countType file node + countType folder node.

(* ===================================================================== *)
(** ** The in-memory storage *)
(* ===================================================================== *)

(** [Map<number, V>] on integer keys: the entries in insertion order.
    [set] on a key that is present replaces the value where it stands;
    on a new key it adds the entry at the end. *)
Module JsMap.

Section Ops.

Variable V : Type.

Definition t : Type := list (Z * V).

Fixpoint get (m : t) (k : Z) : option V :=
  match m with
  | [] => None
  | (k', v) :: m' => if (k' =? k)%Z then Some v else get m' k
  end.

Fixpoint set (m : t) (k : Z) (v : V) : t :=
  match m with
  | [] => [(k, v)]
  | (k', v') :: m' =>
      if (k' =? k)%Z then (k', v) :: m' else (k', v') :: set m' k v
  end.

Definition values (m : t) : list V := map snd m.

Definition keys (m : t) : list Z := map fst m.

End Ops.

End JsMap.

(** The largest counter value that [++] still moves: the numbers are
    doubles, [2^53 + 1] rounds back to [2^53]. *)
Definition MAX_COUNTER : Z := 2 ^ 53.

(** [n + 1] on a counter between [1] and [2^53]. *)
Definition increment (n : Z) : Z :=
  if (n <? MAX_COUNTER)%Z then (n + 1)%Z else n.

(** [new Date()]: the reading of the clock, in milliseconds. *)
Definition Date : Type := Z.

Record InsertUpload : Type := mkInsertUpload {
  filename : string;
  originalName : string;
  fileSize : Z;
  mimeType : string
}.

(** [{ ...insertUpload, id, uploadedAt }] *)
Record Upload : Type := mkUpload {
  upload_fields : InsertUpload;
  upload_id : Z;
  uploadedAt : Date
}.

Module MemStorage.

Section Storage.

(** The columns [fileTree], [formattedContent] and [stats]: the class
    copies them and never reads them. *)
Variable Columns : Type.

Record InsertProcessedFile : Type := mkInsertProcessedFile {
  uploadId : Z;
  columns : Columns
}.

(** [{ ...insertProcessedFile, id, processedAt }] *)
Record ProcessedFile : Type := mkProcessedFile {
  processed_fields : InsertProcessedFile;
  processed_id : Z;
  processedAt : Date
}.

Record t : Type := mkStorage {
  uploads : JsMap.t Upload;
  processedFiles : JsMap.t ProcessedFile;
  currentUploadId : Z;
  currentProcessedId : Z
}.

(** [constructor()] *)
Definition new : t := mkStorage [] [] 1 1.

Definition createUpload (this : t) (insertUpload : InsertUpload) (now : Date)
  : Upload * t :=
  let id := currentUploadId this in
  let upload := mkUpload insertUpload id now in
  (upload,
   mkStorage (JsMap.set (uploads this) id upload) (processedFiles this)
             (increment id) (currentProcessedId this)).

Definition getUpload (this : t) (id : Z) : option Upload :=
  JsMap.get (uploads this) id.

Definition createProcessedFile (this : t)
           (insertProcessedFile : InsertProcessedFile) (now : Date)
  : ProcessedFile * t :=
  let id := currentProcessedId this in
  let processedFile := mkProcessedFile insertProcessedFile id now in
  (processedFile,
   mkStorage (uploads this)
             (JsMap.set (processedFiles this) id processedFile)
             (currentUploadId this) (increment id)).

Definition getProcessedFile (this : t) (id : Z) : option ProcessedFile :=
  find (fun file => (uploadId (processed_fields file) =? id)%Z)
       (JsMap.values (processedFiles this)).

(** The states of the store: the new one and what the two creating
    methods make of a state, whatever they are given. *)
Inductive Reachable : t -> Prop :=
| Reachable_new : Reachable new
| Reachable_upload (this : t) (insertUpload : InsertUpload) (now : Date) :
    Reachable this ->
    Reachable (snd (createUpload this insertUpload now))
| Reachable_processed (this : t) (insertProcessedFile : InsertProcessedFile)
                      (now : Date) :
    Reachable this ->
    Reachable (snd (createProcessedFile this insertProcessedFile now)).

End Storage.

End MemStorage.

(** A map filled by a counter: the keys are the identifiers of the values
    and lie in increasing order from [1] up to the counter, each below
    it as long as the counter still moves, and none is missing. *)
Definition CountedMap (V : Type) (idOf : V -> Z) (m : JsMap.t V)
           (counter : Z) : Prop :=
  (1 <= counter <= MAX_COUNTER)%Z
  /\ StronglySorted Z.lt (JsMap.keys m)
  /\ (forall k v, In (k, v) m ->
                  idOf v = k /\ (1 <= k <= counter)%Z
                  /\ (k = counter -> counter = MAX_COUNTER))
  /\ (forall k, (1 <= k < counter)%Z -> JsMap.get m k <> None).

(** A store for the examples: one upload and two processed records of
    it. *)
Definition exampleUpload : InsertUpload :=
  mkInsertUpload "3f2a" "project.zip" 2048%Z "application/zip".

Definition exampleOutput (text : string) : ProcessedOutput :=
  mkOutput [] text (mkStats 0%Z 0%Z 0%Z).

Definition exampleStore : MemStorage.t ProcessedOutput :=
  let s1 := snd (MemStorage.createUpload (MemStorage.new ProcessedOutput)
                                         exampleUpload 10%Z) in
  let s2 := snd (MemStorage.createProcessedFile
                   s1 (MemStorage.mkInsertProcessedFile
                         1%Z (exampleOutput "first")) 20%Z) in
  snd (MemStorage.createProcessedFile
         s2 (MemStorage.mkInsertProcessedFile 1%Z (exampleOutput "second"))
         30%Z).

(* ===================================================================== *)
(** ** The tree panel of the client *)
(* ===================================================================== *)

(** [Set<string>]: the members in insertion order, none twice. *)
Module JsSet.

Definition t : Type := list string.

Definition add (set : t) (s : string) : t :=
  if has set s then set else set ++ [s].

Definition delete (set : t) (s : string) : t :=
  filter (fun x => negb (String.eqb s x)) set.

End JsSet.

(** The component [FileTree]: its state [expandedNodes] is passed to the
    functions that read it, and the functions that end in
    [setExpandedNodes] return the new state. *)
Module FileTree.

Definition toggleNode (expandedNodes : JsSet.t) (path : string) : JsSet.t :=
  if has expandedNodes path
  then JsSet.delete expandedNodes path
  else JsSet.add expandedNodes path.

(** One round of the [forEach] of [collectPaths]. *)
Fixpoint collectNode (node : FileTreeNode) (allPaths : JsSet.t)
         {struct node} : JsSet.t :=
  match type node, children node with
  | folder, Some kids =>
      (fix walk (nodes : list FileTreeNode) (acc : JsSet.t) : JsSet.t :=
         match nodes with
         | [] => acc
         | child :: nodes' => walk nodes' (collectNode child acc)
         end) kids (JsSet.add allPaths (path node))
  | _, _ => allPaths
  end.

Fixpoint collectPaths (nodes : list FileTreeNode) (allPaths : JsSet.t)
  : JsSet.t :=
  match nodes with
  | [] => allPaths
  | node :: nodes' => collectPaths nodes' (collectNode node allPaths)
  end.

Definition expandAll (fileTree : list FileTreeNode) : JsSet.t :=
  collectPaths fileTree [].

Definition collapseAll : JsSet.t := [].

(** The rows [renderTreeNode] puts on the page for a node, from top to
    bottom: the node with its level, then the rows of its children when
    it is an expanded folder that has some. *)
Fixpoint renderTreeNode (expandedNodes : JsSet.t) (node : FileTreeNode)
         (level : nat) {struct node} : list (FileTreeNode * nat) :=
  let isExpanded := has expandedNodes (path node) in
  (node, level)
    :: match type node, children node with
       | folder, Some kids =>
           if (0 <? List.length kids)%nat && isExpanded
           then flat_map (fun child =>
                            renderTreeNode expandedNodes child (level + 1))
                         kids
           else []
       | _, _ => []
       end.

(** [fileTree.map(node => renderTreeNode(node))] *)
Definition render (expandedNodes : JsSet.t) (fileTree : list FileTreeNode)
  : list (FileTreeNode * nat) :=
  flat_map (fun node => renderTreeNode expandedNodes node 0) fileTree.

End FileTree.

(** The nodes of a tree, a node before its children. *)
Fixpoint nodesOf (node : FileTreeNode) : list FileTreeNode :=
  node :: match children node with
          | Some kids => flat_map nodesOf kids
          | None => []
          end.

(** Every folder below [node] that has a [children] field is in the set
    [collectNode] returns. *)
Definition collectsFolders (node : FileTreeNode) : Prop :=
  (forall m, In m (nodesOf node) -> typedNode m) ->
  forall acc m,
    In m (nodesOf node) -> type m = folder ->
    has (FileTree.collectNode node acc) (path m) = true.

(** With the paths of all folders in the set, the rows of a node are its
    nodes. *)
Definition rendersAll (node : FileTreeNode) : Prop :=
  forall expandedNodes level,
    (forall m, In m (nodesOf node) -> typedNode m) ->
    (forall m, In m (nodesOf node) -> type m = folder ->
               has expandedNodes (path m) = true) ->
    map fst (FileTree.renderTreeNode expandedNodes node level)
    = nodesOf node.

(** The stripped path of [e] lies below the path [p], not at it. *)
Definition liesProperlyBelow (commonPrefix p : string) (e : ZipEntry)
  : Prop :=
  exists t, t <> [] /\ cleanParts commonPrefix e = split "/" p ++ t.

(** Going down from the map [o] by the segments [ps], each an own key
    and each but the last with a [children] object, ends at the value
    [r]. *)
Inductive ReachesNode : list string -> RawObject -> RawNode -> Prop :=
| Reaches_last (p : string) (o : RawObject) (r : RawNode) :
    JsObject.getOwn o p = Some r -> ReachesNode [p] o r
| Reaches_step (p : string) (ps : list string) (o : RawObject)
               (m : RawNode) (below : RawObject) (r : RawNode) :
    JsObject.getOwn o p = Some m -> r_children m = Some below ->
    ReachesNode ps below r ->
    ReachesNode (p :: ps) o r.

Arguments Reaches_last : clear implicits.
Arguments Reaches_step : clear implicits.

Unset Implicit Arguments.

(** Structural induction on a tree node, its children taken as a
    list. *)
Section TreeInduction.

Variable P : FileTreeNode -> Prop.

Hypothesis leaf : forall n p t s e, P (mkNode n p t s e None).

Hypothesis inner :
  forall n p t s e kids, Forall P kids -> P (mkNode n p t s e (Some kids)).

Fixpoint FileTreeNode_induction (node : FileTreeNode) : P node :=
  match node with
  | mkNode n p t s e None => leaf n p t s e
  | mkNode n p t s e (Some kids) =>
      inner n p t s e kids
        ((fix all (l : list FileTreeNode) : Forall P l :=
            match l with
            | [] => Forall_nil P
            | k :: l' => Forall_cons k (FileTreeNode_induction k) (all l')
            end) kids)
  end.

End TreeInduction.

(* ===================================================================== *)
(** * Properties *)
(* ===================================================================== *)

(* ===================================================================== *)
(** ** Strings *)
(* ===================================================================== *)

Section StringFacts.

Lemma append_assoc (a b c : string) :
  ((a ++ b) ++ c)%string = (a ++ b ++ c)%string.
Proof. induction a; simpl; congruence. Qed.

Lemma append_nil_r (a : string) : (a ++ "")%string = a.
Proof. induction a; simpl; congruence. Qed.

Lemma length_append (a b : string) :
  String.length (a ++ b) = String.length a + String.length b.
Proof. induction a; simpl; congruence. Qed.

(** The case mapping beyond the ASCII letters: the Kelvin sign goes to
    [k], an accented capital to its small letter, a capital sigma at the
    end of a word to the final sigma, and the dotted capital I to [i]
    with a combining dot. *)
Lemma toLowerCase_samples :
  toLowerCase "README.Md" = "readme.md"
  /\ toLowerCase "K" = "k"
  /\ toLowerCase "ÉCOLE" = "école"
  /\ toLowerCase "ΟΔΟΣ" = "οδος"
  /\ toLowerCase "ΣΑ" = "σα"
  /\ toLowerCase "İ" = "i̇".
Proof. repeat (split; [vm_compute; reflexivity|]). vm_compute. reflexivity. Qed.

Lemma startsWith_empty (s : string) : startsWith s EmptyString = true.
Proof. destruct s; reflexivity. Qed.

Lemma startsWith_head (d c : ascii) (s p : string) :
  startsWith (String d s) (String c p) = true -> d = c.
Proof.
  simpl. intros H. apply andb_true_iff in H as [H _].
  now apply Ascii.eqb_eq.
Qed.

Lemma startsWith_app (p t : string) : startsWith (p ++ t) p = true.
Proof.
  induction p as [|c p IH]; simpl.
  - reflexivity.
  - rewrite Ascii.eqb_refl, IH. reflexivity.
Qed.

Lemma startsWith_split (s p : string) :
  startsWith s p = true -> s = (p ++ substringFrom (String.length p) s)%string.
Proof.
  revert s; induction p as [|c p IH]; intros s H; simpl in *.
  - reflexivity.
  - destruct s as [|d s]; [discriminate|].
    apply andb_true_iff in H as [Hc Hs].
    apply Ascii.eqb_eq in Hc; subst d.
    f_equal. apply IH, Hs.
Qed.

Lemma substringTo_app (p t : string) :
  substringTo (String.length p) (p ++ t) = p.
Proof. induction p; simpl; [destruct t|]; congruence. Qed.

Lemma indexOf_ge (s : string) (c : ascii) : (-1 <= indexOf s c)%Z.
Proof.
  induction s as [|d s IH]; simpl; [lia|].
  destruct (Ascii.eqb d c); [lia|].
  destruct (Z.ltb_spec (indexOf s c) 0); lia.
Qed.

(** The position of the first slash of [seg ++ "/" ++ t] when [seg] has
    none. *)
Lemma indexOf_after (seg t : string) :
  noSlash seg ->
  indexOf (seg ++ "/" ++ t) "/" = Z.of_nat (String.length seg).
Proof.
  unfold noSlash.
  induction seg as [|d seg IH]; intros H.
  - reflexivity.
  - cbn [append indexOf String.length] in *.
    destruct (Ascii.eqb d "/") eqn:E; [discriminate|].
    destruct (Z.ltb_spec (indexOf seg "/") 0) as [Hlt|Hge].
    + assert (indexOf seg "/" = (-1)%Z) as Hm
          by (pose proof (indexOf_ge seg "/"); lia).
      rewrite (IH Hm).
      destruct (Z.ltb_spec (Z.of_nat (String.length seg)) 0); lia.
    + lia.
Qed.

(** Cutting a string at its first occurrence of [c]. *)
Lemma indexOf_cut (s : string) (c : ascii) :
  (0 <= indexOf s c)%Z ->
  let seg := substringTo (Z.to_nat (indexOf s c)) s in
  indexOf seg c = (-1)%Z
  /\ String.length seg = Z.to_nat (indexOf s c)
  /\ substringTo (Z.to_nat (indexOf s c + 1)) s
     = (seg ++ String c EmptyString)%string.
Proof.
  induction s as [|d s IH]; cbn [indexOf]; intros H.
  - lia.
  - destruct (Ascii.eqb d c) eqn:E.
    + apply Ascii.eqb_eq in E; subst d. cbn. auto.
    + destruct (Z.ltb_spec (indexOf s c) 0) as [Hlt|Hge]; [lia|].
      specialize (IH Hge). cbv zeta in IH. destruct IH as (I1 & I2 & I3).
      assert (Z.to_nat (indexOf s c + 1) = S (Z.to_nat (indexOf s c)))
        as E1 by lia.
      assert (Z.to_nat (indexOf s c + 1 + 1) = S (Z.to_nat (indexOf s c + 1)))
        as E2 by lia.
      cbv zeta. rewrite E2, E1.
      change (substringTo (S (S (Z.to_nat (indexOf s c)))) (String d s))
        with (String d (substringTo (S (Z.to_nat (indexOf s c))) s)).
      change (substringTo (S (Z.to_nat (indexOf s c))) (String d s))
        with (String d (substringTo (Z.to_nat (indexOf s c)) s)).
      rewrite <- E1, I3.
      cbn [indexOf String.length append].
      rewrite E, I1, I2. cbn. auto.
Qed.

End StringFacts.

(* ===================================================================== *)
(** ** The common prefix *)
(* ===================================================================== *)

Section CommonPrefix.

Lemma detect_shared (l : list ZipEntry) (seg : string) :
  l <> [] -> sharesTopFolder l seg ->
  detectCommonPrefix l = (seg ++ "/")%string.
Proof.
  intros Hne (Hseg & Hns & Hall).
  destruct l as [|first rest]; [congruence|].
  unfold detectCommonPrefix.
  pose proof (Forall_inv Hall) as Hfirst. cbv beta in Hfirst.
  apply startsWith_split in Hfirst.
  set (t := substringFrom (String.length (seg ++ "/")) (entryName first)) in *.
  assert (entryName first = (seg ++ "/" ++ t)%string) as Hn
      by (rewrite Hfirst at 1; apply append_assoc).
  assert (indexOf (entryName first) "/" = Z.of_nat (String.length seg)) as Hi
      by (rewrite Hn; apply indexOf_after, Hns).
  rewrite Hi.
  assert (0 < String.length seg)%nat as Hpos
      by (destruct seg; [congruence | simpl; lia]).
  destruct (Z.gtb_spec (Z.of_nat (String.length seg)) 0); [|lia].
  assert (substringTo (Z.to_nat (Z.of_nat (String.length seg) + 1))
                      (entryName first) = (seg ++ "/")%string) as Hp.
  { rewrite Hfirst at 1.
    replace (Z.to_nat (Z.of_nat (String.length seg) + 1))
      with (String.length (seg ++ "/")).
    - apply substringTo_app.
    - rewrite length_append. simpl. lia. }
  rewrite Hp.
  replace (forallb _ _) with true; [reflexivity|].
  symmetry. apply forallb_forall. intros e He.
  rewrite Forall_forall in Hall. apply Hall, He.
Qed.

Lemma detect_nonempty (l : list ZipEntry) :
  detectCommonPrefix l <> EmptyString ->
  l <> [] /\ exists seg, sharesTopFolder l seg
                         /\ detectCommonPrefix l = (seg ++ "/")%string.
Proof.
  destruct l as [|first rest]; [intros H; exfalso; apply H; reflexivity|].
  unfold detectCommonPrefix.
  destruct (Z.gtb_spec (indexOf (entryName first) "/") 0) as [Hpos|Hle];
    [|intros Hx; exfalso; apply Hx; reflexivity].
  destruct (forallb _ _) eqn:Hall;
    [|intros Hx; exfalso; apply Hx; reflexivity].
  intros _. split; [discriminate|].
  destruct (indexOf_cut (entryName first) "/" ltac:(lia)) as (C1 & C2 & C3).
  exists (substringTo (Z.to_nat (indexOf (entryName first) "/"))
                      (entryName first)).
  rewrite C3 in *. split; [|reflexivity].
  split; [|split].
  - intros E. rewrite E in C2. simpl in C2. lia.
  - exact C1.
  - apply Forall_forall. intros e He.
    rewrite forallb_forall in Hall. apply Hall, He.
Qed.

Lemma sharesTopFolder_incl (l l' : list ZipEntry) (seg : string) :
  incl l' l -> sharesTopFolder l seg -> sharesTopFolder l' seg.
Proof.
  intros Hin (A & B & C). repeat split; auto.
  rewrite Forall_forall in *. auto.
Qed.

(** The detected prefix depends on the set of the entries only. *)
Lemma detect_same_members (l l' : list ZipEntry) :
  incl l l' -> incl l' l -> detectCommonPrefix l = detectCommonPrefix l'.
Proof.
  intros H1 H2.
  assert (l = [] <-> l' = []) as Hnil.
  { split; intros ->.
    - destruct l' as [|x ?]; [reflexivity|]. destruct (H2 x (or_introl eq_refl)).
    - destruct l as [|x ?]; [reflexivity|]. destruct (H1 x (or_introl eq_refl)). }
  destruct (string_dec (detectCommonPrefix l) EmptyString) as [E|N].
  - destruct (string_dec (detectCommonPrefix l') EmptyString) as [E'|N'];
      [congruence|].
    destruct (detect_nonempty _ N') as (Hne & seg & Hs & Hd).
    assert (l <> []) as Hne' by tauto.
    rewrite (detect_shared _ _ Hne' (sharesTopFolder_incl _ _ _ H1 Hs)) in E.
    destruct seg; discriminate.
  - destruct (detect_nonempty _ N) as (Hne & seg & Hs & Hd).
    assert (l' <> []) as Hne' by tauto.
    rewrite (detect_shared _ _ Hne' (sharesTopFolder_incl _ _ _ H2 Hs)).
    exact Hd.
Qed.

End CommonPrefix.

(* ===================================================================== *)
(** ** Sorting *)
(* ===================================================================== *)

Section Sorting.

Variable localeCompare : string -> string -> comparison.

Lemma insertSorted_perm (e : ZipEntry) (l : list ZipEntry) :
  Permutation (insertSorted localeCompare e l) (e :: l).
Proof.
  induction l as [|x l IH]; simpl.
  - apply Permutation_refl.
  - destruct (localeCompare (entryName e) (entryName x)).
    + rewrite IH. apply perm_swap.
    + apply Permutation_refl.
    + rewrite IH. apply perm_swap.
Qed.

Lemma sortInto_perm (l acc : list ZipEntry) :
  Permutation
    (fold_left (fun sorted entry => insertSorted localeCompare entry sorted)
               l acc)
    (l ++ acc).
Proof.
  revert acc; induction l as [|x l IH]; intros acc; simpl.
  - apply Permutation_refl.
  - rewrite IH, insertSorted_perm. symmetry. apply Permutation_middle.
Qed.

Lemma sortByName_perm (l : list ZipEntry) :
  Permutation (sortByName localeCompare l) l.
Proof.
  unfold sortByName. rewrite sortInto_perm, app_nil_r.
  apply Permutation_refl.
Qed.

Lemma validEntries_In (entries : list ZipEntry) (e : ZipEntry) :
  In e (validEntries localeCompare entries)
  <-> In e entries /\ shouldIgnore (entryName e) = false.
Proof.
  unfold validEntries. split.
  - intros H. apply (Permutation_in _ (sortByName_perm _)) in H.
    apply filter_In in H as [H1 H2]. split; [exact H1|].
    now apply negb_true_iff in H2.
  - intros [H1 H2].
    apply (Permutation_in _ (Permutation_sym (sortByName_perm _))).
    apply filter_In. split; [exact H1|]. now apply negb_true_iff.
Qed.

End Sorting.

(* ===================================================================== *)
(** ** The two computations of the common prefix *)
(* ===================================================================== *)

Section TwoPrefixes.

Variable localeCompare : string -> string -> comparison.

(** [buildFileTree] strips [treePrefix], the route looks up with
    [lookupPrefix]. *)
Lemma buildFileTree_prefix (entries : list ZipEntry) :
  buildFileTree localeCompare entries
  = (root <- insertEntries (treePrefix localeCompare entries)
                           (validEntries localeCompare entries) [] ;;
     Normal (convertToArray root)).
Proof. reflexivity. Qed.

Lemma processUpload_prefix (entries : list ZipEntry) :
  processUpload localeCompare entries
  = (fileTree <- buildFileTree localeCompare entries ;;
     let st := processNodes entries fileTree (lookupPrefix entries)
                            (mkLocals (documentHead fileTree) 0 0 0) in
     Normal (mkOutput fileTree (l_formattedContent st)
                      (mkStats (l_totalFiles st) (l_totalFolders st)
                               (l_linesOfCode st)))).
Proof. reflexivity. Qed.

(** C4, as stated, fails: with one hidden entry ahead of [src/a.js] the
    tree is built with the prefix [src/] while the route looks contents
    up with the empty prefix. *)
Lemma prefixes_differ :
  let entries := [fileEntry ".github/w.yml" "on: push";
                  fileEntry "src/a.js" "let a"] in
  treePrefix byteCompare entries = "src/"
  /\ lookupPrefix entries = EmptyString
  /\ treePrefix byteCompare entries <> lookupPrefix entries.
Proof. cbv zeta. repeat split; try reflexivity. vm_compute. discriminate. Qed.

(** C4, amended: the prefix is computed twice by the same rule, by
    [buildFileTree] on the filtered and sorted entries and by the route on
    all the entries; the two values are the same when the ignore filter
    removes no entry, and also when the route's prefix is not empty and
    some entry survives the filter. *)
Theorem prefixes_agree (entries : list ZipEntry) :
  (forall e, In e entries -> shouldIgnore (entryName e) = false)
  \/ (lookupPrefix entries <> EmptyString
      /\ validEntries localeCompare entries <> []) ->
  treePrefix localeCompare entries = lookupPrefix entries.
Proof.
  unfold treePrefix, lookupPrefix. intros [Hall | [Hne Hv]].
  - apply detect_same_members; intros e He.
    + apply validEntries_In in He. tauto.
    + apply validEntries_In. auto.
  - destruct (detect_nonempty _ Hne) as (_ & seg & Hs & Hd).
    rewrite Hd. apply detect_shared; [exact Hv|].
    apply (sharesTopFolder_incl entries); [|exact Hs].
    intros e He. apply validEntries_In in He. tauto.
Qed.

End TwoPrefixes.

Lemma prefixes_agree_witness :
  let entries := [fileEntry "proj/src/a.py" "print(1)";
                  fileEntry "proj/node_modules/x.js" "x"] in
  treePrefix byteCompare entries = lookupPrefix entries.
Proof.
  cbv zeta. apply prefixes_agree. right. split; vm_compute; discriminate.
Defined.

(* ===================================================================== *)
(** ** Stripping twice *)
(* ===================================================================== *)

Section Idempotence.

(** C9, as stated, fails in its second half: the paths left by one
    application still share the folder [b], and a second application
    strips it. *)
Lemma restrip_strips_further :
  let l := [fileEntry "a/b/c.txt" "c"; fileEntry "a/b/d.txt" "d"] in
  detectCommonPrefix l = "a/"
  /\ map entryName (stripAll l) = ["b/c.txt"; "b/d.txt"]
  /\ detectCommonPrefix (stripAll l) = "b/"
  /\ map entryName (stripAll (stripAll l)) = ["c.txt"; "d.txt"].
Proof. cbv zeta. repeat split; reflexivity. Qed.

Lemma stripAll_nil_iff (l : list ZipEntry) : stripAll l = [] <-> l = [].
Proof.
  unfold stripAll. destruct l; simpl; split; intros H;
    try reflexivity; discriminate.
Qed.

Lemma startsWith_cancel (p t u : string) :
  startsWith (p ++ t) (p ++ u) = startsWith t u.
Proof.
  induction p as [|c p IH]; [reflexivity|].
  cbn [append startsWith]. now rewrite Ascii.eqb_refl.
Qed.

Lemma cleanPath_shared (seg : string) (e : ZipEntry) :
  startsWith (entryName e) (seg ++ "/") = true ->
  entryName e = (seg ++ "/" ++ cleanPath (seg ++ "/") e)%string.
Proof.
  intros H. unfold cleanPath. rewrite H.
  rewrite <- append_assoc. apply startsWith_split, H.
Qed.

Lemma stripAll_names (l : list ZipEntry) :
  map entryName (stripAll l)
  = map (cleanPath (detectCommonPrefix l)) l.
Proof. unfold stripAll. rewrite map_map. reflexivity. Qed.

Lemma sharesTopFolder_names (l l' : list ZipEntry) (seg : string) :
  map entryName l = map entryName l' ->
  sharesTopFolder l seg -> sharesTopFolder l' seg.
Proof.
  intros E (H1 & H2 & H3). repeat split; [exact H1 | exact H2 |].
  apply (Forall_map entryName
                    (fun n => startsWith n (seg ++ "/") = true)) in H3.
  apply (Forall_map entryName
                    (fun n => startsWith n (seg ++ "/") = true)).
  now rewrite <- E.
Qed.

(** C9, amended: with no shared top-level folder the detected prefix is
    empty, stripping changes no path, and a second application detects
    nothing either.  With a shared top-level folder one application
    strips this one folder: every path is the folder, a slash and its
    stripped path.  A second application on the stripped paths detects a
    prefix again exactly when these still share a top-level folder, that
    is, when the paths of the archive share two levels; this folder is
    then the prefix. *)
Theorem strip_one_level (l : list ZipEntry) :
  ((forall seg, ~ sharesTopFolder l seg) ->
     detectCommonPrefix l = EmptyString
     /\ map entryName (stripAll l) = map entryName l
     /\ detectCommonPrefix (stripAll l) = EmptyString)
  /\ (forall seg, l <> [] -> sharesTopFolder l seg ->
        detectCommonPrefix l = (seg ++ "/")%string
        /\ map entryName l
           = map (fun e' => (seg ++ "/" ++ entryName e')%string) (stripAll l)
        /\ (forall seg2,
              sharesTopFolder (stripAll l) seg2
              <-> seg2 <> EmptyString /\ noSlash seg2
                  /\ Forall (fun e => startsWith (entryName e)
                                                  (seg ++ "/" ++ seg2 ++ "/")
                                       = true) l))
  /\ (detectCommonPrefix (stripAll l) <> EmptyString
      <-> l <> [] /\ exists seg, sharesTopFolder (stripAll l) seg)
  /\ (forall seg, l <> [] -> sharesTopFolder (stripAll l) seg ->
        detectCommonPrefix (stripAll l) = (seg ++ "/")%string).
Proof.
  split; [|split; [|split]].
  - intros Hno.
    assert (detectCommonPrefix l = EmptyString) as E.
    { destruct (string_dec (detectCommonPrefix l) EmptyString) as [E|N];
        [exact E|].
      destruct (detect_nonempty _ N) as (_ & seg & Hs & _).
      destruct (Hno seg Hs). }
    assert (map entryName (stripAll l) = map entryName l) as Hsame.
    { unfold stripAll. rewrite E, map_map. apply map_ext.
      intros e. unfold renamed, cleanPath. simpl. reflexivity. }
    split; [exact E|]. split; [exact Hsame|].
    destruct (string_dec (detectCommonPrefix (stripAll l)) EmptyString)
      as [E'|N]; [exact E'|].
    destruct (detect_nonempty _ N) as (_ & seg & Hs & _).
    destruct (Hno seg (sharesTopFolder_names _ _ seg Hsame Hs)).
  - intros seg Hne Hs.
    pose proof (detect_shared l seg Hne Hs) as E.
    pose proof Hs as (_ & _ & Hall). rewrite Forall_forall in Hall.
    split; [exact E|]. split.
    + unfold stripAll. rewrite E, map_map. apply map_ext_in.
      intros e He. cbn [renamed entryName].
      apply cleanPath_shared, Hall, He.
    + intros seg2. unfold sharesTopFolder at 1.
      assert (Forall (fun e' => startsWith (entryName e') (seg2 ++ "/")
                                = true) (stripAll l)
              <-> Forall (fun e => startsWith (entryName e)
                                              (seg ++ "/" ++ seg2 ++ "/")
                                   = true) l) as Hiff.
      { unfold stripAll. rewrite E, Forall_map, !Forall_forall.
        split; intros H e He; specialize (H e He);
          cbn [renamed entryName] in *.
        - rewrite (cleanPath_shared seg e (Hall e He)).
          change (seg ++ "/" ++ cleanPath (seg ++ "/") e)%string
            with (seg ++ ("/" ++ cleanPath (seg ++ "/") e))%string.
          change (seg ++ "/" ++ seg2 ++ "/")%string
            with (seg ++ ("/" ++ (seg2 ++ "/")))%string.
          rewrite startsWith_cancel.
          change ("/" ++ cleanPath (seg ++ "/") e)%string
            with (String "/" (cleanPath (seg ++ "/") e)).
          change ("/" ++ (seg2 ++ "/"))%string
            with (String "/" (seg2 ++ "/")).
          cbn [startsWith]. rewrite Ascii.eqb_refl. exact H.
        - rewrite (cleanPath_shared seg e (Hall e He)) in H.
          change (seg ++ "/" ++ cleanPath (seg ++ "/") e)%string
            with (seg ++ ("/" ++ cleanPath (seg ++ "/") e))%string in H.
          change (seg ++ "/" ++ seg2 ++ "/")%string
            with (seg ++ ("/" ++ (seg2 ++ "/")))%string in H.
          rewrite startsWith_cancel in H.
          change ("/" ++ cleanPath (seg ++ "/") e)%string
            with (String "/" (cleanPath (seg ++ "/") e)) in H.
          change ("/" ++ (seg2 ++ "/"))%string
            with (String "/" (seg2 ++ "/")) in H.
          cbn [startsWith] in H. rewrite Ascii.eqb_refl in H. exact H. }
      rewrite Hiff. reflexivity.
  - split.
    + intros N. destruct (detect_nonempty _ N) as (Hne & seg & Hs & _).
      split; [|eauto]. intros ->. apply Hne. reflexivity.
    + intros (Hne & seg & Hs).
      rewrite (detect_shared _ seg); [destruct seg; discriminate| |exact Hs].
      intros E. apply (proj1 (stripAll_nil_iff _)) in E. auto.
  - intros seg Hne Hs. apply detect_shared; [|exact Hs].
    intros E. apply (proj1 (stripAll_nil_iff _)) in E. auto.
Qed.

End Idempotence.

Lemma strip_one_level_witness :
  let l := [fileEntry "a/x.md" "x"; fileEntry "b/y.md" "y"] in
  let l' := [fileEntry "a/b/c.txt" "c"; fileEntry "a/b/d.txt" "d"] in
  (detectCommonPrefix l = EmptyString
   /\ map entryName (stripAll l) = map entryName l
   /\ detectCommonPrefix (stripAll l) = EmptyString)
  /\ (l' <> [] /\ sharesTopFolder l' "a")
  /\ (detectCommonPrefix l' = "a/"
      /\ map entryName l'
         = map (fun e' => ("a" ++ "/" ++ entryName e')%string) (stripAll l')
      /\ sharesTopFolder (stripAll l') "b")
  /\ detectCommonPrefix (stripAll l') = "b/".
Proof.
  cbv zeta.
  assert (sharesTopFolder [fileEntry "a/b/c.txt" "c";
                           fileEntry "a/b/d.txt" "d"] "a") as Ha
      by (repeat split; [discriminate | repeat constructor]).
  destruct (strip_one_level [fileEntry "a/b/c.txt" "c";
                             fileEntry "a/b/d.txt" "d"])
    as (_ & Hone & _ & Hagain).
  destruct (Hone "a" ltac:(discriminate) Ha) as (H1 & H2 & H3).
  assert (sharesTopFolder
            (stripAll [fileEntry "a/b/c.txt" "c"; fileEntry "a/b/d.txt" "d"])
            "b") as Hb.
  { apply H3. repeat split; [discriminate | repeat constructor]. }
  split.
  { apply (proj1 (strip_one_level _)).
    intros seg (Hne & Hns & Hall).
    inversion Hall as [|? ? Hx Hrest]; subst.
    inversion Hrest as [|? ? Hy _]; subst.
    destruct seg as [|c seg]; [congruence|].
    apply startsWith_head in Hx, Hy. congruence. }
  split; [split; [discriminate | exact Ha]|].
  split; [split; [exact H1 | split; [exact H2 | exact Hb]]|].
  apply (Hagain "b" ltac:(discriminate) Hb).
Defined.

(* ===================================================================== *)
(** ** Enumeration order of an object *)
(* ===================================================================== *)

Section Enumeration.

Context {V W : Type}.

Lemma insertByIndex_perm (i : N) (kv : string * V)
      (l : list (N * (string * V))) :
  Permutation (JsObject.insertByIndex i kv l) ((i, kv) :: l).
Proof.
  induction l as [|[j kv'] l IH]; simpl.
  - apply Permutation_refl.
  - destruct (i <? j)%N; [apply Permutation_refl|].
    rewrite IH. apply perm_swap.
Qed.

Lemma indexed_perm (o : JsObject.t V) :
  Permutation (map snd (JsObject.indexed o))
              (filter (fun kv => JsObject.isArrayIndex (fst kv)) o).
Proof.
  induction o as [|kv o IH]; simpl.
  - apply Permutation_refl.
  - unfold JsObject.isArrayIndex.
    destruct (JsObject.arrayIndex (fst kv)) eqn:E.
    + rewrite insertByIndex_perm. simpl. apply perm_skip, IH.
    + exact IH.
Qed.

Lemma filter_split_perm (A : Type) (f : A -> bool) (l : list A) :
  Permutation (filter f l ++ filter (fun x => negb (f x)) l) l.
Proof.
  induction l as [|x l IH]; simpl.
  - apply Permutation_refl.
  - destruct (f x); simpl.
    + apply perm_skip, IH.
    + rewrite <- Permutation_middle. apply perm_skip, IH.
Qed.

(** [Object.entries] lists every own property once. *)
Lemma entries_perm (o : JsObject.t V) : Permutation (JsObject.entries o) o.
Proof.
  unfold JsObject.entries. rewrite indexed_perm.
  apply (filter_split_perm _ (fun kv => JsObject.isArrayIndex (fst kv))).
Qed.

Lemma values_perm (o : JsObject.t V) :
  Permutation (JsObject.values o) (map snd o).
Proof. unfold JsObject.values. apply Permutation_map, entries_perm. Qed.

(** Without array-index keys the enumeration order is the creation
    order. *)
Lemma entries_creation_order (o : JsObject.t V) :
  (forall kv, In kv o -> JsObject.isArrayIndex (fst kv) = false) ->
  JsObject.entries o = o.
Proof.
  intros H. unfold JsObject.entries.
  assert (JsObject.indexed o = []) as ->.
  { induction o as [|kv o IH]; simpl; [reflexivity|].
    pose proof (H kv (or_introl eq_refl)) as Hk.
    unfold JsObject.isArrayIndex in Hk.
    destruct (JsObject.arrayIndex (fst kv)); [discriminate|].
    apply IH. intros kv' Hin. apply H. right. exact Hin. }
  simpl. induction o as [|kv o IH]; simpl; [reflexivity|].
  rewrite (H kv (or_introl eq_refl)). simpl. f_equal.
  apply IH. intros kv' Hin. apply H. right. exact Hin.
Qed.

Variable f : V -> W.

Lemma insertByIndex_map (i : N) (kv : string * V)
      (l : list (N * (string * V))) :
  JsObject.insertByIndex i (fst kv, f (snd kv))
    (map (fun x => (fst x, (fst (snd x), f (snd (snd x))))) l)
  = map (fun x => (fst x, (fst (snd x), f (snd (snd x)))))
        (JsObject.insertByIndex i kv l).
Proof.
  induction l as [|[j kv'] l IH]; simpl; [reflexivity|].
  destruct (i <? j)%N; simpl; [reflexivity|]. now rewrite IH.
Qed.

Lemma indexed_mapValues (o : JsObject.t V) :
  JsObject.indexed (JsObject.mapValues f o)
  = map (fun x => (fst x, (fst (snd x), f (snd (snd x)))))
        (JsObject.indexed o).
Proof.
  induction o as [|kv o IH]; simpl; [reflexivity|].
  destruct (JsObject.arrayIndex (fst kv)); [|exact IH].
  rewrite IH. apply insertByIndex_map.
Qed.

Lemma entries_mapValues (o : JsObject.t V) :
  JsObject.entries (JsObject.mapValues f o)
  = JsObject.mapValues f (JsObject.entries o).
Proof.
  unfold JsObject.entries, JsObject.mapValues at 3.
  rewrite map_app, indexed_mapValues, !map_map. f_equal.
  unfold JsObject.mapValues.
  induction o as [|kv o IH]; simpl; [reflexivity|].
  destruct (JsObject.isArrayIndex (fst kv)); simpl; now rewrite IH.
Qed.

(** Mapping the values of an object and enumerating it commute. *)
Lemma values_mapValues (o : JsObject.t V) :
  JsObject.values (JsObject.mapValues f o) = map f (JsObject.values o).
Proof.
  unfold JsObject.values. rewrite entries_mapValues.
  unfold JsObject.mapValues. rewrite !map_map. reflexivity.
Qed.

End Enumeration.

(** [convertToArray] as the source writes it:
    [Object.values(node).map(item => ({...item, children: ...}))]. *)
Lemma convertToArray_values (node : RawObject) :
  convertToArray node = map convertItem (JsObject.values node).
Proof. apply values_mapValues. Qed.

Lemma convertItem_children (item : RawNode) :
  children (convertItem item)
  = match r_children item with
    | Some below => Some (convertToArray below)
    | None => None
    end.
Proof. destruct item as [n p t s e [below|]]; reflexivity. Qed.

(* ===================================================================== *)
(** ** The walk of [processNode] *)
(* ===================================================================== *)

Arguments block : simpl never.
Arguments splitLength : simpl never.
Arguments embedding : simpl never.
Arguments processFile : simpl never.

Section Walk.

Variable entries : list ZipEntry.
Variable commonPrefix : string.

Local Abbreviation walked := (walkedFrom entries commonPrefix).

Lemma blocks_app (l l' : list Embedded) :
  blocks (l ++ l') = (blocks l ++ blocks l')%string.
Proof.
  induction l as [|x l IH]; [reflexivity|].
  unfold blocks in *. cbn [app fold_right].
  rewrite IH. symmetry. apply append_assoc.
Qed.

Lemma sumZ_app (l l' : list Z) : sumZ (l ++ l') = (sumZ l + sumZ l')%Z.
Proof. induction l as [|x l IH]; simpl; lia. Qed.

(** What [processFile] does, by the cases of [embedding]. *)
Lemma processFile_spec (node : FileTreeNode) (st : Locals) :
  processFile entries node commonPrefix st
  = match embedding entries commonPrefix node with
    | Some x =>
        mkLocals (l_formattedContent st ++ block x)
                 (l_totalFiles st + 1) (l_totalFolders st)
                 (l_linesOfCode st + splitLength (e_content x))
    | None =>
        mkLocals (l_formattedContent st) (l_totalFiles st + 1)
                 (l_totalFolders st) (l_linesOfCode st)
    end.
Proof.
  unfold processFile, embedding, embedFile.
  destruct (has ALLOWED_EXTENSIONS _); [|reflexivity].
  destruct (findEntry _ _ _) as [entry|]; [|reflexivity].
  destruct (isDirectory entry); [reflexivity|]. simpl.
  destruct (getData entry) as [content|err]; [|reflexivity]. simpl.
  destruct (truthy (trim content)); reflexivity.
Qed.

Lemma processNodes_cons (k : FileTreeNode) (kids : list FileTreeNode)
      (st : Locals) :
  processNodes entries (k :: kids) commonPrefix st
  = processNodes entries kids commonPrefix
                 (processNode entries k commonPrefix st).
Proof. reflexivity. Qed.

Lemma embeddedFiles_cons (k : FileTreeNode) (kids : list FileTreeNode) :
  embeddedFiles entries commonPrefix (k :: kids)
  = embeddedIn entries commonPrefix k
    ++ embeddedFiles entries commonPrefix kids.
Proof. reflexivity. Qed.

Lemma embeddedFiles_one (k : FileTreeNode) :
  embeddedFiles entries commonPrefix [k] = embeddedIn entries commonPrefix k.
Proof. unfold embeddedFiles. simpl. apply app_nil_r. Qed.

Lemma processNode_file (n p : string) (s : option Z) (e : option string)
      (kids : option (list FileTreeNode)) (st : Locals) :
  processNode entries (mkNode n p file s e kids) commonPrefix st
  = processFile entries (mkNode n p file s e kids) commonPrefix st.
Proof. reflexivity. Qed.

Lemma processNode_folder (n p : string) (s : option Z) (e : option string)
      (kids : option (list FileTreeNode)) (st : Locals) :
  processNode entries (mkNode n p folder s e kids) commonPrefix st
  = let st1 := mkLocals (l_formattedContent st) (l_totalFiles st)
                        (l_totalFolders st + 1) (l_linesOfCode st) in
    match kids with
    | Some kids => processNodes entries kids commonPrefix st1
    | None => st1
    end.
Proof. destruct kids; reflexivity. Qed.

Lemma embeddedIn_file (n p : string) (s : option Z) (e : option string)
      (kids : option (list FileTreeNode)) :
  embeddedIn entries commonPrefix (mkNode n p file s e kids)
  = match embedding entries commonPrefix (mkNode n p file s e kids) with
    | Some x => [x]
    | None => []
    end.
Proof. reflexivity. Qed.

Lemma embeddedIn_folder (n p : string) (s : option Z) (e : option string)
      (kids : option (list FileTreeNode)) :
  embeddedIn entries commonPrefix (mkNode n p folder s e kids)
  = match kids with
    | Some kids => embeddedFiles entries commonPrefix kids
    | None => []
    end.
Proof. destruct kids; reflexivity. Qed.

Lemma walked_nil (st : Locals) : walked [] st st.
Proof.
  unfold walkedFrom, embeddedFiles. simpl. rewrite append_nil_r.
  split; [reflexivity | lia].
Qed.

Lemma walked_fold (kids : list FileTreeNode) :
  Forall (fun k => forall st,
              walked [k] st (processNode entries k commonPrefix st)) kids ->
  forall st, walked kids st (processNodes entries kids commonPrefix st).
Proof.
  induction 1 as [|k kids Hk _ IH]; intros st.
  - apply walked_nil.
  - rewrite processNodes_cons.
    destruct (IH (processNode entries k commonPrefix st)) as [I1 I2].
    destruct (Hk st) as [K1 K2]. rewrite embeddedFiles_one in K1, K2.
    unfold walkedFrom. rewrite embeddedFiles_cons, I1, I2, K1, K2.
    rewrite blocks_app, map_app, sumZ_app, append_assoc.
    split; [reflexivity|lia].
Qed.

Lemma walked_file (node : FileTreeNode) (st : Locals) :
  type node = file ->
  walked [node] st (processNode entries node commonPrefix st).
Proof.
  destruct node as [n p t s e kids]. cbn [type]. intros ->.
  unfold walkedFrom.
  rewrite embeddedFiles_one, processNode_file, embeddedIn_file,
    processFile_spec.
  destruct (embedding _ _ _); cbn [l_formattedContent l_linesOfCode];
    unfold blocks, sumZ; cbn [fold_right map];
    rewrite ?append_nil_r; split; try reflexivity; lia.
Qed.

Lemma processNode_walked (node : FileTreeNode) :
  forall st, walked [node] st (processNode entries node commonPrefix st).
Proof.
  induction node as [n p t s e | n p t s e kids IH]
    using FileTreeNode_induction; intros st.
  - destruct t; [apply walked_file; reflexivity|].
    unfold walkedFrom.
    rewrite embeddedFiles_one, processNode_folder, embeddedIn_folder.
    apply (walked_nil (mkLocals _ _ _ _)).
  - destruct t; [apply walked_file; reflexivity|].
    unfold walkedFrom.
    rewrite embeddedFiles_one, processNode_folder, embeddedIn_folder.
    apply (walked_fold kids IH (mkLocals _ _ _ _)).
Qed.

Lemma processNodes_walked (nodes : list FileTreeNode) (st : Locals) :
  walked nodes st (processNodes entries nodes commonPrefix st).
Proof.
  apply walked_fold. apply Forall_forall. intros k _.
  apply processNode_walked.
Qed.

Lemma countNodes_cons (t : NodeType) (k : FileTreeNode)
      (kids : list FileTreeNode) :
  countNodes t (k :: kids) = countType t k + countNodes t kids.
Proof. reflexivity. Qed.

Lemma countNodes_one (t : NodeType) (k : FileTreeNode) :
  countNodes t [k] = countType t k.
Proof. unfold countNodes. simpl. lia. Qed.

Lemma countType_node (t t' : NodeType) (n p : string) (s : option Z)
      (e : option string) (kids : option (list FileTreeNode)) :
  countType t (mkNode n p t' s e kids)
  = (if NodeType_eqb t' t then 1 else 0)
    + match kids with Some kids => countNodes t kids | None => 0 end.
Proof. destruct kids; reflexivity. Qed.

Lemma counted_fold (kids : list FileTreeNode) :
  Forall (fun k => forall st,
              counted [k] st (processNode entries k commonPrefix st)) kids ->
  forall st, counted kids st (processNodes entries kids commonPrefix st).
Proof.
  induction 1 as [|k kids Hk _ IH]; intros st.
  - unfold counted, countNodes. simpl. lia.
  - rewrite processNodes_cons.
    destruct (IH (processNode entries k commonPrefix st)) as [I1 I2].
    destruct (Hk st) as [K1 K2]. rewrite !countNodes_one in K1, K2.
    unfold counted. rewrite !countNodes_cons, I1, I2, K1, K2. lia.
Qed.

Lemma Occurs_child (m k : FileTreeNode) (forest : list FileTreeNode) :
  In k forest -> Occurs m [k] -> Occurs m forest.
Proof.
  intros Hk Hm.
  inversion Hm as [? Hin | ? m' kids' Hin Hch Hocc]; subst.
  - destruct Hin as [<-|[]]. apply Occurs_here, Hk.
  - destruct Hin as [<-|[]].
    apply (Occurs_below m forest k kids' Hk Hch Hocc).
Qed.

Lemma processNode_counted (node : FileTreeNode) :
  (forall n, Occurs n [node] -> typedNode n) ->
  forall st, counted [node] st (processNode entries node commonPrefix st).
Proof.
  induction node as [n p t s e | n p t s e kids IH]
    using FileTreeNode_induction; intros Hty st.
  - unfold counted. rewrite !countNodes_one, !countType_node.
    destruct t.
    + rewrite processNode_file, processFile_spec.
      destruct (embedding _ _ _); simpl; lia.
    + rewrite processNode_folder. simpl. lia.
  - pose proof (Hty _ (Occurs_here _ [_] (or_introl eq_refl))) as Hroot.
    unfold typedNode in Hroot. simpl in Hroot.
    destruct t; [discriminate|].
    assert (Forall (fun k => forall st,
                      counted [k] st (processNode entries k commonPrefix st))
                   kids) as Hkids.
    { rewrite Forall_forall in *. intros k Hk. apply (IH k Hk).
      intros m Hm. apply Hty.
      apply (Occurs_below m [_] (mkNode n p folder s e (Some kids)) kids
                          (or_introl eq_refl) eq_refl).
      apply (Occurs_child m k kids Hk Hm). }
    pose proof (counted_fold kids Hkids
                  (mkLocals (l_formattedContent st) (l_totalFiles st)
                            (l_totalFolders st + 1) (l_linesOfCode st)))
      as [C1 C2].
    unfold counted. rewrite !countNodes_one, !countType_node.
    rewrite processNode_folder. cbv zeta. rewrite C1, C2. simpl. lia.
Qed.

Lemma processNodes_counted (nodes : list FileTreeNode) (st : Locals) :
  (forall n, Occurs n nodes -> typedNode n) ->
  counted nodes st (processNodes entries nodes commonPrefix st).
Proof.
  intros Hty. apply counted_fold. apply Forall_forall. intros k Hk.
  apply processNode_counted. intros m Hm. apply Hty.
  apply (Occurs_child m k nodes Hk Hm).
Qed.

End Walk.

(* ===================================================================== *)
(** ** Reading and writing the nested map *)
(* ===================================================================== *)

Section ObjectFacts.

Context {V : Type}.

Lemma getOwn_In (o : JsObject.t V) (k : string) (v : V) :
  JsObject.getOwn o k = Some v -> In (k, v) o.
Proof.
  induction o as [|[k' v'] o IH]; simpl; [discriminate|].
  destruct (String.eqb_spec k' k) as [->|Hne].
  - intros [= ->]. left. reflexivity.
  - intros H. right. apply IH, H.
Qed.

Lemma get_Own_In (o : JsObject.t V) (k : string) (v : V) :
  JsObject.get o k = JsObject.Own v -> In (k, v) o.
Proof.
  unfold JsObject.get. destruct (JsObject.getOwn o k) eqn:E.
  - intros [= ->]. apply getOwn_In, E.
  - destruct (has JsObject.prototypeKeys k); discriminate.
Qed.

Lemma getOwn_set_same (o : JsObject.t V) (k : string) (v : V) :
  JsObject.getOwn (JsObject.set o k v) k = Some v.
Proof.
  induction o as [|[k' v'] o IH]; simpl.
  - now rewrite String.eqb_refl.
  - destruct (String.eqb_spec k' k) as [->|Hne]; simpl.
    + now rewrite String.eqb_refl.
    + destruct (String.eqb_spec k' k); [congruence|]. exact IH.
Qed.

Lemma get_set_same (o : JsObject.t V) (k : string) (v : V) :
  JsObject.get (JsObject.set o k v) k = JsObject.Own v.
Proof. unfold JsObject.get. now rewrite getOwn_set_same. Qed.

Lemma In_set (o : JsObject.t V) (k k' : string) (v v' : V) :
  In (k', v') (JsObject.set o k v) -> (k' = k /\ v' = v) \/ In (k', v') o.
Proof.
  induction o as [|[k0 v0] o IH]; simpl.
  - intros [[= <- <-]|[]]. left. auto.
  - destruct (String.eqb_spec k0 k) as [->|Hne]; simpl.
    + intros [[= <- <-]|H]; auto.
    + intros [H|H]; auto. destruct (IH H); auto.
Qed.

Lemma set_not_nil (o : JsObject.t V) (k : string) (v : V) :
  JsObject.set o k v <> [].
Proof.
  destruct o as [|[k0 v0] o]; simpl; [discriminate|].
  destruct (String.eqb k0 k); discriminate.
Qed.

(** A key read as [undefined] is created last. *)
Lemma set_new (o : JsObject.t V) (k : string) (v : V) :
  JsObject.getOwn o k = None -> JsObject.set o k v = o ++ [(k, v)].
Proof.
  induction o as [|[k0 v0] o IH]; simpl; [reflexivity|].
  destruct (String.eqb k0 k); [discriminate|].
  intros H. now rewrite IH.
Qed.

(** Writing an own key keeps the keys and their order. *)
Lemma set_keys (o : JsObject.t V) (k : string) (v v0 : V) :
  JsObject.getOwn o k = Some v0 ->
  map fst (JsObject.set o k v) = map fst o.
Proof.
  induction o as [|[k1 v1] o IH]; simpl; [discriminate|].
  destruct (String.eqb k1 k); simpl; [reflexivity|].
  intros H. now rewrite IH.
Qed.

Lemma get_cases (o : JsObject.t V) (k : string) :
  (JsObject.get o k = JsObject.Undefined
   /\ JsObject.getOwn o k = None /\ has JsObject.prototypeKeys k = false)
  \/ (exists v, JsObject.get o k = JsObject.Own v
                /\ JsObject.getOwn o k = Some v)
  \/ (JsObject.get o k = JsObject.Inherited
      /\ JsObject.getOwn o k = None /\ has JsObject.prototypeKeys k = true).
Proof.
  unfold JsObject.get. destruct (JsObject.getOwn o k) as [v|].
  - right. left. exists v. auto.
  - destruct (has JsObject.prototypeKeys k); auto.
Qed.

End ObjectFacts.

Section RawFacts.

Variable Q : RawNode -> Prop.

Lemma AllRaw_nil : AllRaw Q [].
Proof.
  intros r H. inversion H as [? ? Hin | ? ? ? ? Hin _ _]; destruct Hin.
Qed.

Lemma AllRaw_set (o : RawObject) (k : string) (v : RawNode) :
  AllRaw Q o -> Q v ->
  (forall below, r_children v = Some below -> AllRaw Q below) ->
  AllRaw Q (JsObject.set o k v).
Proof.
  intros Ho Hv Hbelow r Hr.
  inversion Hr as [? k' Hin | ? k' m below Hin Hch Hocc]; subst.
  - apply In_set in Hin as [[_ ->]|Hin]; [exact Hv|].
    apply Ho. apply (OccursRaw_here r o k' Hin).
  - apply In_set in Hin as [[_ ->]|Hin].
    + apply (Hbelow below Hch r Hocc).
    + apply Ho. apply (OccursRaw_below r o k' m below Hin Hch Hocc).
Qed.

Lemma AllRaw_own (o : RawObject) (k : string) (v : RawNode) :
  AllRaw Q o -> JsObject.get o k = JsObject.Own v ->
  Q v /\ forall below, r_children v = Some below -> AllRaw Q below.
Proof.
  intros Ho Hget. apply get_Own_In in Hget. split.
  - apply Ho. apply (OccursRaw_here v o k Hget).
  - intros below Hch r Hr.
    apply Ho. apply (OccursRaw_below r o k v below Hget Hch Hr).
Qed.

End RawFacts.

(** Every node of the converted forest is the conversion of a value of
    the map. *)
Lemma Occurs_convert (n : FileTreeNode) (forest : list FileTreeNode) :
  Occurs n forest ->
  forall o, forest = convertToArray o ->
            exists r, OccursRaw r o /\ n = convertItem r.
Proof.
  induction 1 as [forest Hin | forest m kids Hin Hch Hocc IH]; intros o ->.
  - rewrite convertToArray_values in Hin.
    apply in_map_iff in Hin as (r & <- & Hr).
    apply (Permutation_in _ (values_perm o)) in Hr.
    apply in_map_iff in Hr as ([k r'] & <- & Hr).
    exists r'. split; [|reflexivity]. apply (OccursRaw_here r' o k Hr).
  - rewrite convertToArray_values in Hin.
    apply in_map_iff in Hin as (rm & <- & Hr).
    apply (Permutation_in _ (values_perm o)) in Hr.
    apply in_map_iff in Hr as ([k rm'] & <- & Hr). simpl in Hch.
    rewrite convertItem_children in Hch.
    destruct (r_children rm') as [below|] eqn:Eb; [|discriminate].
    injection Hch as <-.
    destruct (IH below eq_refl) as (r & Hocc' & ->).
    exists r. split; [|reflexivity].
    apply (OccursRaw_below r o k rm' below Hr Eb Hocc').
Qed.

(* ===================================================================== *)
(** ** Invariants of the insertion walk *)
(* ===================================================================== *)

Section SkipFacts.

Context {A : Type}.

Lemma skipn_cons_next (l : list A) (i : nat) (x : A) (rest : list A) :
  skipn i l = x :: rest -> skipn (S i) l = rest.
Proof.
  revert l; induction i as [|i IH]; intros [|y l] H; simpl in *;
    try discriminate.
  - now injection H.
  - apply IH in H. exact H.
Qed.

Lemma skipn_cons_length (l : list A) (i : nat) (x : A) (rest : list A) :
  skipn i l = x :: rest -> List.length l = i + S (List.length rest).
Proof.
  intros H. pose proof (length_skipn i l) as L. rewrite H in L.
  simpl in L. lia.
Qed.

Lemma skipn_cons_firstn (l : list A) (i : nat) (x : A) (rest : list A) :
  skipn i l = x :: rest -> firstn (i + 1) l = firstn i l ++ [x].
Proof.
  revert l; induction i as [|i IH]; intros [|y l] H; simpl in *;
    try discriminate.
  - injection H as -> _. reflexivity.
  - f_equal. apply IH, H.
Qed.

Lemma skipn_cons_In (l : list A) (i : nat) (x : A) (rest : list A) :
  skipn i l = x :: rest -> In x l.
Proof.
  intros H. rewrite <- (firstn_skipn i l), H.
  apply in_or_app. right. left. reflexivity.
Qed.

(** [index < parts.length - 1] says that segments remain. *)
Lemma descends_iff (l : list A) (i : nat) (x : A) (rest : list A) :
  skipn i l = x :: rest ->
  (i <? List.length l - 1)%nat = negb (match rest with [] => true | _ => false end).
Proof.
  intros H. apply skipn_cons_length in H. rewrite H.
  destruct rest; simpl.
  - apply Nat.ltb_ge. lia.
  - apply Nat.ltb_lt. lia.
Qed.

Lemma last_index_iff (l : list A) (i : nat) (x : A) (rest : list A) :
  skipn i l = x :: rest ->
  (i =? List.length l - 1)%nat = match rest with [] => true | _ => false end.
Proof.
  intros H. apply skipn_cons_length in H. rewrite H.
  destruct rest; simpl.
  - apply Nat.eqb_eq. lia.
  - apply Nat.eqb_neq. lia.
Qed.

End SkipFacts.

Lemma set_set {V : Type} (o : JsObject.t V) (k : string) (v v' : V) :
  JsObject.set (JsObject.set o k v) k v' = JsObject.set o k v'.
Proof.
  induction o as [|[k0 v0] o IH]; simpl.
  - now rewrite String.eqb_refl.
  - destruct (String.eqb k0 k) eqn:E; simpl; rewrite E; [reflexivity|].
    now rewrite IH.
Qed.

(** One iteration of the insertion walk, case by case.  [rest'] is empty
    exactly at the last index. *)
Lemma insertParts_step (entry : ZipEntry) (parts : list string) (index : nat)
      (part : string) (rest' : list string) (current : RawObject) :
  skipn index parts = part :: rest' ->
  insertParts entry parts index (part :: rest') current
  = match rest' with
    | [] =>
        match JsObject.get current part with
        | JsObject.Undefined =>
            Normal (JsObject.set current part
                                 (newNode entry parts index part))
        | _ => Normal current
        end
    | _ :: _ =>
        match JsObject.get current part with
        | JsObject.Undefined =>
            below' <- insertParts entry parts (S index) rest' [] ;;
            Normal (JsObject.set current part
                      (withChildren (newNode entry parts index part) below'))
        | JsObject.Own node =>
            match r_children node with
            | Some below =>
                below' <- insertParts entry parts (S index) rest' below ;;
                Normal (JsObject.set current part (withChildren node below'))
            | None => Thrown TypeError
            end
        | JsObject.Inherited => Thrown TypeError
        end
    end.
Proof.
  intros Hskip. cbn [insertParts].
  rewrite (descends_iff _ _ _ _ Hskip).
  destruct rest' as [|part' rest'']; cbn [negb].
  - destruct (JsObject.get current part); reflexivity.
  - destruct (JsObject.get current part) as [|node|] eqn:G.
    + rewrite get_set_same. unfold newNode at 1.
      rewrite (last_index_iff _ _ _ _ Hskip). cbn [andb r_children].
      destruct (insertParts entry parts (S index) (part' :: rest'') [])
        as [below'|err]; cbn [bindC]; [|reflexivity].
      rewrite set_set. unfold newNode.
      rewrite (last_index_iff _ _ _ _ Hskip). reflexivity.
    + rewrite G. reflexivity.
    + rewrite G. reflexivity.
Qed.

Lemma newNode_children (entry : ZipEntry) (parts : list string) (index : nat)
      (part : string) (below : RawObject) :
  r_children (newNode entry parts index part) = Some below -> below = [].
Proof.
  unfold newNode. cbn [r_children].
  destruct (_ && _); [discriminate|]. now intros [= <-].
Qed.

Section InsertInvariantFacts.

Variable Q : RawNode -> Prop.
Variable R : RawObject -> Prop.
Variable entry : ZipEntry.
Variable parts : list string.
Hypothesis inv : InsertInvariant Q R entry parts.

Lemma insertParts_AllRaw (rest : list string) :
  forall index current current',
    skipn index parts = rest ->
    AllRaw Q current ->
    insertParts entry parts index rest current = Normal current' ->
    AllRaw Q current'.
Proof.
  destruct inv as [Hlast Hinner Hupd Hres].
  induction rest as [|part rest' IH]; intros index current current' Hskip Hall.
  - intros [= <-]. exact Hall.
  - rewrite (insertParts_step _ _ _ _ _ _ Hskip).
    pose proof (skipn_cons_next _ _ _ _ Hskip) as Hnext.
    destruct rest' as [|part' rest''].
    + destruct (JsObject.get current part) eqn:G; intros [= <-]; auto.
      apply AllRaw_set; [exact Hall | |].
      * apply Hlast. exact Hskip.
      * intros below Hb. apply newNode_children in Hb as ->.
        apply AllRaw_nil.
    + destruct (JsObject.get current part) as [|node|] eqn:G.
      * destruct (insertParts entry parts (S index) (part' :: rest'') [])
          as [below'|err] eqn:E; cbn [bindC]; [|discriminate].
        intros [= <-].
        pose proof (IH _ _ _ Hnext (AllRaw_nil Q) E) as Hbelow.
        apply AllRaw_set; [exact Hall | |].
        -- apply (Hinner _ _ (part' :: rest''));
             [exact Hskip | discriminate |].
           apply (Hres (S index) (part' :: rest'') [] below');
             [discriminate | exact Hnext | exact E].
        -- intros below [= <-]. exact Hbelow.
      * destruct (AllRaw_own Q _ _ _ Hall G) as [Hnode Hkids].
        destruct (r_children node) as [below|] eqn:Ec; [|discriminate].
        destruct (insertParts entry parts (S index) (part' :: rest'') below)
          as [below'|err] eqn:E; cbn [bindC]; [|discriminate].
        intros [= <-].
        pose proof (IH _ _ _ Hnext (Hkids below eq_refl) E) as Hbelow.
        apply AllRaw_set; [exact Hall | |].
        -- apply Hupd; [exact Hnode | congruence |].
           apply (Hres (S index) (part' :: rest'') below below');
             [discriminate | exact Hnext | exact E].
        -- intros below0 [= <-]. exact Hbelow.
      * discriminate.
Qed.

End InsertInvariantFacts.

(** An invariant of every insertion is an invariant of the build. *)
Lemma insertEntries_AllRaw (Q : RawNode -> Prop) (R : RawObject -> Prop)
      (commonPrefix : string) (l : list ZipEntry) :
  (forall e, In e l -> InsertInvariant Q R e (cleanParts commonPrefix e)) ->
  forall root root',
    AllRaw Q root ->
    insertEntries commonPrefix l root = Normal root' ->
    AllRaw Q root'.
Proof.
  induction l as [|e l IH]; intros Hinv root root' Hall; cbn [insertEntries].
  - intros [= <-]. exact Hall.
  - destruct (insertParts e (cleanParts commonPrefix e) 0
                          (cleanParts commonPrefix e) root)
      as [root1|err] eqn:E; cbn [bindC]; [|discriminate].
    apply IH; [intros e' He'; apply Hinv; right; exact He'|].
    apply (insertParts_AllRaw Q R e (cleanParts commonPrefix e)
             (Hinv e (or_introl eq_refl)) _ 0 root root1 eq_refl Hall E).
Qed.

(** Below a segment that is no inherited name the walk leaves an own
    property. *)
Lemma insertParts_not_nil (entry : ZipEntry) (parts : list string) :
  plainNames parts ->
  forall index rest current current',
    rest <> [] -> skipn index parts = rest ->
    insertParts entry parts index rest current = Normal current' ->
    current' <> [].
Proof.
  intros Hplain index [|part rest'] current current' Hne Hskip; [congruence|].
  rewrite (insertParts_step _ _ _ _ _ _ Hskip).
  pose proof (Hplain part (skipn_cons_In _ _ _ _ Hskip)) as Hp.
  destruct (get_cases current part)
    as [(G & _ & _) | [(v & G & Go) | (G & _ & Hi)]];
    [| |congruence]; rewrite G.
  - destruct rest'.
    + intros [= <-]. apply set_not_nil.
    + destruct (insertParts _ _ _ _ _); cbn [bindC]; [|discriminate].
      intros [= <-]. apply set_not_nil.
  - apply getOwn_In in Go.
    destruct rest'.
    + intros [= <-]. intros ->. destruct Go.
    + destruct (r_children v); [|discriminate].
      destruct (insertParts _ _ _ _ _); cbn [bindC]; [|discriminate].
      intros [= <-]. apply set_not_nil.
Qed.

(* ===================================================================== *)
(** ** File nodes are leaves, folder nodes carry children *)
(* ===================================================================== *)

Lemma typed_invariant (entry : ZipEntry) (parts : list string) :
  InsertInvariant typedRaw (fun _ => True) entry parts.
Proof.
  constructor.
  - intros index part _. unfold typedRaw, newNode. cbn [r_type r_children].
    destruct (_ && _); [reflexivity | discriminate].
  - intros index part rest' below Hskip Hne _.
    unfold typedRaw, withChildren, newNode. cbn [r_type r_children].
    rewrite (last_index_iff _ _ _ _ Hskip).
    destruct rest'; [congruence|]. cbn [andb]. discriminate.
  - intros node below Hq Hch _. unfold typedRaw, withChildren in *.
    cbn [r_type r_children]. destruct (r_type node); [congruence|discriminate].
  - trivial.
Qed.

Lemma typedNode_convert (r : RawNode) :
  typedRaw r -> typedNode (convertItem r).
Proof.
  unfold typedRaw, typedNode. rewrite convertItem_children.
  destruct r as [n p t s e [below|]]; cbn [type r_type r_children convertItem];
    destruct t; congruence.
Qed.

Section BuildFacts.

Variable localeCompare : string -> string -> comparison.

(** The nodes of a returned forest are conversions of values of the map
    the insertions produced. *)
Lemma buildFileTree_AllRaw (Q : RawNode -> Prop) (R : RawObject -> Prop)
      (entries : list ZipEntry) (forest : list FileTreeNode) :
  (forall e, In e (validEntries localeCompare entries) ->
             InsertInvariant Q R e
               (cleanParts (treePrefix localeCompare entries) e)) ->
  buildFileTree localeCompare entries = Normal forest ->
  forall n, Occurs n forest -> exists r, Q r /\ n = convertItem r.
Proof.
  intros Hinv Hb n Hn. rewrite buildFileTree_prefix in Hb.
  destruct (insertEntries _ _ _) as [root|err] eqn:E; cbn [bindC] in Hb;
    [|discriminate].
  injection Hb as <-.
  destruct (Occurs_convert n _ Hn root eq_refl) as (r & Hr & ->).
  exists r. split; [|reflexivity].
  apply (insertEntries_AllRaw Q R _ _ Hinv [] root (AllRaw_nil Q) E r Hr).
Qed.

Lemma buildFileTree_typed (entries : list ZipEntry)
      (forest : list FileTreeNode) :
  buildFileTree localeCompare entries = Normal forest ->
  forall n, Occurs n forest -> typedNode n.
Proof.
  intros Hb n Hn.
  destruct (buildFileTree_AllRaw typedRaw (fun _ => True) entries forest
              (fun e _ => typed_invariant e _) Hb n Hn) as (r & Hr & ->).
  apply typedNode_convert, Hr.
Qed.

End BuildFacts.

(** Membership in the list of embedded files, spelled out. *)
Lemma embedding_Some (entries : list ZipEntry) (commonPrefix : string)
      (node : FileTreeNode) (x : Embedded) :
  embedding entries commonPrefix node = Some x ->
  e_node x = node
  /\ has ALLOWED_EXTENSIONS (getFileExtension (name node)) = true
  /\ findEntry entries (commonPrefix ++ path node) (path node)
     = Some (e_entry x)
  /\ isDirectory (e_entry x) = false
  /\ getData (e_entry x) = Normal (e_content x)
  /\ trim (e_content x) <> EmptyString.
Proof.
  unfold embedding.
  destruct (has ALLOWED_EXTENSIONS _); [|discriminate].
  destruct (findEntry _ _ _) as [entry|]; [|discriminate].
  destruct (isDirectory entry) eqn:Hd; [discriminate|].
  destruct (getData entry) as [content|] eqn:Hg; [|discriminate].
  destruct (trim content) eqn:Ht; cbn [truthy]; [discriminate|].
  intros [= <-]. cbn [e_node e_entry e_content]. rewrite Ht.
  repeat split; auto. discriminate.
Qed.

Lemma embeddedFiles_sound (entries : list ZipEntry) (commonPrefix : string)
      (forest : list FileTreeNode) (x : Embedded) :
  In x (embeddedFiles entries commonPrefix forest) ->
  Occurs (e_node x) forest
  /\ type (e_node x) = file
  /\ embedding entries commonPrefix (e_node x) = Some x.
Proof.
  revert x.
  assert (forall node x, In x (embeddedIn entries commonPrefix node) ->
                         Occurs (e_node x) [node]
                         /\ type (e_node x) = file
                         /\ embedding entries commonPrefix (e_node x) = Some x)
    as Hnode.
  { induction node as [n p t s e | n p t s e kids IH]
      using FileTreeNode_induction; intros x Hx.
    - destruct t; [|destruct Hx].
      rewrite embeddedIn_file in Hx.
      destruct (embedding _ _ _) as [y|] eqn:E; [|destruct Hx].
      destruct Hx as [<-|[]].
      destruct (embedding_Some _ _ _ _ E) as (En & _). rewrite En.
      repeat split; [|exact E]. apply Occurs_here. left. reflexivity.
    - destruct t.
      + rewrite embeddedIn_file in Hx.
        destruct (embedding _ _ _) as [y|] eqn:E; [|destruct Hx].
        destruct Hx as [<-|[]].
        destruct (embedding_Some _ _ _ _ E) as (En & _). rewrite En.
        repeat split; [|exact E]. apply Occurs_here. left. reflexivity.
      + rewrite embeddedIn_folder in Hx. unfold embeddedFiles in Hx.
        apply in_flat_map in Hx as (k & Hk & Hx).
        rewrite Forall_forall in IH.
        destruct (IH k Hk x Hx) as (Ho & Ht & He).
        repeat split; [|exact Ht|exact He].
        apply (Occurs_below (e_node x) [_]
                 (mkNode n p folder s e (Some kids)) kids
                 (or_introl eq_refl) eq_refl).
        apply (Occurs_child _ k kids Hk Ho). }
  intros x Hx. unfold embeddedFiles in Hx.
  apply in_flat_map in Hx as (k & Hk & Hx).
  destruct (Hnode k x Hx) as (Ho & Ht & He).
  repeat split; [|exact Ht|exact He].
  apply (Occurs_child _ k forest Hk Ho).
Qed.

(* ===================================================================== *)
(** ** Statistics of a run *)
(* ===================================================================== *)

Section Statistics.

Variable localeCompare : string -> string -> comparison.

(** C7: the file counter of a run is the number of file nodes of the
    returned tree, its folder counter the number of folder nodes, both
    counted by a full traversal. *)
Theorem counts_match (entries : list ZipEntry) (out : ProcessedOutput) :
  processUpload localeCompare entries = Normal out ->
  totalFiles (stats out) = Z.of_nat (countNodes file (fileTree out))
  /\ totalFolders (stats out) = Z.of_nat (countNodes folder (fileTree out)).
Proof.
  rewrite processUpload_prefix.
  destruct (buildFileTree localeCompare entries) as [forest|err] eqn:Hb;
    cbn [bindC]; [|discriminate].
  intros [= <-]. cbn [stats fileTree totalFiles totalFolders].
  destruct (processNodes_counted entries (lookupPrefix entries) forest
              (mkLocals (documentHead forest) 0 0 0)
              (buildFileTree_typed localeCompare entries forest Hb))
    as [C1 C2].
  rewrite C1, C2. cbn [l_totalFiles l_totalFolders]. lia.
Qed.

Lemma processUpload_walked (entries : list ZipEntry)
      (out : ProcessedOutput) :
  processUpload localeCompare entries = Normal out ->
  let embedded :=
    embeddedFiles entries (lookupPrefix entries) (fileTree out) in
  formattedContent out
    = (documentHead (fileTree out) ++ blocks embedded)%string
  /\ linesOfCode (stats out)
     = sumZ (map (fun x => splitLength (e_content x)) embedded).
Proof.
  rewrite processUpload_prefix.
  destruct (buildFileTree localeCompare entries) as [forest|err] eqn:Hb;
    cbn [bindC]; [|discriminate].
  intros [= <-]. cbn [stats fileTree formattedContent linesOfCode].
  destruct (processNodes_walked entries (lookupPrefix entries) forest
              (mkLocals (documentHead forest) 0 0 0)) as [W1 W2].
  rewrite W1, W2. cbn [l_formattedContent l_linesOfCode].
  split; [reflexivity | lia].
Qed.

Lemma processUpload_tree (entries : list ZipEntry) (out : ProcessedOutput) :
  processUpload localeCompare entries = Normal out ->
  buildFileTree localeCompare entries = Normal (fileTree out).
Proof.
  rewrite processUpload_prefix.
  destruct (buildFileTree localeCompare entries) as [forest|err];
    cbn [bindC]; [|discriminate].
  now intros [= <-].
Qed.

(** C6: the line counter of a run is the sum of
    [content.split(newline).length] over the embedded files, the files
    whose blocks make up the document after its head; a file that is
    not embedded adds nothing. *)
Theorem lines_of_code_additive (entries : list ZipEntry)
        (out : ProcessedOutput) :
  processUpload localeCompare entries = Normal out ->
  let embedded :=
    embeddedFiles entries (lookupPrefix entries) (fileTree out) in
  formattedContent out
    = (documentHead (fileTree out) ++ blocks embedded)%string
  /\ linesOfCode (stats out)
     = sumZ (map (fun x => splitLength (e_content x)) embedded)
  /\ forall x, In x embedded ->
               getData (e_entry x) = Normal (e_content x)
               /\ trim (e_content x) <> EmptyString.
Proof.
  intros Hrun. cbv zeta.
  destruct (processUpload_walked entries out Hrun) as [W1 W2].
  repeat split; [exact W1 | exact W2 | |];
    apply embeddedFiles_sound in H as (_ & _ & He);
    apply embedding_Some in He; tauto.
Qed.

End Statistics.

(* ===================================================================== *)
(** ** Files that are counted without content *)
(* ===================================================================== *)

Section Skipped.

Variable entries : list ZipEntry.
Variable commonPrefix : string.

Lemma processNodes_app (before after : list FileTreeNode) (st : Locals) :
  processNodes entries (before ++ after) commonPrefix st
  = processNodes entries after commonPrefix
                 (processNodes entries before commonPrefix st).
Proof. unfold processNodes. apply fold_left_app. Qed.

(** The part of the rule on files without content that the code keeps:
    when the entry that the lookup returns for a file node holds a blank
    text or fails to decode, or when the lookup returns nothing, the node
    is counted and gets no block; nothing is thrown, and the walk goes on
    with the nodes after it.  The entry the lookup returns need not be
    the entry of the node. *)
Theorem file_without_content_is_counted (node : FileTreeNode) (st : Locals) :
  type node = file ->
  has ALLOWED_EXTENSIONS (getFileExtension (name node)) = true ->
  NoContent entries commonPrefix node ->
  processNode entries node commonPrefix st = countedOnly st
  /\ forall before after st0,
       processNodes entries (before ++ node :: after) commonPrefix st0
       = processNodes entries after commonPrefix
           (countedOnly (processNodes entries before commonPrefix st0)).
Proof.
  intros Ht Hext Hno.
  assert (forall st, processNode entries node commonPrefix st
                     = countedOnly st) as Hnode.
  { intros st'. destruct node as [n p t s e kids]. cbn [type] in Ht. subst t.
    rewrite processNode_file. unfold processFile, embedFile.
    rewrite Hext.
    destruct Hno as [entry content Hf Hd Hg Hb
                    | entry err Hf Hd Hg
                    | Hf]; rewrite Hf; try rewrite Hd; try rewrite Hg;
      cbn [negb bindC]; try rewrite Hb; reflexivity. }
  split; [apply Hnode|].
  intros before after st0.
  rewrite processNodes_app, processNodes_cons, Hnode. reflexivity.
Qed.

End Skipped.

(** C8: the rule fails where the lookup of [processNode] returns the
    entry of another file.  In the archive [zz/a.txt] (text [Z]),
    [a.txt] (empty) the node [a.txt] stands for the empty entry, as its
    size shows; the lookup goes through the entries in archive order and
    takes the first whose name is the path or ends with a slash and the
    path, which is [zz/a.txt]; so the empty file gets a block, with the
    text of the other file, and its line is counted. *)
Lemma blank_file_gets_foreign_block :
  let other := fileEntry "zz/a.txt" "Z" in
  let own := fileEntry "a.txt" EmptyString in
  let entries := [other; own] in
  let node := mkNode "a.txt" "a.txt" file (Some 0%Z) (Some ".txt") None in
  let below := mkNode "a.txt" "zz/a.txt" file (Some 1%Z) (Some ".txt") None in
  exists out,
    processUpload byteCompare entries = Normal out
    /\ fileTree out = [node; mkNode "zz" "zz" folder None None (Some [below])]
    /\ entryName own = path node
    /\ getData own = Normal EmptyString
    /\ has ALLOWED_EXTENSIONS (getFileExtension (name node)) = true
    /\ findEntry entries (lookupPrefix entries ++ path node) (path node)
       = Some other
    /\ formattedContent out
       = (documentHead (fileTree out)
          ++ formatFileContent "a.txt" "Z"
          ++ formatFileContent "zz/a.txt" "Z")%string
    /\ totalFiles (stats out) = 2%Z
    /\ linesOfCode (stats out) = 2%Z.
Proof.
  cbv zeta. eexists. split; [vm_compute; reflexivity|].
  repeat split; vm_compute; reflexivity.
Qed.

(* ===================================================================== *)
(** ** The scenario of the specification *)
(* ===================================================================== *)

Section Scenario.

Variable localeCompare : string -> string -> comparison.

(** [b.txt] collates after [a.py]. *)
Hypothesis b_after_a :
  localeCompare "proj/src/b.txt" "proj/src/a.py" = Gt.

Variable xSize : Z.
Variable xData : Completion string.

Lemma scenario_valid :
  validEntries localeCompare (scenario xSize xData)
  = [ fileEntry "proj/src/a.py" ("print(1)" ++ LF);
      fileEntry "proj/src/b.txt" EmptyString ].
Proof.
  unfold validEntries, scenario.
  change (filter _ _)
    with [ fileEntry "proj/src/a.py" ("print(1)" ++ LF);
           fileEntry "proj/src/b.txt" EmptyString ].
  unfold sortByName. cbn [fold_left insertSorted fileEntry entryName].
  rewrite b_after_a. reflexivity.
Qed.

Lemma scenario_tree :
  buildFileTree localeCompare (scenario xSize xData) = Normal scenarioTree.
Proof.
  unfold buildFileTree. rewrite scenario_valid. vm_compute. reflexivity.
Qed.

(** C2, amended: on the archive of the scenario the prefix [proj/] is
    detected and stripped, the tree is the one folder [src] with the two
    files [a.py] and [b.txt], the document holds the block of
    [src/a.py] and no block of [src/b.txt], and the statistics are
    2 files, 1 folder and 2 lines of code: the text of [a.py] ends with a
    newline, which [split] counts as a second, empty line. *)
Theorem scenario_output :
  treePrefix localeCompare (scenario xSize xData) = "proj/"
  /\ lookupPrefix (scenario xSize xData) = "proj/"
  /\ exists document,
       processUpload localeCompare (scenario xSize xData)
       = Normal (mkOutput scenarioTree document (mkStats 2 1 2))
       /\ includes document
                   (formatFileContent "src/a.py" ("print(1)" ++ LF)) = true
       /\ includes document "### src/a.py" = true
       /\ includes document "### src/b.txt" = false.
Proof.
  split; [|split].
  - unfold treePrefix. rewrite scenario_valid. reflexivity.
  - reflexivity.
  - unfold processUpload. rewrite scenario_tree. cbn [bindC].
    eexists. split; [vm_compute; reflexivity|].
    repeat split; vm_compute; reflexivity.
Qed.

End Scenario.

Lemma scenario_output_witness :
  treePrefix byteCompare (scenario 1 (Normal "x")) = "proj/"
  /\ lookupPrefix (scenario 1 (Normal "x")) = "proj/"
  /\ exists document,
       processUpload byteCompare (scenario 1 (Normal "x"))
       = Normal (mkOutput scenarioTree document (mkStats 2 1 2))
       /\ includes document
                   (formatFileContent "src/a.py" ("print(1)" ++ LF)) = true
       /\ includes document "### src/a.py" = true
       /\ includes document "### src/b.txt" = false.
Proof. apply (scenario_output byteCompare). reflexivity. Defined.

(** C2, as stated, fails in its last figure: the run counts two lines of
    code, not one. *)
Lemma scenario_lines_of_code :
  exists out,
    processUpload byteCompare (scenario 1 (Normal "x")) = Normal out
    /\ totalFiles (stats out) = 2%Z
    /\ totalFolders (stats out) = 1%Z
    /\ linesOfCode (stats out) = 2%Z
    /\ linesOfCode (stats out) <> 1%Z.
Proof.
  eexists. split; [vm_compute; reflexivity|].
  cbn [stats totalFiles totalFolders linesOfCode].
  repeat split. discriminate.
Qed.

Lemma counts_match_witness :
  exists out,
    processUpload byteCompare (scenario 1 (Normal "x")) = Normal out
    /\ totalFiles (stats out) = Z.of_nat (countNodes file (fileTree out))
    /\ totalFolders (stats out) = Z.of_nat (countNodes folder (fileTree out)).
Proof.
  eexists. split; [vm_compute; reflexivity|].
  apply (counts_match byteCompare (scenario 1 (Normal "x"))).
  vm_compute. reflexivity.
Defined.

Lemma lines_of_code_additive_witness :
  exists out,
    processUpload byteCompare (scenario 1 (Normal "x")) = Normal out
    /\ linesOfCode (stats out)
       = sumZ (map (fun x => splitLength (e_content x))
                   (embeddedFiles (scenario 1 (Normal "x"))
                                  (lookupPrefix (scenario 1 (Normal "x")))
                                  (fileTree out))).
Proof.
  eexists. split; [vm_compute; reflexivity|].
  apply (lines_of_code_additive byteCompare (scenario 1 (Normal "x"))).
  vm_compute. reflexivity.
Defined.

Lemma file_without_content_is_counted_witness :
  let entries := scenario 1 (Normal "x") in
  let a := mkNode "a.py" "src/a.py" file (Some 9%Z) (Some ".py") None in
  let b := mkNode "b.txt" "src/b.txt" file (Some 0%Z) (Some ".txt") None in
  let st := mkLocals "head" 0 1 0 in
  processNode entries b "proj/" st = countedOnly st
  /\ processNodes entries ([a] ++ b :: [a]) "proj/" st
     = processNodes entries [a] "proj/"
         (countedOnly (processNodes entries [a] "proj/" st)).
Proof.
  cbv zeta.
  destruct (file_without_content_is_counted
              (scenario 1 (Normal "x")) "proj/"
              (mkNode "b.txt" "src/b.txt" file (Some 0%Z) (Some ".txt") None)
              (mkLocals "head" 0 1 0)) as [H1 H2].
  - reflexivity.
  - reflexivity.
  - apply (Blank _ _ _ (fileEntry "proj/src/b.txt" EmptyString) EmptyString);
      reflexivity.
  - split; [exact H1 | apply H2].
Defined.

(* ===================================================================== *)
(** ** A file where a later entry needs a folder *)
(* ===================================================================== *)

Section Collision.

(** Going down into a file node throws. *)
Lemma insertParts_into_file (entry : ZipEntry) (parts : list string)
      (index : nat) (part part' : string) (rest : list string)
      (current : RawObject) (node : RawNode) :
  skipn index parts = part :: part' :: rest ->
  JsObject.get current part = JsObject.Own node ->
  r_children node = None ->
  insertParts entry parts index (part :: part' :: rest) current
  = Thrown TypeError.
Proof.
  intros Hskip Hget Hch.
  rewrite (insertParts_step _ _ _ _ _ _ Hskip), Hget, Hch. reflexivity.
Qed.

Variable localeCompare : string -> string -> comparison.

(** [a/b] collates after its prefix [a]. *)
Hypothesis longer_after : localeCompare "a/b" "a" = Gt.

(** C5 on the code: with a file [a] and a file [a/b] in the archive,
    [buildFileTree] throws a TypeError, and the run ends in the [catch]
    of the handler without a tree. *)
Theorem file_then_folder_throws :
  let entries := [fileEntry "a" "x"; fileEntry "a/b" "y"] in
  buildFileTree localeCompare entries = Thrown TypeError
  /\ processUpload localeCompare entries = Thrown TypeError.
Proof.
  cbv zeta.
  assert (buildFileTree localeCompare
            [fileEntry "a" "x"; fileEntry "a/b" "y"] = Thrown TypeError)
    as Hb.
  { unfold buildFileTree, validEntries.
    change (filter _ _) with [fileEntry "a" "x"; fileEntry "a/b" "y"].
    unfold sortByName. cbn [fold_left insertSorted fileEntry entryName].
    rewrite longer_after. reflexivity. }
  split; [exact Hb|]. unfold processUpload. rewrite Hb. reflexivity.
Qed.

End Collision.

Lemma file_then_folder_throws_witness :
  buildFileTree byteCompare [fileEntry "a" "x"; fileEntry "a/b" "y"]
  = Thrown TypeError.
Proof. apply (file_then_folder_throws byteCompare). reflexivity. Defined.

(* ===================================================================== *)
(** ** Segments of a path *)
(* ===================================================================== *)

Section Segments.

Lemma noSlash_cons (c : ascii) (s : string) :
  noSlash (String c s) <-> c <> "/"%char /\ noSlash s.
Proof.
  unfold noSlash. cbn [indexOf].
  destruct (Ascii.eqb_spec c "/") as [->|Hne].
  - split; [discriminate | intros [H _]; congruence].
  - pose proof (indexOf_ge s "/").
    destruct (Z.ltb_spec (indexOf s "/") 0); split; intros; try split;
      auto; try lia.
Qed.

Lemma split_not_nil (c : ascii) (s : string) : split c s <> [].
Proof.
  induction s as [|d s IH]; simpl; [discriminate|].
  destruct (Ascii.eqb d c); [discriminate|].
  destruct (split c s); discriminate.
Qed.

Lemma split_noSlash_word (s : string) : noSlash s -> split "/" s = [s].
Proof.
  induction s as [|d s IH]; intros H; [reflexivity|].
  apply noSlash_cons in H as [Hd Hs]. cbn [split].
  destruct (Ascii.eqb_spec d "/"); [congruence|].
  now rewrite (IH Hs).
Qed.

Lemma split_after (seg t : string) :
  noSlash seg -> split "/" (seg ++ "/" ++ t) = seg :: split "/" t.
Proof.
  induction seg as [|d seg IH]; intros H.
  - reflexivity.
  - apply noSlash_cons in H as [Hd Hs].
    cbn [append split]. destruct (Ascii.eqb_spec d "/"); [congruence|].
    change (seg ++ String "/" t)%string with (seg ++ "/" ++ t)%string.
    now rewrite (IH Hs).
Qed.

Lemma split_parts_noSlash (s p : string) :
  In p (split "/" s) -> noSlash p.
Proof.
  revert p; induction s as [|d s IH]; intros p; cbn [split].
  - intros [<-|[]]. reflexivity.
  - destruct (Ascii.eqb_spec d "/") as [->|Hne].
    + intros [<-|H]; [reflexivity | apply IH, H].
    + destruct (split "/" s) as [|q qs] eqn:E.
      * intros [<-|[]]. apply noSlash_cons. split; [exact Hne|reflexivity].
      * intros [<-|H].
        -- apply noSlash_cons. split; [exact Hne|]. apply IH. now left.
        -- apply IH. now right.
Qed.

Lemma split_join (ps : list string) :
  ps <> [] -> Forall noSlash ps -> split "/" (join "/" ps) = ps.
Proof.
  induction ps as [|p ps IH]; intros Hne Hall; [congruence|].
  inversion Hall as [|? ? Hp Hps]; subst.
  destruct ps as [|q ps].
  - apply split_noSlash_word, Hp.
  - change (join "/" (p :: q :: ps))
      with (p ++ "/" ++ join "/" (q :: ps))%string.
    rewrite (split_after _ _ Hp). f_equal.
    apply IH; [discriminate | exact Hps].
Qed.

(** The detected prefix is empty or one folder and its slash. *)
Lemma detect_shape (l : list ZipEntry) :
  detectCommonPrefix l = EmptyString
  \/ exists seg, noSlash seg
                 /\ detectCommonPrefix l = (seg ++ "/")%string.
Proof.
  destruct (string_dec (detectCommonPrefix l) EmptyString) as [E|N];
    [left; exact E|].
  destruct (detect_nonempty _ N) as (_ & seg & (_ & Hn & _) & Hd).
  right. exists seg. auto.
Qed.

(** The segments of a stripped path are segments of the entry name. *)
Lemma cleanParts_incl (l : list ZipEntry) (e : ZipEntry) (p : string) :
  In p (cleanParts (detectCommonPrefix l) e) ->
  In p (split "/" (entryName e)) /\ p <> EmptyString.
Proof.
  unfold cleanParts. intros H. apply filter_In in H as [H Hlen].
  split; [|intros ->; discriminate].
  unfold cleanPath in H.
  destruct (detect_shape l) as [E|(seg & Hseg & E)]; rewrite E in H.
  - rewrite startsWith_empty in H. exact H.
  - destruct (startsWith (entryName e) (seg ++ "/")) eqn:Hs; [|exact H].
    apply startsWith_split in Hs.
    set (t := substringFrom (String.length (seg ++ "/")) (entryName e)) in *.
    rewrite Hs, append_assoc, (split_after _ _ Hseg). right. exact H.
Qed.

Lemma cleanParts_kept (l : list ZipEntry) (e : ZipEntry) (p : string) :
  shouldIgnore (entryName e) = false ->
  In p (cleanParts (detectCommonPrefix l) e) ->
  ignoredPart p = false /\ noSlash p /\ p <> EmptyString.
Proof.
  intros Hkeep Hp. apply cleanParts_incl in Hp as [Hin Hne].
  repeat split; [|apply (split_parts_noSlash _ _ Hin)|exact Hne].
  unfold shouldIgnore in Hkeep.
  destruct (ignoredPart p) eqn:E; [|reflexivity].
  assert (existsb ignoredPart (split "/" (entryName e)) = true) as Hx
      by (apply existsb_exists; exists p; auto).
  congruence.
Qed.

End Segments.

(* ===================================================================== *)
(** ** Ignored segments never reach the tree *)
(* ===================================================================== *)

Section Visible.

Lemma firstn_Forall {A : Type} (P : A -> Prop) (n : nat) (l : list A) :
  Forall P l -> Forall P (firstn n l).
Proof.
  intros H. rewrite <- (firstn_skipn n l) in H.
  apply Forall_app in H. tauto.
Qed.

Lemma visibleRaw_newNode (entry : ZipEntry) (parts : list string)
      (index : nat) (part : string) (rest' : list string) :
  Forall keptSegment parts ->
  skipn index parts = part :: rest' ->
  visibleRaw (newNode entry parts index part).
Proof.
  intros Hall Hskip. exists (firstn (index + 1) parts).
  repeat split.
  - rewrite (skipn_cons_firstn _ _ _ _ Hskip).
    destruct (firstn index parts); discriminate.
  - apply firstn_Forall, Hall.
  - cbn [newNode r_name].
    rewrite (skipn_cons_firstn _ _ _ _ Hskip). symmetry. apply last_last.
Qed.

Lemma visible_invariant (entry : ZipEntry) (parts : list string) :
  Forall keptSegment parts ->
  InsertInvariant visibleRaw (fun _ => True) entry parts.
Proof.
  intros Hall. constructor.
  - intros index part Hskip. apply (visibleRaw_newNode _ _ _ _ [] Hall Hskip).
  - intros index part rest' below Hskip _ _.
    destruct (visibleRaw_newNode entry _ _ _ _ Hall Hskip)
      as (ps & H1 & H2 & H3 & H4).
    exists ps. auto.
  - intros node below (ps & H1 & H2 & H3 & H4) _ _. exists ps. auto.
  - trivial.
Qed.

Lemma visibleNode_convert (r : RawNode) :
  visibleRaw r -> visibleNode (convertItem r).
Proof.
  intros (ps & Hne & Hall & Hpath & Hname).
  assert (split "/" (path (convertItem r)) = ps) as Hsplit.
  { destruct r; cbn [convertItem path r_path] in *. rewrite Hpath.
    apply split_join; [exact Hne|].
    apply (Forall_impl _ (fun p (H : keptSegment p) => proj1 (proj2 H)) Hall). }
  unfold visibleNode. rewrite Hsplit. split.
  - apply (Forall_impl _ (fun p (H : keptSegment p) => proj1 H) Hall).
  - destruct r; cbn [convertItem name r_name] in *. exact Hname.
Qed.

Variable localeCompare : string -> string -> comparison.

Lemma validEntries_kept (entries : list ZipEntry) (e : ZipEntry) :
  In e (validEntries localeCompare entries) ->
  Forall keptSegment (cleanParts (treePrefix localeCompare entries) e).
Proof.
  intros He. apply validEntries_In in He as [_ Hkeep].
  apply Forall_forall. intros p Hp.
  apply (cleanParts_kept _ e p Hkeep Hp).
Qed.

(** Every node of a returned tree lies on a path of kept segments. *)
Lemma buildFileTree_visible (entries : list ZipEntry)
      (forest : list FileTreeNode) :
  buildFileTree localeCompare entries = Normal forest ->
  forall n, Occurs n forest -> visibleNode n.
Proof.
  intros Hb n Hn.
  destruct (buildFileTree_AllRaw localeCompare visibleRaw (fun _ => True)
              entries forest
              (fun e He => visible_invariant e _ (validEntries_kept _ e He))
              Hb n Hn) as (r & Hr & ->).
  apply visibleNode_convert, Hr.
Qed.

Lemma ignoredPart_dot (seg : string) :
  ignoredPart seg = false -> startsWith seg "." = false.
Proof. unfold ignoredPart. intros H. apply orb_false_iff in H. tauto. Qed.

(** C10, amended: a block of the document stands under the path of a
    tree node, and no segment of such a path, the file name included,
    begins with a dot; so a file named [.gitignore] or [.env] is never
    embedded.  (The two allow-list entries still apply to a name with
    something before the dot, such as [config.env].) *)
Theorem dot_paths_never_embedded (entries : list ZipEntry)
        (out : ProcessedOutput) :
  processUpload localeCompare entries = Normal out ->
  let embedded :=
    embeddedFiles entries (lookupPrefix entries) (fileTree out) in
  formattedContent out
    = (documentHead (fileTree out) ++ blocks embedded)%string
  /\ forall x, In x embedded ->
       Forall (fun seg => startsWith seg "." = false)
              (split "/" (path (e_node x)))
       /\ name (e_node x) = last (split "/" (path (e_node x))) EmptyString
       /\ startsWith (name (e_node x)) "." = false
       /\ name (e_node x) <> ".gitignore"
       /\ name (e_node x) <> ".env".
Proof.
  intros Hrun. cbv zeta.
  split; [apply (processUpload_walked localeCompare entries out Hrun)|].
  intros x Hx. apply embeddedFiles_sound in Hx as (Hocc & _ & _).
  destruct (buildFileTree_visible entries (fileTree out)
              (processUpload_tree localeCompare entries out Hrun)
              (e_node x) Hocc) as [Hsegs Hname].
  assert (Forall (fun seg => startsWith seg "." = false)
                 (split "/" (path (e_node x)))) as Hdots
      by (apply (Forall_impl _ ignoredPart_dot Hsegs)).
  assert (startsWith (name (e_node x)) "." = false) as Hn.
  { rewrite Hname.
    pose proof (split_not_nil "/" (path (e_node x))) as Hne.
    destruct (exists_last Hne) as (l' & a & E). rewrite E in *.
    rewrite last_last. apply Forall_app in Hdots as [_ Hd].
    now inversion Hd. }
  repeat split; auto; intros E; rewrite E in Hn; discriminate.
Qed.

End Visible.

Lemma dot_paths_never_embedded_witness :
  exists out,
    processUpload byteCompare (scenario 1 (Normal "x")) = Normal out
    /\ forall x,
         In x (embeddedFiles (scenario 1 (Normal "x"))
                             (lookupPrefix (scenario 1 (Normal "x")))
                             (fileTree out)) ->
         startsWith (name (e_node x)) "." = false.
Proof.
  eexists. split; [vm_compute; reflexivity|].
  intros x Hx.
  destruct (dot_paths_never_embedded byteCompare (scenario 1 (Normal "x"))
              _ ltac:(vm_compute; reflexivity)) as [_ H].
  destruct (H x Hx) as (_ & _ & Hn & _). exact Hn.
Defined.

(** C10, as stated, fails.  The allow-list entry [.env] is why the file
    [config.env] is embedded: the two entries do cause embeddings.  And the
    text of a file below a dot folder can reach the document: the lookup
    of [processNode] goes through all the entries, the ignored ones too,
    and takes the first whose name ends with the path of the node, so
    that the block of [index.js] carries the text of
    [.github/index.js]. *)
Lemma dot_entries_can_be_embedded :
  (let entries := [fileEntry "config.env" "A=1"] in
   getFileExtension "config.env" = ".env"
   /\ has ALLOWED_EXTENSIONS ".env" = true
   /\ getFileExtension "notes.gitignore" = ".gitignore"
   /\ exists out,
        processUpload byteCompare entries = Normal out
        /\ formattedContent out
           = (documentHead (fileTree out)
              ++ formatFileContent "config.env" "A=1")%string)
  /\ (let entries := [fileEntry ".github/index.js" "hidden";
                      fileEntry "index.js" "shown"] in
      exists out,
        processUpload byteCompare entries = Normal out
        /\ map (fun x => (path (e_node x), entryName (e_entry x),
                          e_content x))
               (embeddedFiles entries (lookupPrefix entries) (fileTree out))
           = [("index.js", ".github/index.js", "hidden")]
        /\ formattedContent out
           = (documentHead (fileTree out)
              ++ formatFileContent "index.js" "hidden")%string).
Proof.
  cbv zeta. split.
  - repeat split; try reflexivity.
    eexists. split; vm_compute; reflexivity.
  - eexists. repeat split; vm_compute; reflexivity.
Qed.

(* ===================================================================== *)
(** ** Folders without children *)
(* ===================================================================== *)

(** C1, as stated, fails: the directory entry [proj/empty/] has no
    descendant and yields a folder node whose [children] is the empty
    array. *)
Lemma empty_directory_yields_empty_folder :
  let entries := [dirEntry "proj/"; fileEntry "proj/a.txt" "x";
                  dirEntry "proj/empty/"] in
  let emptyFolder := mkNode "empty" "empty" folder None None (Some []) in
  buildFileTree byteCompare entries
  = Normal [mkNode "a.txt" "a.txt" file (Some 1%Z) (Some ".txt") None;
            emptyFolder]
  /\ type emptyFolder = folder
  /\ children emptyFolder = Some [].
Proof. cbv zeta. repeat split; vm_compute; reflexivity. Qed.

Section EmptyFolders.

Lemma InsertInvariant_conj (Q1 Q2 : RawNode -> Prop) (R : RawObject -> Prop)
      (entry : ZipEntry) (parts : list string) :
  InsertInvariant Q1 (fun _ => True) entry parts ->
  InsertInvariant Q2 R entry parts ->
  InsertInvariant (fun r => Q1 r /\ Q2 r) R entry parts.
Proof.
  intros [A1 A2 A3 _] [B1 B2 B3 B4]. constructor.
  - intros. split; [apply A1 | apply B1]; assumption.
  - intros index part rest' below Hs Hne Hr.
    split; [apply (A2 _ _ rest') | apply (B2 _ _ rest')]; auto.
  - intros node below [H1 H2] Hch Hr. split; [apply A3 | apply B3]; auto.
  - exact B4.
Qed.

Lemma emptyIsDirectory_invariant (commonPrefix : string)
      (valid : list ZipEntry) (entry : ZipEntry) :
  In entry valid ->
  plainNames (cleanParts commonPrefix entry) ->
  InsertInvariant (emptyIsDirectory commonPrefix valid)
                  (fun below => below <> [])
                  entry (cleanParts commonPrefix entry).
Proof.
  intros Hin Hplain. constructor.
  - intros index part Hskip. unfold emptyIsDirectory, newNode.
    cbn [r_children r_path]. rewrite (last_index_iff _ _ _ _ Hskip).
    cbn [andb]. destruct (isDirectory entry) eqn:Hd; cbn [negb];
      [|discriminate].
    intros _. exists entry. repeat split; [exact Hin | exact Hd |].
    pose proof (skipn_cons_length _ _ _ _ Hskip) as Hlen. cbn in Hlen.
    replace (index + 1) with (List.length (cleanParts commonPrefix entry))
      by lia.
    now rewrite firstn_all.
  - intros index part rest' below _ _ Hne. unfold emptyIsDirectory.
    cbn [withChildren r_children]. intros [= ->]. congruence.
  - intros node below _ _ Hne. unfold emptyIsDirectory.
    cbn [withChildren r_children]. intros [= ->]. congruence.
  - apply (insertParts_not_nil entry _ Hplain).
Qed.

Lemma convertToArray_nil (below : RawObject) :
  convertToArray below = [] -> below = [].
Proof.
  rewrite convertToArray_values. intros H.
  apply map_eq_nil in H.
  pose proof (Permutation_length (values_perm below)) as L.
  rewrite H, length_map in L. destruct below; [reflexivity|discriminate].
Qed.

Variable localeCompare : string -> string -> comparison.

(** A folder node of the returned tree has a [children] array, and a
    folder whose array is empty stands for a retained directory entry. *)
Lemma empty_folder_from_entry (entries : list ZipEntry)
        (forest : list FileTreeNode) :
  buildFileTree localeCompare entries = Normal forest ->
  (forall e, In e entries -> plainNames (split "/" (entryName e))) ->
  forall n, Occurs n forest -> type n = folder ->
    exists kids,
      children n = Some kids
      /\ (kids = [] ->
          exists e, In e entries
                    /\ shouldIgnore (entryName e) = false
                    /\ isDirectory e = true
                    /\ path n
                       = join "/" (cleanParts
                                     (treePrefix localeCompare entries) e)).
Proof.
  intros Hb Hplain n Hn Hfolder.
  set (prefix := treePrefix localeCompare entries).
  set (valid := validEntries localeCompare entries).
  destruct (buildFileTree_AllRaw localeCompare
              (fun r => typedRaw r /\ emptyIsDirectory prefix valid r)
              (fun below => below <> []) entries forest) with (n := n)
    as (r & [Hty Hemp] & ->); [|exact Hb|exact Hn|].
  { intros e He. apply InsertInvariant_conj; [apply typed_invariant|].
    apply emptyIsDirectory_invariant; [exact He|].
    intros p Hp. apply validEntries_In in He as [He _].
    apply (Hplain e He). apply (cleanParts_incl _ e p Hp). }
  rewrite convertItem_children.
  unfold typedRaw in Hty.
  assert (r_type r = folder) as Ht by (destruct r; exact Hfolder).
  rewrite Ht in Hty.
  destruct (r_children r) as [below|] eqn:Eb; [|congruence].
  exists (convertToArray below). split; [reflexivity|].
  intros Hnil. apply convertToArray_nil in Hnil. subst below.
  destruct (Hemp Eb) as (e & He & Hd & Hp).
  exists e. apply validEntries_In in He as [He Hk].
  repeat split; auto. destruct r; exact Hp.
Qed.

End EmptyFolders.

(* ===================================================================== *)
(** ** The sorted entries *)
(* ===================================================================== *)

Section SortedEntries.

Variable localeCompare : string -> string -> comparison.
Hypothesis consistent : consistentCompare localeCompare.

Lemma insertSorted_In (x y : ZipEntry) (l : list ZipEntry) :
  In y (insertSorted localeCompare x l) -> y = x \/ In y l.
Proof.
  intros H. apply (Permutation_in _ (insertSorted_perm localeCompare x l)) in H.
  destruct H; auto.
Qed.

Lemma insertSorted_sorted (x : ZipEntry) (l : list ZipEntry) :
  StronglySorted (notAfter localeCompare) l ->
  StronglySorted (notAfter localeCompare) (insertSorted localeCompare x l).
Proof.
  destruct consistent as [Hanti Htrans].
  induction 1 as [|y l Hs IH Hy]; cbn [insertSorted].
  - constructor; constructor.
  - destruct (localeCompare (entryName x) (entryName y)) eqn:E.
    + constructor; [exact IH|].
      apply Forall_forall. intros z Hz.
      apply insertSorted_In in Hz as [->|Hz].
      * unfold notAfter. rewrite (Hanti (entryName x) (entryName y)), E.
        discriminate.
      * rewrite Forall_forall in Hy. apply Hy, Hz.
    + constructor; [constructor; assumption|].
      constructor.
      * unfold notAfter. rewrite E. discriminate.
      * apply Forall_forall. intros z Hz. rewrite Forall_forall in Hy.
        apply (Htrans _ (entryName y)); [rewrite E; discriminate|].
        apply Hy, Hz.
    + constructor; [exact IH|].
      apply Forall_forall. intros z Hz.
      apply insertSorted_In in Hz as [->|Hz].
      * unfold notAfter. rewrite (Hanti (entryName x) (entryName y)), E.
        discriminate.
      * rewrite Forall_forall in Hy. apply Hy, Hz.
Qed.

Lemma sortInto_sorted (l acc : list ZipEntry) :
  StronglySorted (notAfter localeCompare) acc ->
  StronglySorted (notAfter localeCompare)
    (fold_left (fun sorted entry => insertSorted localeCompare entry sorted)
               l acc).
Proof.
  revert acc; induction l as [|x l IH]; intros acc Hacc; cbn [fold_left].
  - exact Hacc.
  - apply IH, insertSorted_sorted, Hacc.
Qed.

(** The retained entries are in ascending order of their names. *)
Lemma validEntries_sorted (entries : list ZipEntry) :
  StronglySorted (notAfter localeCompare) (validEntries localeCompare entries).
Proof. apply sortInto_sorted. constructor. Qed.

Lemma sorted_comesBefore (l : list ZipEntry) (x y : ZipEntry) :
  StronglySorted (notAfter localeCompare) l ->
  comesBefore x y l -> notAfter localeCompare x y.
Proof.
  intros Hs (a & b & c & ->).
  induction a as [|z a IH]; cbn [app] in Hs.
  - apply StronglySorted_inv in Hs as [_ Hx].
    rewrite Forall_forall in Hx. apply Hx.
    apply in_or_app. right. left. reflexivity.
  - apply StronglySorted_inv in Hs as [Hs _]. apply IH, Hs.
Qed.

End SortedEntries.

(** The code-unit order is a consistent comparator. *)
Lemma byteCompare_consistent : consistentCompare byteCompare.
Proof.
  unfold byteCompare. split.
  - intros a b. apply String.compare_antisym.
  - assert (forall a b c : ascii,
               Ascii.compare a b = Eq -> Ascii.compare a c = Ascii.compare b c)
      as Heq by (intros a b c H; apply Ascii.compare_eq_iff in H; now subst).
    assert (forall a b c : ascii,
               Ascii.compare a b = Lt -> Ascii.compare b c <> Gt ->
               Ascii.compare a c = Lt) as Hlt.
    { unfold Ascii.compare. intros a b c H1 H2.
      apply N.compare_lt_iff in H1. apply N.compare_le_iff in H2.
      apply N.compare_lt_iff. apply (N.lt_le_trans _ _ _ H1 H2). }
    intros a; induction a as [|x a IH]; intros [|y b] [|z c]; cbn [String.compare];
      try congruence.
    destruct (Ascii.compare x y) eqn:Exy.
    + rewrite (Heq _ _ z Exy). destruct (Ascii.compare y z); try congruence.
      apply IH.
    + intros _. destruct (Ascii.compare y z) eqn:Eyz.
      * apply Ascii.compare_eq_iff in Eyz. subst z. rewrite Exy. congruence.
      * rewrite (Hlt x y z Exy); [congruence | rewrite Eyz; congruence].
      * congruence.
    + congruence.
Qed.

(* ===================================================================== *)
(** ** Keys in the order of first appearance *)
(* ===================================================================== *)

Section FirstKeys.

Lemma has_In (l : list string) (s : string) : has l s = true <-> In s l.
Proof.
  unfold has. rewrite existsb_exists. split.
  - intros (x & Hx & E). apply String.eqb_eq in E. now subst.
  - intros H. exists s. split; [exact H | apply String.eqb_refl].
Qed.

Lemma has_false (l : list string) (s : string) :
  has l s = false <-> ~ In s l.
Proof.
  rewrite <- has_In. destruct (has l s); split; congruence.
Qed.

Lemma firstKeys_snoc (done : Pending) (d : ZipEntry * list string) :
  firstKeys (done ++ [d]) = addKey (firstKeys done) d.
Proof. unfold firstKeys. now rewrite fold_left_app. Qed.

Lemma tailsOf_snoc (k : string) (done : Pending) (d : ZipEntry * list string) :
  tailsOf k (done ++ [d]) = tailsOf k done ++ tailsOf k [d].
Proof. unfold tailsOf. apply flat_map_app. Qed.

Lemma tailsOf_one (k : string) (e : ZipEntry) (ps : list string) :
  tailsOf k [(e, ps)]
  = match ps with
    | p :: t => if String.eqb p k then [(e, t)] else []
    | [] => []
    end.
Proof.
  unfold tailsOf. cbn. destruct ps as [|p t]; [reflexivity|].
  destruct (String.eqb p k); reflexivity.
Qed.

(** What holds of the keys: none is inherited, none is repeated, and each
    entry going on with a plain segment has put it among them. *)
Lemma firstKeys_facts (done : Pending) :
  (forall k, In k (firstKeys done) -> has JsObject.prototypeKeys k = false)
  /\ NoDup (firstKeys done)
  /\ (forall e p t, In (e, p :: t) done ->
                    has JsObject.prototypeKeys p = false ->
                    In p (firstKeys done))
  /\ (forall k, In k (firstKeys done) ->
                exists e t, In (e, k :: t) done).
Proof.
  induction done as [|d done IH] using rev_ind.
  - repeat split; try constructor; intros; contradiction.
  - destruct IH as (Hplain & Hnd & Hin & Hfrom).
    rewrite firstKeys_snoc. unfold addKey.
    destruct d as [e' [|p' t']]; cbn [snd].
    + repeat split; auto.
      * intros e p t H Hp. apply in_app_or in H as [H|[[=]|[]]]. eauto.
      * intros k Hk. destruct (Hfrom k Hk) as (e & t & H).
        exists e, t. apply in_or_app. now left.
    + destruct (has JsObject.prototypeKeys p') eqn:Ep; cbn [orb].
      * repeat split; auto.
        -- intros e p t H Hp. apply in_app_or in H as [H|[[= -> -> ->]|[]]];
             [eauto | congruence].
        -- intros k Hk. destruct (Hfrom k Hk) as (e & t & H).
           exists e, t. apply in_or_app. now left.
      * destruct (has (firstKeys done) p') eqn:Eh.
        -- apply has_In in Eh. repeat split; auto.
           ++ intros e p t H Hp.
              apply in_app_or in H as [H|[[= -> -> ->]|[]]]; eauto.
           ++ intros k Hk. destruct (Hfrom k Hk) as (e & t & H).
              exists e, t. apply in_or_app. now left.
        -- apply has_false in Eh. repeat split.
           ++ intros k Hk. apply in_app_or in Hk as [Hk|[<-|[]]]; auto.
           ++ apply NoDup_app; [exact Hnd | repeat constructor; intros [] |].
              intros x Hx [<-|[]]. contradiction.
           ++ intros e p t H Hp. apply in_or_app.
              apply in_app_or in H as [H|[[= -> -> ->]|[]]];
                [left; eauto | right; now left].
           ++ intros k Hk. apply in_app_or in Hk as [Hk|[<-|[]]].
              ** destruct (Hfrom k Hk) as (e & t & H).
                 exists e, t. apply in_or_app. now left.
              ** exists e', t'. apply in_or_app. right. now left.
Qed.

(** No pending entry goes on with a plain segment that is no key. *)
Lemma tailsOf_absent (done : Pending) (k : string) :
  has JsObject.prototypeKeys k = false ->
  ~ In k (firstKeys done) ->
  tailsOf k done = [].
Proof.
  intros Hp Hk. destruct (firstKeys_facts done) as (_ & _ & Hin & _).
  assert (forall e t, ~ In (e, k :: t) done) as Hno
      by (intros e t H; apply Hk; apply (Hin e k t H Hp)).
  clear Hin Hk. unfold tailsOf.
  induction done as [|[e ps] done IH]; [reflexivity|].
  cbn [flat_map snd fst]. rewrite IH.
  - destruct ps as [|p t]; [reflexivity|].
    destruct (String.eqb_spec p k) as [->|]; [|reflexivity].
    destruct (Hno e t). now left.
  - intros e0 t H. apply (Hno e0 t). now right.
Qed.

Lemma getOwn_None_keys {V : Type} (o : JsObject.t V) (k : string) :
  JsObject.getOwn o k = None -> ~ In k (map fst o).
Proof.
  induction o as [|[k0 v0] o IH]; cbn [JsObject.getOwn map fst In];
    [tauto|].
  destruct (String.eqb_spec k0 k); [discriminate|].
  intros H [E|Hin]; [congruence | apply (IH H Hin)].
Qed.

Lemma In_keys {V : Type} (o : JsObject.t V) (k : string) (v : V) :
  In (k, v) o -> In k (map fst o).
Proof. intros H. apply (in_map fst) in H. exact H. Qed.

(** In a map without repeated keys a write replaces the one pair of its
    key. *)
Lemma In_set_NoDup {V : Type} (o : JsObject.t V) (k k' : string) (v v' : V) :
  NoDup (map fst o) ->
  In (k', v') (JsObject.set o k v) ->
  (k' = k /\ v' = v) \/ (k' <> k /\ In (k', v') o).
Proof.
  induction o as [|[k0 v0] o IH]; cbn [JsObject.set map fst].
  - intros _ [[= <- <-]|[]]. left. auto.
  - intros Hnd. apply NoDup_cons_iff in Hnd as [Hk0 Hnd].
    destruct (String.eqb_spec k0 k) as [->|Hne].
    + intros [[= <- <-]|H]; [left; auto|].
      right. split; [|now right].
      intros ->. apply Hk0. apply (In_keys _ _ _ H).
    + intros [[= <- <-]|H].
      * right. split; [exact Hne | now left].
      * destruct (IH Hnd H) as [?|[? ?]]; [now left|].
        right. split; [assumption | now right].
Qed.

End FirstKeys.

(* ===================================================================== *)
(** ** The insertion walk keeps the order of first appearance *)
(* ===================================================================== *)

Section OrderedFacts.

Lemma Ordered_inv (done : Pending) (o : RawObject) :
  Ordered done o ->
  map fst o = firstKeys done
  /\ (forall k node, In (k, node) o -> r_name node = k)
  /\ (forall k node below,
         In (k, node) o -> r_children node = Some below ->
         Ordered (tailsOf k done) below).
Proof. intros H. inversion H; subst. auto. Qed.

Lemma Ordered_empty : Ordered [] [].
Proof. constructor; [reflexivity | |]; intros; contradiction. Qed.

Lemma Ordered_ended (e : ZipEntry) : Ordered [(e, [])] [].
Proof. constructor; [reflexivity | |]; intros; contradiction. Qed.

(** An entry that ends at a level changes nothing at it. *)
Lemma Ordered_app_ended (done : Pending) (o : RawObject) (e : ZipEntry) :
  Ordered done o -> Ordered (done ++ [(e, [])]) o.
Proof.
  intros H. apply Ordered_inv in H as (Hk & Hn & Hc).
  constructor; [|exact Hn|].
  - rewrite firstKeys_snoc. exact Hk.
  - intros k node below Hin Hch.
    rewrite tailsOf_snoc, tailsOf_one, app_nil_r. apply (Hc k node below Hin Hch).
Qed.

(** The children of the keys other than [part] see nothing of an entry
    going on with [part]; those of [part], when the entry ends there,
    see an entry that has ended. *)
Lemma Ordered_child_step (done : Pending) (entry : ZipEntry)
      (part k : string) (rest' : list string) (below : RawObject) :
  Ordered (tailsOf k done) below ->
  k <> part \/ rest' = [] ->
  Ordered (tailsOf k (done ++ [(entry, part :: rest')])) below.
Proof.
  intros H Hcase. rewrite tailsOf_snoc, tailsOf_one.
  destruct (String.eqb_spec part k) as [->|Hne].
  - destruct Hcase as [Hk | ->]; [congruence|].
    apply Ordered_app_ended, H.
  - rewrite app_nil_r. exact H.
Qed.

Lemma insertParts_Ordered (entry : ZipEntry) (parts : list string)
      (rest : list string) :
  forall index done o o',
    skipn index parts = rest ->
    Ordered done o ->
    insertParts entry parts index rest o = Normal o' ->
    Ordered (done ++ [(entry, rest)]) o'.
Proof.
  induction rest as [|part rest' IH]; intros index done o o' Hskip Hord.
  - intros [= <-]. apply Ordered_app_ended, Hord.
  - rewrite (insertParts_step _ _ _ _ _ _ Hskip).
    pose proof (skipn_cons_next _ _ _ _ Hskip) as Hnext.
    pose proof Hord as Hord0.
    apply Ordered_inv in Hord as (Hkeys & Hnames & Hkids).
    destruct (firstKeys_facts done) as (Hplain & Hnd & _ & _).
    destruct (get_cases o part)
      as [(G & Go & Hp) | [(node & G & Go) | (G & Go & Hp)]]; rewrite G.
    + (* a new key, created last *)
      assert (~ In part (firstKeys done)) as Hnew
          by (rewrite <- Hkeys; apply getOwn_None_keys, Go).
      assert (forall v,
                 r_name v = part ->
                 (forall below, r_children v = Some below ->
                                Ordered [(entry, rest')] below) ->
                 Ordered (done ++ [(entry, part :: rest')])
                         (JsObject.set o part v)) as Hset.
      { intros v Hv Hbelow. rewrite (set_new _ _ _ Go). constructor.
        - rewrite map_app, Hkeys, firstKeys_snoc. unfold addKey. cbn [snd].
          rewrite Hp. cbn [orb].
          destruct (has (firstKeys done) part) eqn:Eh;
            [apply has_In in Eh; contradiction | reflexivity].
        - intros k n Hin. apply in_app_or in Hin as [Hin|[[= <- <-]|[]]];
            [apply (Hnames k n Hin) | exact Hv].
        - intros k n below Hin Hch.
          apply in_app_or in Hin as [Hin|[[= <- <-]|[]]].
          + apply Ordered_child_step; [apply (Hkids k n below Hin Hch)|].
            left. intros ->. apply Hnew. rewrite <- Hkeys.
            apply (In_keys _ _ _ Hin).
          + rewrite tailsOf_snoc, tailsOf_one, String.eqb_refl.
            rewrite (tailsOf_absent done part Hp Hnew). cbn [app].
            apply (Hbelow below Hch). }
      destruct rest' as [|part' rest''].
      * intros [= <-]. apply Hset; [reflexivity|].
        intros below Hb. apply newNode_children in Hb as ->.
        apply Ordered_ended.
      * destruct (insertParts entry parts (S index) (part' :: rest'') [])
          as [below'|err] eqn:E; cbn [bindC]; [|discriminate].
        intros [= <-]. apply Hset; [reflexivity|].
        intros below [= <-].
        apply (IH (S index) [] [] below' Hnext Ordered_empty E).
    + (* an own key *)
      apply getOwn_In in Go.
      assert (In part (firstKeys done)) as Hold
          by (rewrite <- Hkeys; apply (In_keys _ _ _ Go)).
      assert (firstKeys (done ++ [(entry, part :: rest')]) = firstKeys done)
        as Hsame.
      { rewrite firstKeys_snoc. unfold addKey. cbn [snd].
        apply has_In in Hold. rewrite Hold, orb_true_r. reflexivity. }
      destruct rest' as [|part' rest''].
      * intros [= <-]. constructor; [congruence | exact Hnames |].
        intros k n below Hin Hch.
        apply Ordered_child_step; [apply (Hkids k n below Hin Hch) | now right].
      * destruct (r_children node) as [below|] eqn:Ec; [|discriminate].
        destruct (insertParts entry parts (S index) (part' :: rest'') below)
          as [below'|err] eqn:E; cbn [bindC]; [|discriminate].
        intros [= <-].
        pose proof (IH (S index) _ below below' Hnext
                       (Hkids part node below Go Ec) E) as Hbelow'.
        constructor.
        -- rewrite (set_keys _ _ _ node), Hsame; [exact Hkeys|].
           destruct (get_cases o part)
             as [(G' & _) | [(v & G' & Go') | (G' & _)]]; congruence.
        -- intros k n Hin.
           apply In_set in Hin as [[-> ->]|Hin];
             [apply (Hnames part node Go) | apply (Hnames k n Hin)].
        -- intros k n below0 Hin Hch.
           rewrite <- Hkeys in Hnd.
           apply (In_set_NoDup _ _ _ _ _ Hnd) in Hin as [[-> ->]|[Hne Hin]].
           ++ injection Hch as <-.
              rewrite tailsOf_snoc, tailsOf_one, String.eqb_refl.
              exact Hbelow'.
           ++ apply Ordered_child_step;
                [apply (Hkids k n below0 Hin Hch) | now left].
    + (* an inherited name: nothing is created *)
      assert (firstKeys (done ++ [(entry, part :: rest')]) = firstKeys done)
        as Hsame.
      { rewrite firstKeys_snoc. unfold addKey. cbn [snd].
        rewrite Hp. reflexivity. }
      destruct rest' as [|part' rest'']; [|discriminate].
      intros [= <-]. constructor; [congruence | exact Hnames |].
      intros k n below Hin Hch.
      apply Ordered_child_step; [apply (Hkids k n below Hin Hch) | now right].
Qed.

End OrderedFacts.

(* ===================================================================== *)
(** ** From the keys of a level to the sorted entries *)
(* ===================================================================== *)

Section Levels.

Variable commonPrefix : string.

Lemma dropPrefix_snoc (q : list string) (k : string) (ps : list string) :
  dropPrefix (q ++ [k]) ps
  = match dropPrefix q ps with
    | Some (p :: t) => if String.eqb p k then Some t else None
    | _ => None
    end.
Proof.
  revert ps; induction q as [|k0 q IH]; intros ps; cbn [app dropPrefix].
  - destruct ps as [|p t]; [reflexivity|]. destruct (String.eqb p k); reflexivity.
  - destruct ps as [|p t]; [reflexivity|].
    destruct (String.eqb p k0); [apply IH | reflexivity].
Qed.

Lemma dropPrefix_In (q ps t : list string) (x : string) :
  dropPrefix q ps = Some t -> In x t -> In x ps.
Proof.
  revert ps; induction q as [|k0 q IH]; intros ps; cbn [dropPrefix].
  - now intros [= ->].
  - destruct ps as [|p ps']; [discriminate|].
    destruct (String.eqb p k0); [|discriminate].
    intros H Hx. right. apply (IH ps' H Hx).
Qed.

Lemma tailsAt_root (valid : list ZipEntry) :
  tailsAt commonPrefix [] valid
  = map (fun e => (e, cleanParts commonPrefix e)) valid.
Proof.
  unfold tailsAt. induction valid as [|e valid IH]; [reflexivity|].
  cbn [flat_map map dropPrefix app] in *. now rewrite IH.
Qed.

Lemma tailsOf_tailsAt (q : list string) (k : string) (valid : list ZipEntry) :
  tailsOf k (tailsAt commonPrefix q valid)
  = tailsAt commonPrefix (q ++ [k]) valid.
Proof.
  unfold tailsOf, tailsAt.
  induction valid as [|e valid IH]; [reflexivity|].
  cbn [flat_map]. rewrite flat_map_app, IH, dropPrefix_snoc. f_equal.
  destruct (dropPrefix q (cleanParts commonPrefix e)) as [[|p t]|];
    cbn [flat_map snd fst app]; try reflexivity.
  destruct (String.eqb p k); reflexivity.
Qed.

Lemma tailsAt_In (q : list string) (valid : list ZipEntry) (e : ZipEntry)
      (t : list string) :
  In (e, t) (tailsAt commonPrefix q valid) ->
  In e valid /\ dropPrefix q (cleanParts commonPrefix e) = Some t.
Proof.
  unfold tailsAt. intros H. apply in_flat_map in H as (e' & He' & H).
  destruct (dropPrefix q (cleanParts commonPrefix e')) as [t'|] eqn:E;
    [|destruct H].
  destruct H as [[= -> ->]|[]]. auto.
Qed.

(** Cutting the pending entries of a level cuts the sorted entries. *)
Lemma tailsAt_cut (q : list string) (valid : list ZipEntry)
      (a rest : Pending) (e : ZipEntry) (t : list string) :
  tailsAt commonPrefix q valid = a ++ (e, t) :: rest ->
  exists v1 v2,
    valid = v1 ++ e :: v2
    /\ tailsAt commonPrefix q v1 = a
    /\ dropPrefix q (cleanParts commonPrefix e) = Some t
    /\ tailsAt commonPrefix q v2 = rest.
Proof.
  unfold tailsAt. revert a.
  induction valid as [|e0 valid IH]; intros a H; cbn [flat_map] in H.
  - destruct a; discriminate.
  - destruct (dropPrefix q (cleanParts commonPrefix e0)) as [t0|] eqn:E;
      cbn [app] in H.
    + destruct a as [|d a]; cbn [app] in H.
      * injection H as -> -> H. exists [], valid. cbn [app flat_map]. auto.
      * injection H as <- H. destruct (IH a H) as (v1 & v2 & -> & H1 & H2 & H3).
        exists (e0 :: v1), v2. cbn [app flat_map]. rewrite E, H1. auto.
    + destruct (IH a H) as (v1 & v2 & -> & H1 & H2 & H3).
      exists (e0 :: v1), v2. cbn [app flat_map]. rewrite E. auto.
Qed.

Lemma liesBelow_snoc (q : list string) (k : string) (e : ZipEntry) :
  liesBelow commonPrefix (q ++ [k]) e
  = match dropPrefix q (cleanParts commonPrefix e) with
    | Some t => headIs k (e, t)
    | None => false
    end.
Proof.
  unfold liesBelow, headIs. rewrite dropPrefix_snoc. cbn [snd].
  destruct (dropPrefix q (cleanParts commonPrefix e)) as [[|p t]|];
    try reflexivity.
  destruct (String.eqb p k); reflexivity.
Qed.

(** No entry of [v] goes on with [k] below [q]. *)
Lemma liesBelow_none (q : list string) (k : string) (v : list ZipEntry) :
  (forall d, In d (tailsAt commonPrefix q v) -> headIs k d = false) ->
  forall e, In e v -> liesBelow commonPrefix (q ++ [k]) e = false.
Proof.
  intros H e He. rewrite liesBelow_snoc.
  destruct (dropPrefix q (cleanParts commonPrefix e)) as [t|] eqn:E;
    [|reflexivity].
  apply H. unfold tailsAt. apply in_flat_map. exists e.
  rewrite E. split; [exact He | now left].
Qed.

Lemma find_first {A : Type} (P : A -> bool) (l1 l2 : list A) (x : A) :
  (forall y, In y l1 -> P y = false) -> P x = true ->
  find P (l1 ++ x :: l2) = Some x.
Proof.
  intros Hl1 Hx. induction l1 as [|y l1 IH]; cbn [app find].
  - now rewrite Hx.
  - rewrite (Hl1 y (or_introl eq_refl)). apply IH.
    intros z Hz. apply Hl1. now right.
Qed.

(** Two pending entries that are the first to go on with [k1] and with
    [k2], in this order, are the first sorted entries below the two
    nodes, in this order. *)
Lemma firsts_of_level (q : list string) (valid : list ZipEntry)
      (k1 k2 : string) (e1 e2 : ZipEntry) (t1 t2 : list string)
      (a b c : Pending) :
  tailsAt commonPrefix q valid
  = a ++ (e1, k1 :: t1) :: b ++ (e2, k2 :: t2) :: c ->
  (forall d, In d a -> headIs k1 d = false) ->
  (forall d, In d (a ++ (e1, k1 :: t1) :: b) -> headIs k2 d = false) ->
  firstBelow commonPrefix valid (q ++ [k1]) = Some e1
  /\ firstBelow commonPrefix valid (q ++ [k2]) = Some e2
  /\ comesBefore e1 e2 valid.
Proof.
  intros Hcut Ha Hb.
  destruct (tailsAt_cut q valid a _ e1 _ Hcut) as (v1 & v2 & -> & H1 & D1 & H2).
  destruct (tailsAt_cut q v2 b _ e2 _ H2) as (m1 & m2 & -> & H3 & D2 & _).
  unfold firstBelow. repeat split.
  - apply find_first.
    + apply liesBelow_none. rewrite H1. exact Ha.
    + rewrite liesBelow_snoc, D1. unfold headIs. cbn [snd].
      apply String.eqb_refl.
  - change (v1 ++ e1 :: m1 ++ e2 :: m2)
      with (v1 ++ (e1 :: m1) ++ e2 :: m2).
    rewrite app_assoc. apply find_first.
    + apply liesBelow_none. intros d Hd. apply Hb.
      unfold tailsAt in *. rewrite flat_map_app in Hd. cbn [flat_map] in Hd.
      rewrite D1 in Hd. rewrite H1, H3 in Hd. exact Hd.
    + rewrite liesBelow_snoc, D2. unfold headIs. cbn [snd].
      apply String.eqb_refl.
  - exists v1, m1, m2. reflexivity.
Qed.

End Levels.

Section KeyOrder.

Lemma first_with_head (done : Pending) (k : string) :
  In k (firstKeys done) ->
  exists a e t b,
    done = a ++ (e, k :: t) :: b
    /\ forall d, In d a -> headIs k d = false.
Proof.
  intros Hk. destruct (firstKeys_facts done) as (_ & _ & _ & Hfrom).
  destruct (Hfrom k Hk) as (e0 & t0 & Hin). clear Hfrom Hk.
  induction done as [|[e ps] done IH]; [destruct Hin|].
  destruct (headIs k (e, ps)) eqn:Eh.
  - unfold headIs in Eh. cbn [snd] in Eh. destruct ps as [|p t]; [discriminate|].
    apply String.eqb_eq in Eh. subst p.
    exists [], e, t, done. split; [reflexivity|]. intros d [].
  - destruct Hin as [[= -> ->]|Hin].
    + unfold headIs in Eh. cbn [snd] in Eh. rewrite String.eqb_refl in Eh.
      discriminate.
    + destruct (IH Hin) as (a & e' & t' & b & -> & Ha).
      exists ((e, ps) :: a), e', t', b. split; [reflexivity|].
      intros d [<-|Hd]; [exact Eh | apply Ha, Hd].
Qed.

Lemma no_head_absent (done : Pending) (k : string) :
  has JsObject.prototypeKeys k = false ->
  ~ In k (firstKeys done) ->
  forall d, In d done -> headIs k d = false.
Proof.
  intros Hp Hk [e ps] Hd. unfold headIs. cbn [snd].
  destruct ps as [|p t]; [reflexivity|].
  destruct (String.eqb_spec p k) as [->|]; [|reflexivity].
  destruct Hk. destruct (firstKeys_facts done) as (_ & _ & Hin & _).
  apply (Hin e k t Hd Hp).
Qed.

(** A key ahead of another key was first reached ahead of it. *)
Lemma firstKeys_order (done : Pending) :
  forall l1 k1 l2 k2 l3,
    firstKeys done = l1 ++ k1 :: l2 ++ k2 :: l3 ->
    exists e1 t1 e2 t2 a b c,
      done = a ++ (e1, k1 :: t1) :: b ++ (e2, k2 :: t2) :: c
      /\ (forall d, In d a -> headIs k1 d = false)
      /\ (forall d, In d (a ++ (e1, k1 :: t1) :: b) -> headIs k2 d = false).
Proof.
  induction done as [|d done IH] using rev_ind; intros l1 k1 l2 k2 l3 Hk.
  - destruct l1; discriminate.
  - rewrite firstKeys_snoc in Hk.
    assert (forall l3', firstKeys done = l1 ++ k1 :: l2 ++ k2 :: l3' ->
            exists e1 t1 e2 t2 a b c,
              done ++ [d] = a ++ (e1, k1 :: t1) :: b ++ (e2, k2 :: t2) :: c
              /\ (forall d, In d a -> headIs k1 d = false)
              /\ (forall d, In d (a ++ (e1, k1 :: t1) :: b) ->
                            headIs k2 d = false)) as Hold.
    { intros l3' E. destruct (IH _ _ _ _ _ E)
        as (e1 & t1 & e2 & t2 & a & b & c & -> & Ha & Hb).
      exists e1, t1, e2, t2, a, b, (c ++ [d]). split; [|auto].
      rewrite <- !app_assoc. cbn [app]. rewrite <- !app_assoc. reflexivity. }
    unfold addKey in Hk. destruct d as [e [|p t]]; cbn [snd] in Hk;
      [apply (Hold l3), Hk|].
    destruct (has JsObject.prototypeKeys p) eqn:Ep; cbn [orb] in Hk;
      [apply (Hold l3), Hk|].
    destruct (has (firstKeys done) p) eqn:Eh; [apply (Hold l3), Hk|].
    apply has_false in Eh.
    destruct l3 as [|x l3] using rev_ind.
    + change (l1 ++ k1 :: l2 ++ [k2]) with (l1 ++ (k1 :: l2) ++ [k2]) in Hk.
      rewrite app_assoc in Hk. apply app_inj_tail in Hk as [Hk ->].
      assert (In k1 (firstKeys done)) as H1
          by (rewrite Hk; apply in_or_app; right; now left).
      destruct (first_with_head done k1 H1) as (a & e1 & t1 & b & -> & Ha).
      exists e1, t1, e, t, a, b, []. split; [|split].
      * rewrite <- app_assoc. reflexivity.
      * exact Ha.
      * apply (no_head_absent _ k2 Ep Eh).
    + clear IHl3.
      replace (l1 ++ k1 :: l2 ++ k2 :: l3 ++ [x])
        with ((l1 ++ k1 :: l2 ++ k2 :: l3) ++ [x]) in Hk
        by (rewrite <- !app_assoc; cbn [app]; rewrite <- !app_assoc;
            reflexivity).
      apply app_inj_tail in Hk as [Hk _]. apply (Hold l3), Hk.
Qed.

End KeyOrder.

(* ===================================================================== *)
(** ** The order of siblings *)
(* ===================================================================== *)

(** C3, as stated, fails.  On the first archive the file [app.ts] comes
    before the folder [app], because [src/app.ts] sorts before
    [src/app/x.ts], although the path [src/app] sorts before
    [src/app.ts].  On the second the folder [9] comes before the folder
    [10], because [Object.values] lists array-index keys first and in
    numeric order, although [10/a.txt] sorts before [9/b.txt]. *)
Lemma siblings_not_in_path_order :
  (let entries := [fileEntry "src/app.ts" "a"; fileEntry "src/app/x.ts" "b"] in
   exists forest,
     buildFileTree byteCompare entries = Normal forest
     /\ map (fun n => (treePrefix byteCompare entries ++ path n)%string) forest
        = ["src/app.ts"; "src/app"]
     /\ byteCompare "src/app.ts" "src/app" = Gt)
  /\ (let entries := [fileEntry "10/a.txt" "a"; fileEntry "9/b.txt" "b"] in
      exists forest,
        map entryName (validEntries byteCompare entries)
        = ["10/a.txt"; "9/b.txt"]
        /\ buildFileTree byteCompare entries = Normal forest
        /\ map name forest = ["9"; "10"]
        /\ byteCompare "9" "10" = Gt
        /\ byteCompare "9/b.txt" "10/a.txt" = Gt).
Proof.
  cbv zeta. split; eexists; repeat split; vm_compute; reflexivity.
Qed.

Section SiblingOrder.

Variable localeCompare : string -> string -> comparison.

Lemma insertEntries_Ordered (commonPrefix : string) (l : list ZipEntry) :
  forall done root root',
    Ordered (tailsAt commonPrefix [] done) root ->
    insertEntries commonPrefix l root = Normal root' ->
    Ordered (tailsAt commonPrefix [] (done ++ l)) root'.
Proof.
  induction l as [|e l IH]; intros done root root' Hord; cbn [insertEntries].
  - intros [= <-]. now rewrite app_nil_r.
  - destruct (insertParts e (cleanParts commonPrefix e) 0
                          (cleanParts commonPrefix e) root)
      as [root1|err] eqn:E; cbn [bindC]; [|discriminate].
    intros Hrest.
    replace (done ++ e :: l) with ((done ++ [e]) ++ l)
      by (rewrite <- app_assoc; reflexivity).
    apply (IH (done ++ [e]) root1 root'); [|exact Hrest].
    rewrite tailsAt_root, map_app. cbn [map].
    rewrite <- tailsAt_root.
    apply (insertParts_Ordered e (cleanParts commonPrefix e) _ 0 _ root root1
             eq_refl Hord E).
Qed.

Lemma buildFileTree_Ordered (entries : list ZipEntry)
      (forest : list FileTreeNode) :
  buildFileTree localeCompare entries = Normal forest ->
  exists root,
    forest = convertToArray root
    /\ Ordered (tailsAt (treePrefix localeCompare entries) []
                        (validEntries localeCompare entries)) root.
Proof.
  rewrite buildFileTree_prefix.
  destruct (insertEntries _ _ _) as [root|err] eqn:E; cbn [bindC];
    [|discriminate].
  intros [= <-]. exists root. split; [reflexivity|].
  apply (insertEntries_Ordered _ _ [] [] root Ordered_empty E).
Qed.

Lemma convertItem_name (r : RawNode) : name (convertItem r) = r_name r.
Proof. destruct r; reflexivity. Qed.

Lemma In_convertToArray (n : FileTreeNode) (o : RawObject) :
  In n (convertToArray o) ->
  exists k node, In (k, node) o /\ n = convertItem node.
Proof.
  rewrite convertToArray_values. intros H.
  apply in_map_iff in H as (node & <- & H).
  apply (Permutation_in _ (values_perm o)) in H.
  apply in_map_iff in H as ([k node'] & <- & H).
  exists k, node'. auto.
Qed.

(** Every list of siblings is the conversion of a map whose keys are in
    the order in which the sorted entries first reached them. *)
Lemma siblings_Ordered (commonPrefix : string) (valid : list ZipEntry)
      (forest : list FileTreeNode) (q : list string)
      (sibs : list FileTreeNode) :
  SiblingsAt forest q sibs ->
  forall root,
    forest = convertToArray root ->
    Ordered (tailsAt commonPrefix [] valid) root ->
    exists o, sibs = convertToArray o
              /\ Ordered (tailsAt commonPrefix q valid) o.
Proof.
  induction 1 as [|q sibs n kids Hs IH Hn Hch]; intros root Hroot Hord.
  - exists root. auto.
  - destruct (IH root Hroot Hord) as (o & -> & Ho).
    apply In_convertToArray in Hn as (k & node & Hin & ->).
    rewrite convertItem_children in Hch.
    destruct (r_children node) as [below|] eqn:Eb; [|discriminate].
    injection Hch as <-.
    apply Ordered_inv in Ho as (_ & Hnames & Hkids).
    rewrite convertItem_name, (Hnames k node Hin).
    exists below. split; [reflexivity|].
    rewrite <- tailsOf_tailsAt. apply (Hkids k node below Hin Eb).
Qed.

(** Without array-index names a list of siblings is in the order of the
    keys. *)
Lemma siblings_names (commonPrefix : string) (valid : list ZipEntry)
      (q : list string) (o : RawObject) :
  (forall e p, In e valid -> In p (cleanParts commonPrefix e) ->
               JsObject.isArrayIndex p = false) ->
  Ordered (tailsAt commonPrefix q valid) o ->
  map name (convertToArray o) = firstKeys (tailsAt commonPrefix q valid).
Proof.
  intros Hno Ho. apply Ordered_inv in Ho as (Hkeys & Hnames & _).
  rewrite convertToArray_values. unfold JsObject.values.
  rewrite entries_creation_order.
  - rewrite <- Hkeys, !map_map. apply map_ext_in.
    intros [k node] Hin. cbn [fst snd].
    rewrite convertItem_name. apply (Hnames k node Hin).
  - intros [k node] Hin. cbn [fst].
    destruct (firstKeys_facts (tailsAt commonPrefix q valid))
      as (_ & _ & _ & Hfrom).
    destruct (Hfrom k) as (e & t & Hd);
      [rewrite <- Hkeys; apply (In_keys _ _ _ Hin)|].
    apply tailsAt_In in Hd as [He Hdrop].
    apply (Hno e k He).
    apply (dropPrefix_In _ _ _ k Hdrop). now left.
Qed.

Hypothesis consistent : consistentCompare localeCompare.

(** C3, amended: in the returned forest the siblings at every level
    appear in the order in which the sorted retained entries first reach
    them, which is the ascending order, under the comparator of the sort,
    of the full original path of the first retained entry at or below
    each sibling.  (Stated for archives none of whose path segments is an
    array index.) *)
Theorem siblings_in_entry_order (entries : list ZipEntry)
        (forest : list FileTreeNode) :
  noArrayIndex entries ->
  buildFileTree localeCompare entries = Normal forest ->
  forall q sibs n1 n2,
    SiblingsAt forest q sibs ->
    comesBefore n1 n2 sibs ->
    exists e1 e2,
      firstBelow (treePrefix localeCompare entries)
                 (validEntries localeCompare entries) (q ++ [name n1])
      = Some e1
      /\ firstBelow (treePrefix localeCompare entries)
                    (validEntries localeCompare entries) (q ++ [name n2])
         = Some e2
      /\ comesBefore e1 e2 (validEntries localeCompare entries)
      /\ localeCompare (entryName e1) (entryName e2) <> Gt.
Proof.
  intros Hno Hb q sibs n1 n2 Hs (l1 & l2 & l3 & Hsibs).
  set (prefix := treePrefix localeCompare entries) in *.
  set (valid := validEntries localeCompare entries) in *.
  destruct (buildFileTree_Ordered entries forest Hb) as (root & Hroot & Hord).
  destruct (siblings_Ordered prefix valid forest q sibs Hs root Hroot Hord)
    as (o & Ho & Hlevel).
  assert (forall e p, In e valid -> In p (cleanParts prefix e) ->
                      JsObject.isArrayIndex p = false) as Hno'.
  { intros e p He Hp. apply validEntries_In in He as [He _].
    apply (Hno e p He). apply (cleanParts_incl _ e p Hp). }
  pose proof (siblings_names prefix valid q o Hno' Hlevel) as Hnames.
  rewrite <- Ho, Hsibs in Hnames.
  rewrite map_app in Hnames. cbn [map] in Hnames.
  rewrite map_app in Hnames. cbn [map] in Hnames.
  destruct (firstKeys_order _ _ _ _ _ _ (eq_sym Hnames))
    as (e1 & t1 & e2 & t2 & a & b & c & Hcut & Ha & Hb').
  destruct (firsts_of_level prefix q valid _ _ _ _ _ _ _ _ _ Hcut Ha Hb')
    as (F1 & F2 & Hbefore).
  exists e1, e2. repeat split; [exact F1 | exact F2 | exact Hbefore |].
  apply (sorted_comesBefore localeCompare valid e1 e2
           (validEntries_sorted localeCompare consistent entries) Hbefore).
Qed.

End SiblingOrder.

Lemma siblings_in_entry_order_witness :
  exists e1 e2,
    firstBelow (treePrefix byteCompare (scenario 1 (Normal "x")))
               (validEntries byteCompare (scenario 1 (Normal "x")))
               (["src"] ++ ["a.py"]) = Some e1
    /\ firstBelow (treePrefix byteCompare (scenario 1 (Normal "x")))
                  (validEntries byteCompare (scenario 1 (Normal "x")))
                  (["src"] ++ ["b.txt"]) = Some e2
    /\ comesBefore e1 e2 (validEntries byteCompare (scenario 1 (Normal "x")))
    /\ byteCompare (entryName e1) (entryName e2) <> Gt.
Proof.
  apply (siblings_in_entry_order byteCompare byteCompare_consistent
           (scenario 1 (Normal "x")) scenarioTree)
    with (sibs := [mkNode "a.py" "src/a.py" file (Some 9%Z) (Some ".py") None;
                   mkNode "b.txt" "src/b.txt" file (Some 0%Z) (Some ".txt")
                          None])
         (n1 := mkNode "a.py" "src/a.py" file (Some 9%Z) (Some ".py") None)
         (n2 := mkNode "b.txt" "src/b.txt" file (Some 0%Z) (Some ".txt") None).
  - intros e p [<-|[<-|[<-|[]]]] Hp; vm_compute in Hp;
      repeat (destruct Hp as [<-|Hp]; [reflexivity|]); destruct Hp.
  - vm_compute. reflexivity.
  - apply (Siblings_below scenarioTree [] scenarioTree
             (mkNode "src" "src" folder None None
                (Some [mkNode "a.py" "src/a.py" file (Some 9%Z) (Some ".py")
                              None;
                       mkNode "b.txt" "src/b.txt" file (Some 0%Z)
                              (Some ".txt") None]))).
    + apply Siblings_root.
    + left. reflexivity.
    + reflexivity.
  - exists [], [], []. reflexivity.
Defined.

(* ===================================================================== *)
(** * Further properties of the pipeline *)
(* ===================================================================== *)

(* ===================================================================== *)
(** ** The ignore test, segment by segment *)
(* ===================================================================== *)

Lemma split_app_slash (a b : string) :
  split "/" (a ++ "/" ++ b) = split "/" a ++ split "/" b.
Proof.
  induction a as [|c a IH]; [reflexivity|].
  cbn [append split]. destruct (Ascii.eqb c "/").
  - change (a ++ String "/" b)%string with (a ++ "/" ++ b)%string.
    rewrite IH. reflexivity.
  - change (a ++ String "/" b)%string with (a ++ "/" ++ b)%string.
    rewrite IH. pose proof (split_not_nil "/" a) as Hne.
    destruct (split "/" a); [congruence | reflexivity].
Qed.

(** X1: a path made of two paths joined by a slash is ignored exactly
    when one of the two is; so everything below an ignored path is
    ignored, and so is everything an ignored path is appended to. *)
Theorem shouldIgnore_joined (a b : string) :
  shouldIgnore (a ++ "/" ++ b) = shouldIgnore a || shouldIgnore b.
Proof.
  unfold shouldIgnore. cbv zeta. rewrite split_app_slash. apply existsb_app.
Qed.

(* ===================================================================== *)
(** ** What the nodes of a tree record *)
(* ===================================================================== *)

Section NodeRecords.

Lemma recordOf_invariant (commonPrefix : string) (valid : list ZipEntry)
      (entry : ZipEntry) :
  In entry valid ->
  InsertInvariant (recordOf commonPrefix valid) (fun _ => True)
                  entry (cleanParts commonPrefix entry).
Proof.
  intros Hin. constructor.
  - intros index part Hskip. unfold recordOf, newNode.
    cbn [r_type r_children r_extension r_name r_size r_path].
    rewrite (last_index_iff _ _ _ _ Hskip). cbn [andb].
    destruct (isDirectory entry) eqn:Hd; cbn [negb].
    + repeat split; congruence.
    + repeat split. exists entry. repeat split; auto.
      pose proof (skipn_cons_length _ _ _ _ Hskip) as Hlen. cbn in Hlen.
      replace (index + 1) with (List.length (cleanParts commonPrefix entry))
        by lia.
      now rewrite firstn_all.
  - intros index part rest' below Hskip Hne _.
    unfold recordOf, withChildren, newNode.
    cbn [r_type r_children r_extension r_name r_size r_path].
    rewrite (last_index_iff _ _ _ _ Hskip).
    destruct rest'; [congruence|]. cbn [andb]. repeat split. discriminate.
  - intros node below Hq Hch _. unfold recordOf, withChildren in *.
    cbn [r_type r_children r_extension r_name r_size r_path].
    destruct (r_type node).
    + destruct Hq as (Hnone & _). congruence.
    + destruct Hq as (_ & Hs & He). repeat split; auto. discriminate.
  - trivial.
Qed.

Variable localeCompare : string -> string -> comparison.

(** X2: in a returned tree a file node has no children, carries the
    lower-cased extension of its name, and stands for a retained file
    entry whose size and stripped path it records; a folder node has a
    children array and neither size nor extension. *)
Theorem nodes_record_entries (entries : list ZipEntry)
        (forest : list FileTreeNode) :
  buildFileTree localeCompare entries = Normal forest ->
  forall n, Occurs n forest ->
    match type n with
    | file =>
        children n = None
        /\ extension n = Some (getFileExtension (name n))
        /\ exists e, In e entries
                     /\ shouldIgnore (entryName e) = false
                     /\ isDirectory e = false
                     /\ size n = Some (headerSize e)
                     /\ path n
                        = join "/" (cleanParts
                                      (treePrefix localeCompare entries) e)
    | folder =>
        (exists kids, children n = Some kids)
        /\ size n = None /\ extension n = None
    end.
Proof.
  intros Hb n Hn.
  destruct (buildFileTree_AllRaw localeCompare
              (recordOf (treePrefix localeCompare entries)
                        (validEntries localeCompare entries))
              (fun _ => True) entries forest
              (fun e He => recordOf_invariant _ _ e He) Hb n Hn)
    as (r & Hr & ->).
  unfold recordOf in Hr. rewrite convertItem_children.
  destruct r as [nm p t s ex ch].
  cbn [convertItem type name size extension path r_type r_children
       r_extension r_name r_size r_path] in *.
  destruct t.
  - destruct Hr as (Hc & He & e & Hin & Hd & Hs & Hp).
    rewrite Hc. repeat split; auto.
    exists e. apply validEntries_In in Hin as [Hin Hk]. auto.
  - destruct Hr as (Hc & Hs & He). repeat split; auto.
    destruct ch as [below|]; [eauto | congruence].
Qed.

(** X3: no node of a returned tree lies on an ignored path: neither its
    path nor its name is ignored, its name is not empty, and its name is
    the last segment of its path. *)
Theorem nodes_are_not_ignored (entries : list ZipEntry)
        (forest : list FileTreeNode) :
  buildFileTree localeCompare entries = Normal forest ->
  forall n, Occurs n forest ->
    shouldIgnore (path n) = false
    /\ shouldIgnore (name n) = false
    /\ name n <> EmptyString
    /\ Forall (fun seg => seg <> EmptyString) (split "/" (path n))
    /\ name n = last (split "/" (path n)) EmptyString.
Proof.
  intros Hb n Hn.
  destruct (buildFileTree_AllRaw localeCompare visibleRaw (fun _ => True)
              entries forest
              (fun e He => visible_invariant e _
                             (validEntries_kept localeCompare _ e He))
              Hb n Hn) as (r & (ps & Hne & Hall & Hpath & Hname) & ->).
  assert (split "/" (path (convertItem r)) = ps) as Hsplit.
  { destruct r; cbn [convertItem path r_path] in *. rewrite Hpath.
    apply split_join; [exact Hne|].
    apply (Forall_impl _ (fun p (H : keptSegment p) => proj1 (proj2 H)) Hall). }
  assert (keptSegment (name (convertItem r))) as Hk.
  { rewrite convertItem_name, Hname.
    destruct (exists_last Hne) as (l' & a & E). rewrite E in *.
    rewrite last_last. apply Forall_app in Hall as [_ Hd]. now inversion Hd. }
  destruct Hk as (Hk1 & Hk2 & Hk3).
  repeat split.
  - unfold shouldIgnore. cbv zeta. rewrite Hsplit.
    destruct (existsb ignoredPart ps) eqn:E; [|reflexivity].
    apply existsb_exists in E as (p & Hp & Hi).
    rewrite Forall_forall in Hall. destruct (Hall p Hp) as (Hf & _).
    congruence.
  - unfold shouldIgnore. cbv zeta. rewrite (split_noSlash_word _ Hk2).
    cbn [existsb]. rewrite Hk1. reflexivity.
  - exact Hk3.
  - rewrite Hsplit.
    apply (Forall_impl _ (fun p (H : keptSegment p) => proj2 (proj2 H)) Hall).
  - rewrite Hsplit, convertItem_name. exact Hname.
Qed.

End NodeRecords.

Lemma nodes_record_entries_witness :
  buildFileTree byteCompare (scenario 1 (Normal "x")) = Normal scenarioTree
  /\ Occurs scenarioA scenarioTree
  /\ children scenarioA = None
  /\ extension scenarioA = Some (getFileExtension (name scenarioA))
  /\ exists e,
       In e (scenario 1 (Normal "x"))
       /\ shouldIgnore (entryName e) = false
       /\ isDirectory e = false
       /\ size scenarioA = Some (headerSize e)
       /\ path scenarioA
          = join "/" (cleanParts
                        (treePrefix byteCompare (scenario 1 (Normal "x"))) e).
Proof.
  assert (Occurs scenarioA scenarioTree) as Ho.
  { apply (Occurs_below scenarioA scenarioTree scenarioSrc
             [scenarioA; scenarioB]);
      [left; reflexivity | reflexivity |].
    apply Occurs_here. left. reflexivity. }
  split; [vm_compute; reflexivity|]. split; [exact Ho|].
  apply (nodes_record_entries byteCompare (scenario 1 (Normal "x"))
           scenarioTree ltac:(vm_compute; reflexivity) scenarioA Ho).
Defined.

Lemma nodes_are_not_ignored_witness :
  buildFileTree byteCompare (scenario 1 (Normal "x")) = Normal scenarioTree
  /\ forall n, Occurs n scenarioTree ->
       shouldIgnore (path n) = false
       /\ shouldIgnore (name n) = false
       /\ name n <> EmptyString
       /\ Forall (fun seg => seg <> EmptyString) (split "/" (path n))
       /\ name n = last (split "/" (path n)) EmptyString.
Proof.
  split; [vm_compute; reflexivity|].
  apply (nodes_are_not_ignored byteCompare (scenario 1 (Normal "x"))
           scenarioTree).
  vm_compute. reflexivity.
Defined.

(* ===================================================================== *)
(** ** Names, paths and positions *)
(* ===================================================================== *)

Section Positions.

Lemma Positioned_inv (q : list string) (o : RawObject) :
  Positioned q o ->
  (forall k node, In (k, node) o ->
                  r_name node = k /\ r_path node = join "/" (q ++ [k]))
  /\ (forall k node below,
         In (k, node) o -> r_children node = Some below ->
         Positioned (q ++ [k]) below).
Proof. intros H. inversion H; subst. auto. Qed.

Lemma Positioned_empty (q : list string) : Positioned q [].
Proof. constructor; intros; contradiction. Qed.

Lemma firstn_S_skipn (parts : list string) (index : nat) (part : string)
      (rest' : list string) :
  skipn index parts = part :: rest' ->
  firstn (S index) parts = firstn index parts ++ [part].
Proof.
  intros H. rewrite <- (skipn_cons_firstn _ _ _ _ H). f_equal. lia.
Qed.

Lemma insertParts_Positioned (entry : ZipEntry) (parts : list string)
      (rest : list string) :
  forall index o o',
    skipn index parts = rest ->
    Positioned (firstn index parts) o ->
    insertParts entry parts index rest o = Normal o' ->
    Positioned (firstn index parts) o'.
Proof.
  induction rest as [|part rest' IH]; intros index o o' Hskip Hpos.
  - now intros [= <-].
  - rewrite (insertParts_step _ _ _ _ _ _ Hskip).
    pose proof (skipn_cons_next _ _ _ _ Hskip) as Hnext.
    pose proof (firstn_S_skipn _ _ _ _ Hskip) as HS.
    pose proof Hpos as Hpos0.
    apply Positioned_inv in Hpos as (Hnp & Hkids).
    assert (forall v,
               r_name v = part ->
               r_path v = join "/" (firstn index parts ++ [part]) ->
               (forall below, r_children v = Some below ->
                              Positioned (firstn (S index) parts) below) ->
               Positioned (firstn index parts) (JsObject.set o part v))
      as Hset.
    { intros v Hn Hp Hb. constructor.
      - intros k node Hin. apply In_set in Hin as [[-> ->]|Hin];
          [auto | apply (Hnp k node Hin)].
      - intros k node below Hin Hch.
        apply In_set in Hin as [[-> ->]|Hin].
        + rewrite <- HS. apply (Hb below Hch).
        + apply (Hkids k node below Hin Hch). }
    assert (r_path (newNode entry parts index part)
            = join "/" (firstn index parts ++ [part])) as Hnewpath
        by (cbn [newNode r_path]; now rewrite (skipn_cons_firstn _ _ _ _ Hskip)).
    destruct rest' as [|part' rest''].
    + destruct (JsObject.get o part) eqn:G; intros [= <-]; auto.
      apply Hset; [reflexivity | exact Hnewpath |].
      intros below Hb. apply newNode_children in Hb as ->.
      apply Positioned_empty.
    + destruct (JsObject.get o part) as [|node|] eqn:G; [| |discriminate].
      * destruct (insertParts entry parts (S index) (part' :: rest'') [])
          as [below'|err] eqn:E; cbn [bindC]; [|discriminate].
        intros [= <-]. apply Hset; [reflexivity | exact Hnewpath |].
        intros below [= <-].
        apply (IH (S index) [] below' Hnext (Positioned_empty _) E).
      * apply get_Own_In in G. destruct (Hnp part node G) as [Hn Hp].
        destruct (r_children node) as [below|] eqn:Ec; [|discriminate].
        destruct (insertParts entry parts (S index) (part' :: rest'') below)
          as [below'|err] eqn:E; cbn [bindC]; [|discriminate].
        intros [= <-]. apply Hset; [exact Hn | exact Hp |].
        intros below0 [= <-].
        apply (IH (S index) below below' Hnext); [|exact E].
        rewrite HS. apply (Hkids part node below G Ec).
Qed.

Lemma insertEntries_Positioned (commonPrefix : string) (l : list ZipEntry) :
  forall root root',
    Positioned [] root ->
    insertEntries commonPrefix l root = Normal root' ->
    Positioned [] root'.
Proof.
  induction l as [|e l IH]; intros root root' Hpos; cbn [insertEntries].
  - now intros [= <-].
  - destruct (insertParts e (cleanParts commonPrefix e) 0
                          (cleanParts commonPrefix e) root)
      as [root1|err] eqn:E; cbn [bindC]; [|discriminate].
    apply IH.
    apply (insertParts_Positioned e (cleanParts commonPrefix e) _ 0 root root1
             eq_refl Hpos E).
Qed.

Lemma siblings_Positioned (forest : list FileTreeNode) (q : list string)
      (sibs : list FileTreeNode) :
  SiblingsAt forest q sibs ->
  forall root,
    forest = convertToArray root -> Positioned [] root ->
    exists o, sibs = convertToArray o /\ Positioned q o.
Proof.
  induction 1 as [|q sibs n kids Hs IH Hn Hch]; intros root Hroot Hpos.
  - exists root. auto.
  - destruct (IH root Hroot Hpos) as (o & -> & Ho).
    apply In_convertToArray in Hn as (k & node & Hin & ->).
    rewrite convertItem_children in Hch.
    destruct (r_children node) as [below|] eqn:Eb; [|discriminate].
    injection Hch as <-.
    apply Positioned_inv in Ho as (Hnp & Hkids).
    destruct (Hnp k node Hin) as [Hname _].
    rewrite convertItem_name, Hname.
    exists below. split; [reflexivity|]. apply (Hkids k node below Hin Eb).
Qed.

Lemma convertItem_path (r : RawNode) : path (convertItem r) = r_path r.
Proof. destruct r; reflexivity. Qed.

Variable localeCompare : string -> string -> comparison.

Lemma node_path_from_root (entries : list ZipEntry)
        (forest : list FileTreeNode) :
  buildFileTree localeCompare entries = Normal forest ->
  forall q sibs n,
    SiblingsAt forest q sibs -> In n sibs ->
    path n = join "/" (q ++ [name n]).
Proof.
  intros Hb q sibs n Hs Hn. rewrite buildFileTree_prefix in Hb.
  destruct (insertEntries _ _ _) as [root|err] eqn:E; cbn [bindC] in Hb;
    [|discriminate].
  injection Hb as <-.
  pose proof (insertEntries_Positioned _ _ [] root (Positioned_empty []) E)
    as Hpos.
  destruct (siblings_Positioned _ q sibs Hs root eq_refl Hpos)
    as (o & -> & Ho).
  apply In_convertToArray in Hn as (k & node & Hin & ->).
  apply Positioned_inv in Ho as (Hnp & _).
  destruct (Hnp k node Hin) as [Hname Hpath].
  rewrite convertItem_path, convertItem_name, Hname. exact Hpath.
Qed.

(** X4: the path of a node is the path of its parent, a slash and its
    name, and the path of a root is its name: a node reached from a root
    by the names [q] and then its own name has these names joined by
    slashes as its path. *)
Theorem path_is_names_from_root (entries : list ZipEntry)
        (forest : list FileTreeNode) :
  buildFileTree localeCompare entries = Normal forest ->
  forall q sibs n,
    SiblingsAt forest q sibs -> In n sibs ->
    path n = join "/" (q ++ [name n])
    /\ (q = [] -> path n = name n)
    /\ (forall parent above m,
          q = above ++ [name parent] -> SiblingsAt forest above m ->
          In parent m ->
          path n = (path parent ++ "/" ++ name n)%string).
Proof.
  intros Hb q sibs n Hs Hn.
  pose proof (node_path_from_root entries forest Hb q sibs n Hs Hn) as Hp.
  split; [exact Hp|]. split.
  - intros ->. exact Hp.
  - intros parent above m -> Hm Hin.
    rewrite Hp, (node_path_from_root entries forest Hb above m parent Hm Hin).
    generalize (above ++ [name parent]) (app_cons_not_nil above [] (name parent)).
    intros l Hl. induction l as [|x l IH]; [congruence|].
    destruct l as [|y l]; [reflexivity|].
    change (join "/" ((x :: y :: l) ++ [name n]))
      with (x ++ "/" ++ join "/" ((y :: l) ++ [name n]))%string.
    rewrite IH by discriminate.
    change (join "/" (x :: y :: l)) with (x ++ "/" ++ join "/" (y :: l))%string.
    now rewrite !append_assoc.
Qed.

Lemma names_are_keys (o : RawObject) :
  (forall k node, In (k, node) o -> r_name node = k) ->
  Permutation (map name (convertToArray o)) (map fst o).
Proof.
  intros Hnames. rewrite convertToArray_values. unfold JsObject.values.
  rewrite !map_map.
  rewrite (Permutation_map _ (entries_perm o)).
  erewrite map_ext_in; [apply Permutation_refl|].
  intros [k node] Hin. cbn [fst snd].
  rewrite convertItem_name. apply (Hnames k node Hin).
Qed.

(** The names of the siblings of a level are pairwise distinct. *)
Lemma siblings_distinct (entries : list ZipEntry) (forest : list FileTreeNode) :
  buildFileTree localeCompare entries = Normal forest ->
  forall q sibs, SiblingsAt forest q sibs -> NoDup (map name sibs).
Proof.
  intros Hb q sibs Hs.
  destruct (buildFileTree_Ordered localeCompare entries forest Hb)
    as (root & Hroot & Hord).
  destruct (siblings_Ordered _ _ forest q sibs Hs root Hroot Hord)
    as (o & -> & Ho).
  apply Ordered_inv in Ho as (Hkeys & Hnames & _).
  apply (Permutation_NoDup (Permutation_sym (names_are_keys o Hnames))).
  rewrite Hkeys.
  apply (proj1 (proj2 (firstKeys_facts _))).
Qed.

Lemma NoDup_names_same (sibs : list FileTreeNode) :
  NoDup (map name sibs) ->
  forall n1 n2, In n1 sibs -> In n2 sibs -> name n1 = name n2 -> n1 = n2.
Proof.
  induction sibs as [|m sibs IH]; intros Hnd n1 n2 H1 H2 E; [destruct H1|].
  cbn [map] in Hnd. apply NoDup_cons_iff in Hnd as [Hm Hnd].
  destruct H1 as [<-|H1], H2 as [<-|H2].
  - reflexivity.
  - destruct Hm. rewrite E. apply in_map, H2.
  - destruct Hm. rewrite <- E. apply in_map, H1.
  - apply (IH Hnd n1 n2 H1 H2 E).
Qed.

(** X5: no two siblings of a returned tree have the same name: siblings
    with one name are one node. *)
Theorem sibling_names_are_distinct (entries : list ZipEntry)
        (forest : list FileTreeNode) :
  buildFileTree localeCompare entries = Normal forest ->
  forall q sibs,
    SiblingsAt forest q sibs ->
    NoDup (map name sibs)
    /\ forall n1 n2, In n1 sibs -> In n2 sibs -> name n1 = name n2 -> n1 = n2.
Proof.
  intros Hb q sibs Hs.
  pose proof (siblings_distinct entries forest Hb q sibs Hs) as Hnd.
  split; [exact Hnd | apply (NoDup_names_same sibs Hnd)].
Qed.

End Positions.

Lemma path_is_names_from_root_witness :
  buildFileTree byteCompare (scenario 1 (Normal "x")) = Normal scenarioTree
  /\ SiblingsAt scenarioTree ["src"] [scenarioA; scenarioB]
  /\ path scenarioB = join "/" (["src"] ++ [name scenarioB])
  /\ path scenarioB = (path scenarioSrc ++ "/" ++ name scenarioB)%string.
Proof.
  assert (SiblingsAt scenarioTree ["src"] [scenarioA; scenarioB]) as Hs.
  { apply (Siblings_below scenarioTree [] scenarioTree scenarioSrc
             [scenarioA; scenarioB]);
      [apply Siblings_root | left; reflexivity | reflexivity]. }
  split; [vm_compute; reflexivity|]. split; [exact Hs|].
  destruct (path_is_names_from_root byteCompare (scenario 1 (Normal "x"))
              scenarioTree ltac:(vm_compute; reflexivity)
              ["src"] [scenarioA; scenarioB] scenarioB Hs
              ltac:(right; left; reflexivity)) as (H1 & _ & H3).
  split; [exact H1|].
  apply (H3 scenarioSrc [] scenarioTree);
    [reflexivity | apply Siblings_root | left; reflexivity].
Defined.

Lemma sibling_names_are_distinct_witness :
  buildFileTree byteCompare (scenario 1 (Normal "x")) = Normal scenarioTree
  /\ SiblingsAt scenarioTree ["src"] [scenarioA; scenarioB]
  /\ NoDup (map name [scenarioA; scenarioB])
  /\ forall n1 n2,
       In n1 [scenarioA; scenarioB] -> In n2 [scenarioA; scenarioB] ->
       name n1 = name n2 -> n1 = n2.
Proof.
  assert (SiblingsAt scenarioTree ["src"] [scenarioA; scenarioB]) as Hs.
  { apply (Siblings_below scenarioTree [] scenarioTree scenarioSrc
             [scenarioA; scenarioB]);
      [apply Siblings_root | left; reflexivity | reflexivity]. }
  split; [vm_compute; reflexivity|]. split; [exact Hs|].
  apply (sibling_names_are_distinct byteCompare (scenario 1 (Normal "x"))
           scenarioTree ltac:(vm_compute; reflexivity)
           ["src"] [scenarioA; scenarioB] Hs).
Defined.

Section UniquePaths.

Lemma Occurs_step (m n : FileTreeNode) (forest kids : list FileTreeNode) :
  Occurs m forest -> children m = Some kids -> In n kids -> Occurs n forest.
Proof.
  intros Hm Hch Hn.
  induction Hm as [forest Hin | forest m' kids' Hin Hch' Hocc IH].
  - apply (Occurs_below n forest m kids Hin Hch).
    apply Occurs_here, Hn.
  - apply (Occurs_below n forest m' kids' Hin Hch'). apply IH.
Qed.

Lemma siblings_Occurs (forest : list FileTreeNode) (q : list string)
      (sibs : list FileTreeNode) :
  SiblingsAt forest q sibs -> forall n, In n sibs -> Occurs n forest.
Proof.
  induction 1 as [|q sibs m kids Hs IH Hm Hch]; intros n Hn.
  - apply Occurs_here, Hn.
  - apply (Occurs_step m n forest kids (IH m Hm) Hch Hn).
Qed.

Lemma join_injective (l1 l2 : list string) :
  l1 <> [] -> l2 <> [] -> Forall noSlash l1 -> Forall noSlash l2 ->
  join "/" l1 = join "/" l2 -> l1 = l2.
Proof.
  intros N1 N2 H1 H2 E.
  rewrite <- (split_join l1 N1 H1), <- (split_join l2 N2 H2). now rewrite E.
Qed.

Variable localeCompare : string -> string -> comparison.

Lemma node_name_noSlash (entries : list ZipEntry) (forest : list FileTreeNode) :
  buildFileTree localeCompare entries = Normal forest ->
  forall n, Occurs n forest -> noSlash (name n).
Proof.
  intros Hb n Hn.
  destruct (buildFileTree_AllRaw localeCompare visibleRaw (fun _ => True)
              entries forest
              (fun e He => visible_invariant e _
                             (validEntries_kept localeCompare _ e He))
              Hb n Hn) as (r & (ps & Hne & Hall & Hpath & Hname) & ->).
  rewrite convertItem_name, Hname.
  destruct (exists_last Hne) as (l' & a & E). rewrite E in *.
  rewrite last_last. apply Forall_app in Hall as [_ Hd].
  inversion Hd as [|? ? (_ & Hns & _) _]. exact Hns.
Qed.

Lemma siblings_position_noSlash (entries : list ZipEntry)
      (forest : list FileTreeNode) :
  buildFileTree localeCompare entries = Normal forest ->
  forall q sibs, SiblingsAt forest q sibs -> Forall noSlash q.
Proof.
  intros Hb q sibs Hs.
  induction Hs as [|q sibs m kids Hs IH Hm Hch]; [constructor|].
  apply Forall_app. split; [exact IH|]. constructor; [|constructor].
  apply (node_name_noSlash entries forest Hb).
  apply (siblings_Occurs forest q sibs Hs m Hm).
Qed.

(** The names from a root down determine the list of siblings. *)
Lemma siblings_functional (entries : list ZipEntry)
      (forest : list FileTreeNode) :
  buildFileTree localeCompare entries = Normal forest ->
  forall q s1, SiblingsAt forest q s1 ->
  forall s2, SiblingsAt forest q s2 -> s1 = s2.
Proof.
  intros Hb q s1 H1.
  induction H1 as [|q s1 n1 k1 H1 IH Hn1 Hc1]; intros s2 H2.
  - inversion H2 as [|q' s' n' k' _ _ _ Hq]; [reflexivity|].
    destruct q'; discriminate.
  - inversion H2 as [Hq|q' s' n' k' H2' Hn2 Hc2 Hq].
    + destruct q; discriminate.
    + apply app_inj_tail in Hq as [-> Hname]. subst.
      pose proof (IH s' H2') as <-.
      pose proof (NoDup_names_same s1
                    (siblings_distinct localeCompare entries forest Hb q s1 H1)
                    n' n1 Hn2 Hn1 Hname) as ->.
      congruence.
Qed.

(** X6: the path of a node is its own in the whole tree: two nodes with
    one path stand at one place and are one node. *)
Theorem paths_are_unique (entries : list ZipEntry)
        (forest : list FileTreeNode) :
  buildFileTree localeCompare entries = Normal forest ->
  forall q1 s1 n1 q2 s2 n2,
    SiblingsAt forest q1 s1 -> In n1 s1 ->
    SiblingsAt forest q2 s2 -> In n2 s2 ->
    path n1 = path n2 ->
    q1 = q2 /\ s1 = s2 /\ n1 = n2.
Proof.
  intros Hb q1 s1 n1 q2 s2 n2 H1 I1 H2 I2 E.
  rewrite (node_path_from_root localeCompare entries forest Hb q1 s1 n1 H1 I1),
    (node_path_from_root localeCompare entries forest Hb q2 s2 n2 H2 I2) in E.
  assert (forall q s n, SiblingsAt forest q s -> In n s ->
                        Forall noSlash (q ++ [name n])) as Hns.
  { intros q s n Hs Hn. apply Forall_app. split.
    - apply (siblings_position_noSlash entries forest Hb q s Hs).
    - constructor; [|constructor].
      apply (node_name_noSlash entries forest Hb).
      apply (siblings_Occurs forest q s Hs n Hn). }
  apply join_injective in E;
    [ | intros X; destruct q1; discriminate
      | intros X; destruct q2; discriminate
      | apply (Hns q1 s1 n1 H1 I1) | apply (Hns q2 s2 n2 H2 I2) ].
  apply app_inj_tail in E as [-> Hname].
  pose proof (siblings_functional entries forest Hb q2 s1 H1 s2 H2) as ->.
  repeat split.
  apply (NoDup_names_same s2
           (siblings_distinct localeCompare entries forest Hb q2 s2 H2)
           n1 n2 I1 I2 Hname).
Qed.

End UniquePaths.

Lemma paths_are_unique_witness :
  buildFileTree byteCompare (scenario 1 (Normal "x")) = Normal scenarioTree
  /\ SiblingsAt scenarioTree ["src"] [scenarioA; scenarioB]
  /\ forall q s n,
       SiblingsAt scenarioTree q s -> In n s -> path n = path scenarioA ->
       q = ["src"] /\ s = [scenarioA; scenarioB] /\ n = scenarioA.
Proof.
  assert (SiblingsAt scenarioTree ["src"] [scenarioA; scenarioB]) as Hs.
  { apply (Siblings_below scenarioTree [] scenarioTree scenarioSrc
             [scenarioA; scenarioB]);
      [apply Siblings_root | left; reflexivity | reflexivity]. }
  split; [vm_compute; reflexivity|]. split; [exact Hs|].
  intros q s n Hq Hn Hp.
  apply (paths_are_unique byteCompare (scenario 1 (Normal "x"))
           scenarioTree ltac:(vm_compute; reflexivity)
           q s n ["src"] [scenarioA; scenarioB] scenarioA Hq Hn Hs
           ltac:(left; reflexivity) Hp).
Defined.

(* ===================================================================== *)
(** ** Folders without children, exactly *)
(* ===================================================================== *)

Section Reaching.

Lemma getOwn_set_other {V : Type} (o : JsObject.t V) (k k' : string)
      (v : V) :
  k' <> k ->
  JsObject.getOwn (JsObject.set o k v) k' = JsObject.getOwn o k'.
Proof.
  intros Hne. induction o as [|[k0 v0] o IH];
    cbn [JsObject.set JsObject.getOwn].
  - destruct (String.eqb_spec k k'); [congruence | reflexivity].
  - destruct (String.eqb_spec k0 k) as [->|Hk]; cbn [JsObject.getOwn].
    + destruct (String.eqb_spec k k'); [congruence | reflexivity].
    + now rewrite IH.
Qed.

Lemma ReachesNode_not_nil (ps : list string) (o : RawObject) (r : RawNode) :
  ReachesNode ps o r -> ps <> [].
Proof. intros H. destruct H; discriminate. Qed.

(** A walk that returns has made or found the nodes of its segments. *)
Lemma insertParts_reaches (entry : ZipEntry) (parts : list string)
      (rest : list string) :
  forall index current current',
    rest <> [] -> skipn index parts = rest -> plainNames rest ->
    insertParts entry parts index rest current = Normal current' ->
    exists r, ReachesNode rest current' r.
Proof.
  induction rest as [|part rest' IH]; intros index current current' Hne Hskip
                                             Hplain Hrun; [congruence|].
  rewrite (insertParts_step _ _ _ _ _ _ Hskip) in Hrun.
  assert (has JsObject.prototypeKeys part = false) as Hp
      by (apply Hplain; now left).
  destruct rest' as [|part' rest''].
  - destruct (get_cases current part)
      as [(G & _ & _)|[(v & G & Hv)|(G & _ & Hi)]]; rewrite G in Hrun.
    + injection Hrun as <-. eexists. apply Reaches_last, getOwn_set_same.
    + injection Hrun as <-. exists v. apply Reaches_last, Hv.
    + congruence.
  - assert (plainNames (part' :: rest'')) as Hplain'
        by (intros x Hx; apply Hplain; now right).
    pose proof (skipn_cons_next _ _ _ _ Hskip) as Hskip'.
    destruct (get_cases current part)
      as [(G & _ & _)|[(v & G & Hv)|(G & _ & Hi)]]; rewrite G in Hrun.
    + destruct (insertParts entry parts (S index) (part' :: rest'') [])
        as [below'|err] eqn:E; cbn [bindC] in Hrun; [|discriminate].
      injection Hrun as <-.
      destruct (IH (S index) [] below' ltac:(discriminate) Hskip' Hplain' E)
        as (r & Hr).
      exists r.
      apply (Reaches_step part (part' :: rest'') _
               (withChildren (newNode entry parts index part) below')
               below' r);
        [apply getOwn_set_same | reflexivity | exact Hr].
    + destruct (r_children v) as [below|] eqn:Eb; [|discriminate].
      destruct (insertParts entry parts (S index) (part' :: rest'') below)
        as [below'|err] eqn:E; cbn [bindC] in Hrun; [|discriminate].
      injection Hrun as <-.
      destruct (IH (S index) below below' ltac:(discriminate) Hskip' Hplain' E)
        as (r & Hr).
      exists r.
      apply (Reaches_step part (part' :: rest'') _ (withChildren v below')
               below' r);
        [apply getOwn_set_same | reflexivity | exact Hr].
    + discriminate.
Qed.

(** A walk that returns leaves the nodes that were there. *)
Lemma insertParts_keeps (entry : ZipEntry) (parts : list string)
      (rest : list string) :
  forall index ps current current' r,
    skipn index parts = rest ->
    ReachesNode ps current r ->
    insertParts entry parts index rest current = Normal current' ->
    exists r', ReachesNode ps current' r'.
Proof.
  induction rest as [|part rest' IH]; intros index ps current current' r Hskip
                                             Hr Hrun.
  - cbn [insertParts] in Hrun. injection Hrun as <-. eauto.
  - rewrite (insertParts_step _ _ _ _ _ _ Hskip) in Hrun.
    assert (forall x,
               JsObject.getOwn current part = None ->
               exists r', ReachesNode ps (JsObject.set current part x) r')
      as Hfresh.
    { intros x Hnone. exists r.
      destruct Hr as [p o r Hp | p ps' o m below r Hp Hch Hbelow].
      - apply Reaches_last. rewrite getOwn_set_other; [exact Hp|].
        intros ->. congruence.
      - apply (Reaches_step p ps' _ m below r); [|exact Hch|exact Hbelow].
        rewrite getOwn_set_other; [exact Hp|]. intros ->. congruence. }
    destruct rest' as [|part' rest''].
    + destruct (get_cases current part)
        as [(G & Hnone & _)|[(v & G & Hv)|(G & _ & Hi)]]; rewrite G in Hrun;
        injection Hrun as <-; eauto.
    + pose proof (skipn_cons_next _ _ _ _ Hskip) as Hskip'.
      destruct (get_cases current part)
        as [(G & Hnone & _)|[(v & G & Hv)|(G & _ & Hi)]]; rewrite G in Hrun.
      * destruct (insertParts entry parts (S index) (part' :: rest'') [])
          as [below'|err] eqn:E; cbn [bindC] in Hrun; [|discriminate].
        injection Hrun as <-. apply Hfresh, Hnone.
      * destruct (r_children v) as [below|] eqn:Eb; [|discriminate].
        destruct (insertParts entry parts (S index) (part' :: rest'') below)
          as [below'|err] eqn:E; cbn [bindC] in Hrun; [|discriminate].
        injection Hrun as <-.
        destruct Hr as [p o r Hp | p ps' o m below0 r Hp Hch Hbelow].
        -- destruct (String.eqb_spec p part) as [->|Hne].
           ++ eexists. apply Reaches_last, getOwn_set_same.
           ++ exists r. apply Reaches_last.
              rewrite getOwn_set_other; [exact Hp | exact Hne].
        -- destruct (String.eqb_spec p part) as [->|Hne].
           ++ rewrite Hv in Hp. injection Hp as <-.
              rewrite Eb in Hch. injection Hch as <-.
              destruct (IH (S index) ps' below below' r Hskip' Hbelow E)
                as (r' & Hr').
              exists r'.
              apply (Reaches_step part ps' _ (withChildren v below')
                       below' r');
                [apply getOwn_set_same | reflexivity | exact Hr'].
           ++ exists r.
              apply (Reaches_step p ps' _ m below0 r);
                [|exact Hch|exact Hbelow].
              rewrite getOwn_set_other; [exact Hp | exact Hne].
      * discriminate.
Qed.

(** After the insertion of a list of entries the nodes of each of them
    are there, and so are the nodes that were there before. *)
Lemma insertEntries_reaches (commonPrefix : string) (l : list ZipEntry) :
  (forall e, In e l -> plainNames (cleanParts commonPrefix e)) ->
  forall root root' ps,
    insertEntries commonPrefix l root = Normal root' ->
    (exists r, ReachesNode ps root r)
    \/ (ps <> [] /\ exists e, In e l /\ cleanParts commonPrefix e = ps) ->
    exists r, ReachesNode ps root' r.
Proof.
  induction l as [|e l IH]; intros Hplain root root' ps Hrun Hps;
    cbn [insertEntries] in Hrun.
  - injection Hrun as <-. destruct Hps as [H|(_ & e & [] & _)]. exact H.
  - destruct (insertParts e (cleanParts commonPrefix e) 0
                          (cleanParts commonPrefix e) root)
      as [root1|err] eqn:E; cbn [bindC] in Hrun; [|discriminate].
    apply (IH (fun x Hx => Hplain x (or_intror Hx)) root1 root' ps Hrun).
    destruct Hps as [(r & Hr)|(Hne & x & [<-|Hx] & Hx')].
    + left. apply (insertParts_keeps e _ _ 0 ps root root1 r eq_refl Hr E).
    + left. subst ps.
      apply (insertParts_reaches e _ _ 0 root root1 Hne eq_refl
               (Hplain e (or_introl eq_refl)) E).
    + right. split; [exact Hne|]. exists x. auto.
Qed.

(** The node a descent ends at carries the joined segments as its path
    and is a value of the tree of maps. *)
Lemma ReachesNode_path (ps : list string) (o : RawObject) (r : RawNode) :
  ReachesNode ps o r ->
  forall q, Positioned q o ->
            OccursRaw r o /\ r_path r = join "/" (q ++ ps).
Proof.
  induction 1 as [p o r Hp | p ps o m below r Hp Hch Hbelow IH];
    intros q Hpos; apply Positioned_inv in Hpos as (Hnp & Hkids);
    apply getOwn_In in Hp.
  - split; [apply (OccursRaw_here r o p Hp)|]. apply (Hnp p r Hp).
  - destruct (IH (q ++ [p]) (Hkids p m below Hp Hch)) as (Hocc & Hpath).
    split; [apply (OccursRaw_below r o p m below Hp Hch Hocc)|].
    rewrite Hpath, <- app_assoc. reflexivity.
Qed.

Lemma In_convertItem (k : string) (r : RawNode) (o : RawObject) :
  In (k, r) o -> In (convertItem r) (convertToArray o).
Proof.
  intros H. rewrite convertToArray_values. apply in_map.
  apply (Permutation_in _ (Permutation_sym (values_perm o))).
  apply (in_map snd) in H. exact H.
Qed.

Lemma OccursRaw_convert (r : RawNode) (o : RawObject) :
  OccursRaw r o -> Occurs (convertItem r) (convertToArray o).
Proof.
  induction 1 as [o k Hin | o k m below Hin Hch Hocc IH].
  - apply Occurs_here, (In_convertItem k r o Hin).
  - apply (Occurs_below _ _ (convertItem m) (convertToArray below));
      [apply (In_convertItem k m o Hin) | | exact IH].
    rewrite convertItem_children, Hch. reflexivity.
Qed.

(** Every node stands in a list of siblings. *)
Lemma Occurs_siblings (forest : list FileTreeNode) (n : FileTreeNode) :
  Occurs n forest ->
  exists q sibs, SiblingsAt forest q sibs /\ In n sibs.
Proof.
  assert (forall l, Occurs n l ->
          forall q, SiblingsAt forest q l ->
          exists q' sibs, SiblingsAt forest q' sibs /\ In n sibs) as H.
  { induction 1 as [l Hin | l m kids Hin Hch Hocc IH]; intros q Hs.
    - exists q, l. auto.
    - apply (IH (q ++ [name m])).
      apply (Siblings_below forest q l m kids Hs Hin Hch). }
  intros Hn. apply (H forest Hn []), Siblings_root.
Qed.

End Reaching.

Section EmptyFoldersExactly.

Lemma dropPrefix_app (q t : list string) : dropPrefix q (q ++ t) = Some t.
Proof.
  induction q as [|k q IH]; [reflexivity|].
  cbn [app dropPrefix]. now rewrite String.eqb_refl.
Qed.

Lemma dropPrefix_Some (q ps t : list string) :
  dropPrefix q ps = Some t -> ps = q ++ t.
Proof.
  revert ps. induction q as [|k q IH]; intros ps; cbn [dropPrefix app].
  - now intros [= ->].
  - destruct ps as [|p ps]; [discriminate|].
    destruct (String.eqb_spec p k) as [->|_]; [|discriminate].
    intros H. now rewrite (IH ps H).
Qed.

Lemma In_tailsAt (commonPrefix : string) (q : list string)
      (valid : list ZipEntry) (e : ZipEntry) (t : list string) :
  In e valid -> dropPrefix q (cleanParts commonPrefix e) = Some t ->
  In (e, t) (tailsAt commonPrefix q valid).
Proof.
  intros He Hd. unfold tailsAt. apply in_flat_map. exists e.
  split; [exact He|]. rewrite Hd. now left.
Qed.

Lemma join_empty_nil (l : list string) :
  Forall (fun seg => seg <> EmptyString) l ->
  join "/" l = EmptyString -> l = [].
Proof.
  intros Hall H. destruct l as [|p l]; [reflexivity|].
  inversion Hall as [|? ? Hp _]; subst.
  destruct l as [|q l]; cbn [join] in H; [congruence|].
  destruct p; [congruence | discriminate].
Qed.

Variable localeCompare : string -> string -> comparison.

(** The children of a node are there exactly for the retained entries
    that go on below it. *)
Lemma children_empty_iff (entries : list ZipEntry)
      (forest : list FileTreeNode) :
  buildFileTree localeCompare entries = Normal forest ->
  (forall e, In e (validEntries localeCompare entries) ->
             plainNames (cleanParts (treePrefix localeCompare entries) e)) ->
  forall q sibs n kids,
    SiblingsAt forest q sibs -> In n sibs -> children n = Some kids ->
    (kids = []
     <-> forall e t,
           In e (validEntries localeCompare entries) ->
           cleanParts (treePrefix localeCompare entries) e
           = (q ++ [name n]) ++ t ->
           t = []).
Proof.
  intros Hb Hplain q sibs n kids Hs Hn Hch.
  set (prefix := treePrefix localeCompare entries) in *.
  set (valid := validEntries localeCompare entries) in *.
  destruct (buildFileTree_Ordered localeCompare entries forest Hb)
    as (root & Hroot & Hord).
  destruct (siblings_Ordered prefix valid forest (q ++ [name n]) kids
              (Siblings_below forest q sibs n kids Hs Hn Hch)
              root Hroot Hord) as (o & -> & Ho).
  apply Ordered_inv in Ho as (Hkeys & _ & _).
  destruct (firstKeys_facts (tailsAt prefix (q ++ [name n]) valid))
    as (_ & _ & Hin & Hfrom).
  split.
  - intros Hnil e t He Hparts. apply convertToArray_nil in Hnil. subst o.
    destruct t as [|p t]; [reflexivity|]. exfalso.
    assert (In p (firstKeys (tailsAt prefix (q ++ [name n]) valid))) as Hp.
    { apply (Hin e p t).
      - apply In_tailsAt; [exact He|]. rewrite Hparts. apply dropPrefix_app.
      - apply (Hplain e He). rewrite Hparts.
        apply in_or_app. right. now left. }
    rewrite <- Hkeys in Hp. destruct Hp.
  - intros Hnone.
    assert (firstKeys (tailsAt prefix (q ++ [name n]) valid) = []) as Hk.
    { destruct (firstKeys (tailsAt prefix (q ++ [name n]) valid))
        as [|k ks]; [reflexivity|]. exfalso.
      destruct (Hfrom k (or_introl eq_refl)) as (e & t & Hd).
      apply tailsAt_In in Hd as [He Hd].
      apply dropPrefix_Some in Hd.
      specialize (Hnone e (k :: t) He Hd). discriminate. }
    rewrite Hk in Hkeys. apply map_eq_nil in Hkeys. subst o. reflexivity.
Qed.

(** C1, amended: a folder node of the returned tree has a [children]
    array; the array is empty exactly when no retained entry has a
    stripped path below the path of the folder, and the folder is then
    the folder of a retained directory entry, so that a folder which a
    path below it brought into being has children.  Such folders do
    appear: a retained directory entry with a stripped path that is not
    empty, with no retained entry below it and no retained file entry at
    its stripped path, has a folder node with an empty array in the
    tree.  (Stated for archives none of whose path segments is the name
    of a property of [Object.prototype].) *)
Theorem empty_folder_is_directory_entry (entries : list ZipEntry)
        (forest : list FileTreeNode) :
  buildFileTree localeCompare entries = Normal forest ->
  (forall e, In e entries -> plainNames (split "/" (entryName e))) ->
  let prefix := treePrefix localeCompare entries in
  (forall n, Occurs n forest -> type n = folder ->
     exists kids,
       children n = Some kids
       /\ (kids = []
           <-> forall e, In e entries -> shouldIgnore (entryName e) = false ->
                         ~ liesProperlyBelow prefix (path n) e)
       /\ (kids = [] ->
           exists e, In e entries
                     /\ shouldIgnore (entryName e) = false
                     /\ isDirectory e = true
                     /\ path n = join "/" (cleanParts prefix e)))
  /\ (forall e,
        In e entries -> shouldIgnore (entryName e) = false ->
        isDirectory e = true -> cleanParts prefix e <> [] ->
        (forall e', In e' entries -> shouldIgnore (entryName e') = false ->
                    ~ liesProperlyBelow prefix
                        (join "/" (cleanParts prefix e)) e') ->
        (forall e', In e' entries -> shouldIgnore (entryName e') = false ->
                    cleanParts prefix e' = cleanParts prefix e ->
                    isDirectory e' = true) ->
        exists n, Occurs n forest
                  /\ type n = folder
                  /\ path n = join "/" (cleanParts prefix e)
                  /\ children n = Some []).
Proof.
  intros Hb Hplain. cbv zeta.
  set (prefix := treePrefix localeCompare entries).
  set (valid := validEntries localeCompare entries).
  assert (forall e, In e valid -> plainNames (cleanParts prefix e))
    as Hplain'.
  { intros e He p Hp. apply validEntries_In in He as [He _].
    apply (Hplain e He). apply (cleanParts_incl _ e p Hp). }
  assert (forall n, Occurs n forest -> type n = folder ->
            exists kids,
              children n = Some kids
              /\ (kids = []
                  <-> forall e, In e entries ->
                                shouldIgnore (entryName e) = false ->
                                ~ liesProperlyBelow prefix (path n) e)
              /\ (kids = [] ->
                  exists e, In e entries
                            /\ shouldIgnore (entryName e) = false
                            /\ isDirectory e = true
                            /\ path n = join "/" (cleanParts prefix e)))
    as Hfolders.
  { intros n Hn Hfolder.
    destruct (empty_folder_from_entry localeCompare entries forest Hb Hplain
                n Hn Hfolder) as (kids & Hch & Hdir).
    exists kids. split; [exact Hch|]. split; [|exact Hdir].
    destruct (Occurs_siblings forest n Hn) as (q & sibs & Hs & Hin).
    assert (split "/" (path n) = q ++ [name n]) as Hsplit.
    { rewrite (node_path_from_root localeCompare entries forest Hb
                 q sibs n Hs Hin).
      apply split_join; [destruct q; discriminate|].
      apply Forall_app. split.
      - apply (siblings_position_noSlash localeCompare entries forest Hb
                 q sibs Hs).
      - constructor; [|constructor].
        apply (node_name_noSlash localeCompare entries forest Hb n Hn). }
    rewrite (children_empty_iff entries forest Hb Hplain' q sibs n kids
               Hs Hin Hch).
    unfold liesProperlyBelow. rewrite Hsplit. split.
    - intros Hnone e He Hk (t & Ht & Hparts). apply Ht.
      apply (Hnone e t); [|exact Hparts].
      apply validEntries_In. auto.
    - intros Hnone e t He Hparts. apply validEntries_In in He as [He Hk].
      destruct t as [|p t]; [reflexivity|]. exfalso.
      apply (Hnone e He Hk). exists (p :: t). split; [discriminate|].
      exact Hparts. }
  split; [exact Hfolders|].
  intros e He Hkeep Hd Hne Hnone Hdirs.
  assert (In e valid) as Hv by (apply validEntries_In; auto).
  pose proof Hb as Hb'. rewrite buildFileTree_prefix in Hb'.
  fold prefix valid in Hb'.
  destruct (insertEntries prefix valid []) as [root|err] eqn:E;
    cbn [bindC] in Hb'; [|discriminate].
  injection Hb' as Hforest.
  destruct (insertEntries_reaches prefix valid Hplain' [] root
              (cleanParts prefix e) E) as (r & Hr).
  { right. split; [exact Hne|]. exists e. auto. }
  pose proof (insertEntries_Positioned prefix valid [] root
                (Positioned_empty []) E) as Hpos.
  destruct (ReachesNode_path _ _ _ Hr [] Hpos) as (Hocc & Hpath).
  cbn [app] in Hpath.
  assert (Occurs (convertItem r) forest) as Hn
      by (rewrite <- Hforest; apply OccursRaw_convert, Hocc).
  assert (Forall keptSegment (cleanParts prefix e)) as Hsegs
      by (apply (validEntries_kept localeCompare entries e Hv)).
  assert (Forall noSlash (cleanParts prefix e)) as Hns
      by (apply (Forall_impl _ (fun p (H : keptSegment p) =>
                                  proj1 (proj2 H)) Hsegs)).
  assert (type (convertItem r) = folder) as Hty.
  { destruct (buildFileTree_AllRaw localeCompare
                (recordOf prefix valid) (fun _ => True) entries forest
                (fun x Hx => recordOf_invariant _ _ x Hx) Hb _ Hn)
      as (r' & Hrec & Heq).
    destruct (type (convertItem r)) eqn:Et; [|reflexivity]. exfalso.
    unfold recordOf in Hrec.
    assert (r_type r' = file) as Et'
        by (rewrite Heq in Et; destruct r'; exact Et).
    rewrite Et' in Hrec. destruct Hrec as (_ & _ & e1 & H1 & Hd1 & _ & Hp1).
    assert (r_path r' = r_path r) as Hsame
        by (rewrite <- !convertItem_path, Heq; reflexivity).
    rewrite Hsame, Hpath in Hp1.
    assert (Forall keptSegment (cleanParts prefix e1)) as Hsegs1
        by (apply (validEntries_kept localeCompare entries e1 H1)).
    assert (cleanParts prefix e1 = cleanParts prefix e) as Hparts.
    { symmetry. apply join_injective; [exact Hne | | exact Hns | |exact Hp1].
      - intros Hnil. rewrite Hnil in Hp1. cbn [join] in Hp1.
        apply Hne, join_empty_nil; [|exact Hp1].
        apply (Forall_impl _ (fun p (H : keptSegment p) =>
                                proj2 (proj2 H)) Hsegs).
      - apply (Forall_impl _ (fun p (H : keptSegment p) =>
                                proj1 (proj2 H)) Hsegs1). }
    apply validEntries_In in H1 as [H1 Hk1].
    rewrite (Hdirs e1 H1 Hk1 Hparts) in Hd1. discriminate. }
  exists (convertItem r). split; [exact Hn|]. split; [exact Hty|].
  split; [rewrite convertItem_path; exact Hpath|].
  destruct (Hfolders _ Hn Hty) as (kids & Hch & Hiff & _).
  rewrite Hch. f_equal. apply Hiff.
  rewrite convertItem_path, Hpath. exact Hnone.
Qed.

End EmptyFoldersExactly.

Lemma empty_folder_is_directory_entry_witness :
  let entries := [dirEntry "proj/"; fileEntry "proj/a.txt" "x";
                  dirEntry "proj/empty/"] in
  let emptyFolder := mkNode "empty" "empty" folder None None (Some []) in
  let forest := [mkNode "a.txt" "a.txt" file (Some 1%Z) (Some ".txt") None;
                 emptyFolder] in
  buildFileTree byteCompare entries = Normal forest
  /\ (forall e, In e entries -> plainNames (split "/" (entryName e)))
  /\ (forall n, Occurs n forest -> type n = folder ->
        exists kids,
          children n = Some kids
          /\ (kids = []
              <-> forall e, In e entries ->
                            shouldIgnore (entryName e) = false ->
                            ~ liesProperlyBelow
                                (treePrefix byteCompare entries) (path n) e)
          /\ (kids = [] ->
              exists e, In e entries
                        /\ shouldIgnore (entryName e) = false
                        /\ isDirectory e = true
                        /\ path n
                           = join "/" (cleanParts
                                         (treePrefix byteCompare entries) e)))
  /\ exists n, Occurs n forest
               /\ type n = folder
               /\ path n = "empty"
               /\ children n = Some [].
Proof.
  cbv zeta.
  assert (forall e,
             In e [dirEntry "proj/"; fileEntry "proj/a.txt" "x";
                   dirEntry "proj/empty/"] ->
             plainNames (split "/" (entryName e))) as Hplain.
  { intros e [<-|[<-|[<-|[]]]] p Hp; vm_compute in Hp;
      repeat (destruct Hp as [<-|Hp]; [reflexivity|]); destruct Hp. }
  destruct (empty_folder_is_directory_entry byteCompare
              [dirEntry "proj/"; fileEntry "proj/a.txt" "x";
               dirEntry "proj/empty/"]
              [mkNode "a.txt" "a.txt" file (Some 1%Z) (Some ".txt") None;
               mkNode "empty" "empty" folder None None (Some [])]
              ltac:(vm_compute; reflexivity) Hplain) as [Hfolders Happears].
  split; [vm_compute; reflexivity|]. split; [exact Hplain|].
  split; [exact Hfolders|].
  apply (Happears (dirEntry "proj/empty/")).
  - right. right. left. reflexivity.
  - reflexivity.
  - reflexivity.
  - vm_compute. discriminate.
  - intros e' [<-|[<-|[<-|[]]]] _ (t & Ht & Hparts);
      vm_compute in Hparts;
      first [discriminate Hparts
            | injection Hparts as <-; exact (Ht eq_refl)].
  - intros e' [<-|[<-|[<-|[]]]] _ Hparts;
      first [reflexivity | vm_compute in Hparts; discriminate Hparts].
Defined.

(* ===================================================================== *)
(** ** The retained entries and the stripped prefix *)
(* ===================================================================== *)

Section Retained.

Variable localeCompare : string -> string -> comparison.

(** X7: the entries [buildFileTree] works on are the entries that are not
    ignored, each as often as the archive has it, in ascending order of
    their names under a consistent comparator. *)
Theorem retained_entries_sorted (entries : list ZipEntry) :
  consistentCompare localeCompare ->
  Permutation (validEntries localeCompare entries)
              (filter (fun e => negb (shouldIgnore (entryName e))) entries)
  /\ StronglySorted (notAfter localeCompare)
                    (validEntries localeCompare entries)
  /\ forall e, In e (validEntries localeCompare entries) ->
               shouldIgnore (entryName e) = false.
Proof.
  intros Hc. split; [apply sortByName_perm|]. split.
  - apply (validEntries_sorted localeCompare Hc).
  - intros e He. apply validEntries_In in He. tauto.
Qed.

End Retained.

Lemma retained_entries_sorted_witness :
  let entries := [fileEntry "b/y.md" "y"; fileEntry ".git/config" "c";
                  fileEntry "a/x.md" "x"] in
  Permutation (validEntries byteCompare entries)
              (filter (fun e => negb (shouldIgnore (entryName e))) entries)
  /\ StronglySorted (notAfter byteCompare) (validEntries byteCompare entries)
  /\ map entryName (validEntries byteCompare entries) = ["a/x.md"; "b/y.md"].
Proof.
  cbv zeta.
  destruct (retained_entries_sorted byteCompare
              [fileEntry "b/y.md" "y"; fileEntry ".git/config" "c";
               fileEntry "a/x.md" "x"] byteCompare_consistent)
    as (H1 & H2 & _).
  split; [exact H1|]. split; [exact H2 | reflexivity].
Defined.

(** X8: the detected prefix is empty or one folder name and a slash that
    every entry starts with, and stripping it is exact: the prefix put
    back before the stripped path of an entry is the name of the
    entry. *)
Theorem strip_then_prepend (l : list ZipEntry) :
  (detectCommonPrefix l = EmptyString
   \/ exists seg, seg <> EmptyString /\ noSlash seg
                  /\ detectCommonPrefix l = (seg ++ "/")%string)
  /\ forall e, In e l ->
       startsWith (entryName e) (detectCommonPrefix l) = true
       /\ (detectCommonPrefix l ++ cleanPath (detectCommonPrefix l) e)%string
          = entryName e.
Proof.
  assert (forall e, In e l ->
                    startsWith (entryName e) (detectCommonPrefix l) = true)
    as Hstarts.
  { intros e He.
    destruct (string_dec (detectCommonPrefix l) EmptyString) as [E|N].
    - rewrite E. apply startsWith_empty.
    - destruct (detect_nonempty _ N) as (_ & seg & (_ & _ & Hall) & ->).
      rewrite Forall_forall in Hall. apply Hall, He. }
  split.
  - destruct (string_dec (detectCommonPrefix l) EmptyString) as [E|N];
      [left; exact E|].
    destruct (detect_nonempty _ N) as (_ & seg & (Hs & Hn & _) & Hd).
    right. exists seg. auto.
  - intros e He. split; [apply Hstarts, He|].
    unfold cleanPath. rewrite (Hstarts e He).
    symmetry. apply startsWith_split, Hstarts, He.
Qed.

Lemma strip_then_prepend_witness :
  let a := fileEntry "proj/src/a.py" "a" in
  let l := [a; dirEntry "proj/"] in
  detectCommonPrefix l = "proj/"
  /\ cleanPath (detectCommonPrefix l) a = "src/a.py"
  /\ (detectCommonPrefix l ++ cleanPath (detectCommonPrefix l) a)%string
     = entryName a.
Proof.
  cbv zeta. split; [reflexivity|]. split; [reflexivity|].
  apply (proj2 (strip_then_prepend
                  [fileEntry "proj/src/a.py" "a"; dirEntry "proj/"])).
  left. reflexivity.
Defined.

(** X9: the detected prefix depends on which entries there are, not on
    their order nor on how often each occurs, although the detection
    reads its candidate off the first entry. *)
Theorem detect_order_independent (l l' : list ZipEntry) :
  (forall e, In e l <-> In e l') ->
  detectCommonPrefix l = detectCommonPrefix l'.
Proof.
  intros H. apply detect_same_members; intros e He; apply H, He.
Qed.

Lemma detect_order_independent_witness :
  detectCommonPrefix [fileEntry "p/a" "1"; fileEntry "p/b/c" "2"]
  = detectCommonPrefix [fileEntry "p/b/c" "2"; fileEntry "p/a" "1";
                        fileEntry "p/b/c" "2"].
Proof.
  apply detect_order_independent. intros e. cbn [In]. tauto.
Defined.

(* ===================================================================== *)
(** ** The content lookup *)
(* ===================================================================== *)

Section Lookup.

Lemma substringFrom_append (p t : string) :
  substringFrom (String.length p) (p ++ t) = t.
Proof. induction p; simpl; auto. Qed.

Lemma substring_cut (n : nat) (s : string) :
  (substringTo n s ++ substringFrom n s)%string = s.
Proof.
  revert s; induction n as [|n IH]; intros s; [reflexivity|].
  destruct s as [|c s]; [reflexivity|]. cbn. now rewrite IH.
Qed.

Lemma endsWith_append (a b : string) : endsWith (a ++ b) b = true.
Proof.
  unfold endsWith. rewrite length_append.
  replace (String.length a + String.length b - String.length b)
    with (String.length a) by lia.
  rewrite substringFrom_append, String.eqb_refl, andb_true_r.
  apply Nat.leb_le. lia.
Qed.

Lemma endsWith_split (s p : string) :
  endsWith s p = true -> exists pre, s = (pre ++ p)%string.
Proof.
  unfold endsWith. intros H. apply andb_true_iff in H as [_ H].
  apply String.eqb_eq in H.
  exists (substringTo (String.length s - String.length p) s).
  remember (String.length s - String.length p) as n eqn:En. clear En.
  subst p. symmetry. apply substring_cut.
Qed.

Lemma join_cons_char (c : ascii) (p : string) (ps : list string) :
  join "/" (String c p :: ps) = String c (join "/" (p :: ps)).
Proof. destruct ps; reflexivity. Qed.

(** Cutting a string at its slashes and joining the pieces by slashes
    gives the string back. *)
Lemma join_split (s : string) : join "/" (split "/" s) = s.
Proof.
  induction s as [|c s IH]; [reflexivity|].
  cbn [split]. pose proof (split_not_nil "/" s) as Hne.
  destruct (Ascii.eqb_spec c "/") as [->|Hc].
  - destruct (split "/" s) as [|p ps] eqn:E; [congruence|].
    change (join "/" (EmptyString :: p :: ps))
      with ("" ++ "/" ++ join "/" (p :: ps))%string.
    rewrite IH. reflexivity.
  - destruct (split "/" s) as [|p ps] eqn:E; [congruence|].
    rewrite join_cons_char, IH. reflexivity.
Qed.

Lemma filter_all {A : Type} (f : A -> bool) (l : list A) :
  (forall x, In x l -> f x = true) -> filter f l = l.
Proof.
  induction l as [|x l IH]; intros H; [reflexivity|].
  cbn [filter]. rewrite (H x (or_introl eq_refl)). f_equal.
  apply IH. intros y Hy. apply H. now right.
Qed.

Lemma detect_startsWith (l : list ZipEntry) (e : ZipEntry) :
  In e l -> startsWith (entryName e) (detectCommonPrefix l) = true.
Proof.
  intros He.
  destruct (string_dec (detectCommonPrefix l) EmptyString) as [E|N].
  - rewrite E. apply startsWith_empty.
  - destruct (detect_nonempty _ N) as (_ & seg & (_ & _ & Hall) & ->).
    rewrite Forall_forall in Hall. apply Hall, He.
Qed.

(** The stripped path of an entry without empty segments, cut and
    joined again, is the stripped path, and the prefix before it gives
    the name. *)
Lemma joined_parts_exact (l : list ZipEntry) (e : ZipEntry) :
  In e l ->
  Forall (fun seg => seg <> EmptyString) (split "/" (entryName e)) ->
  entryName e
  = (detectCommonPrefix l
     ++ join "/" (cleanParts (detectCommonPrefix l) e))%string.
Proof.
  intros He Hfull.
  pose proof (detect_startsWith l e He) as Hs.
  assert (cleanParts (detectCommonPrefix l) e
          = split "/" (cleanPath (detectCommonPrefix l) e)) as Hparts.
  { unfold cleanParts. apply filter_all. intros p Hp.
    assert (In p (split "/" (entryName e))) as Hin.
    { apply (cleanParts_incl l e p). unfold cleanParts.
      apply filter_In. split; [exact Hp|].
      unfold cleanPath in Hp. rewrite Hs in Hp.
      destruct (detect_shape l) as [E|(seg & Hseg & E)]; rewrite E in *.
      - cbn in Hp. rewrite Forall_forall in Hfull.
        specialize (Hfull p Hp). destruct p; [congruence | reflexivity].
      - apply startsWith_split in Hs.
        rewrite Forall_forall in Hfull.
        assert (In p (split "/" (entryName e))) as Hin'.
        { rewrite Hs, append_assoc, (split_after _ _ Hseg). now right. }
        specialize (Hfull p Hin'). destruct p; [congruence | reflexivity]. }
    rewrite Forall_forall in Hfull. specialize (Hfull p Hin).
    destruct p; [congruence | reflexivity]. }
  rewrite Hparts, join_split. unfold cleanPath. rewrite Hs.
  apply startsWith_split, Hs.
Qed.

Variable localeCompare : string -> string -> comparison.

(** X10: the lookup of [processNode] finds an entry for the stripped path
    of every retained entry whose name has no empty segment, whether or
    not the route detected the prefix the tree was built with: by the
    exact name when the two prefixes agree, by the [endsWith] test
    otherwise. *)
Theorem lookup_locates_retained (entries : list ZipEntry) (e : ZipEntry) :
  In e (validEntries localeCompare entries) ->
  Forall (fun seg => seg <> EmptyString) (split "/" (entryName e)) ->
  let p := join "/" (cleanParts (treePrefix localeCompare entries) e) in
  exists x,
    findEntry entries (lookupPrefix entries ++ p) p = Some x
    /\ In x entries
    /\ (entryName x = (lookupPrefix entries ++ p)%string
        \/ endsWith (entryName x) ("/" ++ p) = true).
Proof.
  intros He Hfull. cbv zeta.
  set (p := join "/" (cleanParts (treePrefix localeCompare entries) e)).
  pose proof (joined_parts_exact _ e He Hfull) as Hname.
  fold (treePrefix localeCompare entries) in Hname. fold p in Hname.
  pose proof (proj1 (validEntries_In localeCompare entries e) He) as [Hin _].
  assert ((String.eqb (entryName e) (lookupPrefix entries ++ p)
           || endsWith (entryName e) ("/" ++ p)) = true) as Hpred.
  { destruct (string_dec (lookupPrefix entries) EmptyString) as [El|Nl].
    - rewrite El. cbn [append].
      destruct (detect_shape (validEntries localeCompare entries))
        as [Et|(seg & _ & Et)]; fold (treePrefix localeCompare entries) in Et;
        rewrite Et in Hname.
      + cbn [append] in Hname. rewrite Hname, String.eqb_refl. reflexivity.
      + rewrite append_assoc in Hname. rewrite Hname at 2.
        rewrite endsWith_append. apply orb_true_r.
    - unfold lookupPrefix in *.
      destruct (detect_nonempty _ Nl) as (_ & seg & Hs & Hd).
      assert (treePrefix localeCompare entries = (seg ++ "/")%string) as Et.
      { apply detect_shared; [intros X; rewrite X in He; destruct He|].
        apply (sharesTopFolder_incl entries); [|exact Hs].
        intros x Hx. apply validEntries_In in Hx. tauto. }
      rewrite Hd, <- Et, <- Hname, String.eqb_refl. reflexivity. }
  unfold findEntry.
  destruct (find _ entries) as [x|] eqn:F.
  - exists x. apply find_some in F as [Hx Hp]. repeat split; auto.
    apply orb_true_iff in Hp as [Hp|Hp]; [left; now apply String.eqb_eq|auto].
  - pose proof (find_none _ _ F e Hin) as Hnone. cbv beta in Hnone. congruence.
Qed.

(** X11: the document of a run is its head followed by one block for
    every embedded file, in the order of the walk; the header of a block
    is the path of a file node of the tree, and its text is the decoded
    data of an entry of the archive that is no directory and whose name
    ends with that path. *)
Theorem embedded_text_matches_path (entries : list ZipEntry)
        (out : ProcessedOutput) :
  processUpload localeCompare entries = Normal out ->
  let embedded :=
    embeddedFiles entries (lookupPrefix entries) (fileTree out) in
  formattedContent out
    = (documentHead (fileTree out)
       ++ String.concat EmptyString
            (map (fun x => formatFileContent (path (e_node x)) (e_content x))
                 embedded))%string
  /\ forall x, In x embedded ->
       Occurs (e_node x) (fileTree out)
       /\ type (e_node x) = file
       /\ In (e_entry x) entries
       /\ isDirectory (e_entry x) = false
       /\ getData (e_entry x) = Normal (e_content x)
       /\ exists before,
            entryName (e_entry x) = (before ++ path (e_node x))%string.
Proof.
  intros Hrun. cbv zeta. split.
  - rewrite (proj1 (processUpload_walked localeCompare entries out Hrun)).
    f_equal. unfold blocks, block.
    induction (embeddedFiles entries (lookupPrefix entries) (fileTree out))
      as [|x l IH]; [reflexivity|].
    cbn [fold_right map]. rewrite IH.
    destruct l; [apply append_nil_r | reflexivity].
  - intros x Hx. apply embeddedFiles_sound in Hx as (Hocc & Hty & He).
    apply embedding_Some in He as (_ & _ & Hf & Hd & Hg & _).
    unfold findEntry in Hf. apply find_some in Hf as [Hin Hp].
    repeat split; auto.
    apply orb_true_iff in Hp as [Hp|Hp].
    + apply String.eqb_eq in Hp. eauto.
    + apply endsWith_split in Hp as (pre & Hp).
      exists (pre ++ "/")%string. rewrite Hp, append_assoc. reflexivity.
Qed.

End Lookup.

Lemma lookup_locates_retained_witness :
  In (fileEntry "proj/src/a.py" ("print(1)" ++ LF))
     (validEntries byteCompare (scenario 1 (Normal "x")))
  /\ Forall (fun seg => seg <> EmptyString) (split "/" "proj/src/a.py")
  /\ exists x,
       findEntry (scenario 1 (Normal "x"))
                 (lookupPrefix (scenario 1 (Normal "x")) ++ "src/a.py")
                 "src/a.py" = Some x
       /\ In x (scenario 1 (Normal "x"))
       /\ (entryName x
           = (lookupPrefix (scenario 1 (Normal "x")) ++ "src/a.py")%string
           \/ endsWith (entryName x) ("/" ++ "src/a.py") = true).
Proof.
  assert (In (fileEntry "proj/src/a.py" ("print(1)" ++ LF))
             (validEntries byteCompare (scenario 1 (Normal "x")))) as Hin.
  { vm_compute. left. reflexivity. }
  assert (Forall (fun seg => seg <> EmptyString)
                 (split "/" "proj/src/a.py")) as Hseg.
  { vm_compute. repeat constructor; discriminate. }
  split; [exact Hin|]. split; [exact Hseg|].
  apply (lookup_locates_retained byteCompare (scenario 1 (Normal "x"))
           (fileEntry "proj/src/a.py" ("print(1)" ++ LF)) Hin Hseg).
Defined.

Lemma embedded_text_matches_path_witness :
  exists out,
    processUpload byteCompare (scenario 1 (Normal "x")) = Normal out
    /\ formattedContent out
       = (documentHead (fileTree out)
          ++ String.concat EmptyString
               (map (fun x => formatFileContent (path (e_node x))
                                                (e_content x))
                    (embeddedFiles
                       (scenario 1 (Normal "x"))
                       (lookupPrefix (scenario 1 (Normal "x")))
                       (fileTree out))))%string
    /\ forall x,
         In x (embeddedFiles (scenario 1 (Normal "x"))
                             (lookupPrefix (scenario 1 (Normal "x")))
                             (fileTree out)) ->
         Occurs (e_node x) (fileTree out)
         /\ type (e_node x) = file
         /\ In (e_entry x) (scenario 1 (Normal "x"))
         /\ isDirectory (e_entry x) = false
         /\ getData (e_entry x) = Normal (e_content x)
         /\ exists before,
              entryName (e_entry x) = (before ++ path (e_node x))%string.
Proof.
  eexists. split; [vm_compute; reflexivity|].
  apply (embedded_text_matches_path byteCompare (scenario 1 (Normal "x"))).
  vm_compute. reflexivity.
Defined.

(* ===================================================================== *)
(** ** When the build returns *)
(* ===================================================================== *)

Section Returns.

Lemma join_not_empty (l : list string) :
  l <> [] -> Forall (fun seg => seg <> EmptyString) l ->
  join "/" l <> EmptyString.
Proof.
  intros Hne Hall. destruct l as [|p l]; [congruence|].
  inversion Hall as [|? ? Hp _]; subst.
  destruct l as [|q l]; cbn [join]; [exact Hp|].
  destruct p; [congruence | discriminate].
Qed.

Variable commonPrefix : string.
Variable valid : list ZipEntry.
Variable entry : ZipEntry.

Hypothesis entry_valid : In entry valid.
Hypothesis valid_kept :
  forall e, In e valid -> Forall keptSegment (cleanParts commonPrefix e).
Hypothesis entry_plain : plainNames (cleanParts commonPrefix entry).
Hypothesis no_file_above :
  forall e1, In e1 valid -> ~ fileAbove commonPrefix e1 entry.

Lemma insertParts_returns (rest : list string) :
  forall index o,
    skipn index (cleanParts commonPrefix entry) = rest ->
    Positioned (firstn index (cleanParts commonPrefix entry)) o ->
    AllRaw (recordOf commonPrefix valid) o ->
    exists o',
      insertParts entry (cleanParts commonPrefix entry) index rest o
      = Normal o'.
Proof.
  set (parts := cleanParts commonPrefix entry) in *.
  induction rest as [|part rest' IH]; intros index o Hskip Hpos Hrec.
  - eexists. reflexivity.
  - rewrite (insertParts_step _ _ _ _ _ _ Hskip).
    pose proof (skipn_cons_next _ _ _ _ Hskip) as Hnext.
    pose proof (firstn_S_skipn _ _ _ _ Hskip) as HS.
    destruct rest' as [|part' rest''].
    + destruct (JsObject.get o part); eexists; reflexivity.
    + destruct (get_cases o part)
        as [(G & _ & _) | [(node & G & _) | (_ & _ & Hi)]].
      * rewrite G.
        destruct (IH (S index) [] Hnext (Positioned_empty _)
                     (AllRaw_nil _)) as (below' & ->).
        eexists. reflexivity.
      * rewrite G.
        destruct (AllRaw_own _ _ _ _ Hrec G) as [Hnode Hbelow].
        apply Positioned_inv in Hpos as (Hnp & Hkids).
        pose proof (get_Own_In _ _ _ G) as Hin.
        destruct (r_children node) as [below|] eqn:Ec.
        -- destruct (IH (S index) below Hnext) as (below' & ->);
             [rewrite HS; apply (Hkids part node below Hin Ec)
             | apply (Hbelow below eq_refl) |].
           eexists. reflexivity.
        -- exfalso. unfold recordOf in Hnode.
           destruct (r_type node); [|destruct Hnode as (Hc & _); congruence].
           destruct Hnode as (_ & _ & e1 & He1 & Hd & _ & Hpath).
           destruct (Hnp part node Hin) as [_ Hpath'].
           rewrite Hpath', <- HS in Hpath.
           assert (Forall keptSegment (firstn (S index) parts)) as Hk
               by (apply firstn_Forall, valid_kept, entry_valid).
           assert (firstn (S index) parts <> []) as Hne
               by (rewrite HS; destruct (firstn index parts); discriminate).
           assert (cleanParts commonPrefix e1 <> []) as Hne1.
           { intros X. rewrite X in Hpath. cbn [join] in Hpath.
             apply (join_not_empty _ Hne); [|exact Hpath].
             apply (Forall_impl _ (fun p (H : keptSegment p) =>
                                     proj2 (proj2 H)) Hk). }
           apply join_injective in Hpath;
             [ | exact Hne | exact Hne1
               | apply (Forall_impl _ (fun p (H : keptSegment p) =>
                                         proj1 (proj2 H)) Hk)
               | apply (Forall_impl _ (fun p (H : keptSegment p) =>
                                         proj1 (proj2 H))
                                    (valid_kept e1 He1)) ].
           apply (no_file_above e1 He1). repeat split; auto.
           exists (part' :: rest''). split; [discriminate|].
           rewrite <- Hpath, <- Hnext. symmetry. apply firstn_skipn.
      * exfalso. pose proof (entry_plain part (skipn_cons_In _ _ _ _ Hskip)).
        congruence.
Qed.

End Returns.

Section BuildReturns.

Variable localeCompare : string -> string -> comparison.

Lemma insertEntries_returns (commonPrefix : string) (valid : list ZipEntry) :
  (forall e, In e valid -> Forall keptSegment (cleanParts commonPrefix e)) ->
  (forall e, In e valid -> plainNames (cleanParts commonPrefix e)) ->
  (forall e1 e2, In e1 valid -> In e2 valid ->
                 ~ fileAbove commonPrefix e1 e2) ->
  forall l root,
    incl l valid ->
    Positioned [] root ->
    AllRaw (recordOf commonPrefix valid) root ->
    exists root', insertEntries commonPrefix l root = Normal root'.
Proof.
  intros Hkept Hplain Hno.
  induction l as [|e l IH]; intros root Hincl Hpos Hrec; cbn [insertEntries].
  - eexists. reflexivity.
  - assert (In e valid) as He by (apply Hincl; now left).
    destruct (insertParts_returns commonPrefix valid e He Hkept (Hplain e He)
                (fun e1 H1 => Hno e1 e H1 He)
                (cleanParts commonPrefix e) 0 root eq_refl Hpos Hrec)
      as (root1 & E).
    rewrite E. cbn [bindC]. apply IH.
    + intros x Hx. apply Hincl. now right.
    + apply (insertParts_Positioned e (cleanParts commonPrefix e) _ 0 root
               root1 eq_refl Hpos E).
    + apply (insertParts_AllRaw (recordOf commonPrefix valid) (fun _ => True)
               e (cleanParts commonPrefix e)
               (recordOf_invariant commonPrefix valid e He)
               _ 0 root root1 eq_refl Hrec E).
Qed.

(** X12: [buildFileTree] returns a tree, and so does the whole run,
    whenever no segment of a retained path is the name of a property of
    [Object.prototype] and no retained file entry lies where another
    retained entry needs a folder. *)
Theorem build_returns (entries : list ZipEntry) :
  (forall e, In e (validEntries localeCompare entries) ->
             plainNames (cleanParts (treePrefix localeCompare entries) e)) ->
  (forall e1 e2,
      In e1 (validEntries localeCompare entries) ->
      In e2 (validEntries localeCompare entries) ->
      ~ fileAbove (treePrefix localeCompare entries) e1 e2) ->
  (exists forest, buildFileTree localeCompare entries = Normal forest)
  /\ (exists out, processUpload localeCompare entries = Normal out).
Proof.
  intros Hplain Hno.
  destruct (insertEntries_returns (treePrefix localeCompare entries)
              (validEntries localeCompare entries)
              (validEntries_kept localeCompare entries) Hplain Hno
              (validEntries localeCompare entries) []
              (fun x H => H) (Positioned_empty []) (AllRaw_nil _))
    as (root & E).
  assert (buildFileTree localeCompare entries
          = Normal (convertToArray root)) as Hb
      by (rewrite buildFileTree_prefix, E; reflexivity).
  split; [eauto|].
  rewrite processUpload_prefix, Hb. cbn [bindC]. eexists. reflexivity.
Qed.

End BuildReturns.

Lemma build_returns_witness :
  (forall e, In e (validEntries byteCompare (scenario 1 (Normal "x"))) ->
             plainNames
               (cleanParts
                  (treePrefix byteCompare (scenario 1 (Normal "x"))) e))
  /\ (forall e1 e2,
         In e1 (validEntries byteCompare (scenario 1 (Normal "x"))) ->
         In e2 (validEntries byteCompare (scenario 1 (Normal "x"))) ->
         ~ fileAbove (treePrefix byteCompare (scenario 1 (Normal "x")))
             e1 e2)
  /\ (exists forest,
         buildFileTree byteCompare (scenario 1 (Normal "x")) = Normal forest)
  /\ (exists out,
         processUpload byteCompare (scenario 1 (Normal "x")) = Normal out).
Proof.
  assert (forall e,
             In e (validEntries byteCompare (scenario 1 (Normal "x"))) ->
             plainNames
               (cleanParts
                  (treePrefix byteCompare (scenario 1 (Normal "x"))) e))
    as Hplain.
  { intros e He p Hp. vm_compute in He.
    destruct He as [<-|[<-|[]]]; vm_compute in Hp;
      repeat (destruct Hp as [<-|Hp]; [reflexivity|]); destruct Hp. }
  assert (forall e1 e2,
             In e1 (validEntries byteCompare (scenario 1 (Normal "x"))) ->
             In e2 (validEntries byteCompare (scenario 1 (Normal "x"))) ->
             ~ fileAbove (treePrefix byteCompare (scenario 1 (Normal "x")))
                 e1 e2) as Hfree.
  { intros e1 e2 H1 H2 (_ & _ & t & Ht & Heq).
    vm_compute in H1, H2.
    destruct H1 as [<-|[<-|[]]]; destruct H2 as [<-|[<-|[]]];
      vm_compute in Heq;
      first [discriminate Heq | injection Heq as <-; exact (Ht eq_refl)]. }
  split; [exact Hplain|]. split; [exact Hfree|].
  apply (build_returns byteCompare (scenario 1 (Normal "x")) Hplain Hfree).
Defined.

(* ===================================================================== *)
(** ** The statistics and the blocks *)
(* ===================================================================== *)

Section BlocksAndCounts.

Lemma splitLength_positive (content : string) : (1 <= splitLength content)%Z.
Proof.
  unfold splitLength. pose proof (split_not_nil "010" content) as H.
  destruct (split "010" content); [congruence | cbn [List.length]; lia].
Qed.

Lemma sum_at_least_length (l : list Embedded) :
  (Z.of_nat (List.length l)
   <= sumZ (map (fun x => splitLength (e_content x)) l))%Z.
Proof.
  induction l as [|x l IH]; cbn [List.length map sumZ fold_right]; [lia|].
  pose proof (splitLength_positive (e_content x)).
  unfold sumZ in IH. lia.
Qed.

Lemma embeddedIn_at_most_files (entries : list ZipEntry)
      (commonPrefix : string) (node : FileTreeNode) :
  List.length (embeddedIn entries commonPrefix node) <= countType file node.
Proof.
  assert (forall n p s e kids,
             List.length (embeddedIn entries commonPrefix
                                     (mkNode n p file s e kids))
             <= countType file (mkNode n p file s e kids)) as Hfile.
  { intros n p s e kids. rewrite countType_node, embeddedIn_file.
    cbn [NodeType_eqb].
    destruct (embedding _ _ _); cbn [List.length]; lia. }
  induction node as [n p t s e | n p t s e kids IH]
    using FileTreeNode_induction.
  - destruct t; [apply Hfile|].
    rewrite embeddedIn_folder. cbn [List.length]. lia.
  - destruct t; [apply Hfile|].
    rewrite countType_node, embeddedIn_folder. cbn [NodeType_eqb Nat.add].
    induction IH as [|k kids Hk _ IHk].
    + cbn. lia.
    + rewrite embeddedFiles_cons, countNodes_cons, length_app. lia.
Qed.

Lemma embeddedFiles_at_most_files (entries : list ZipEntry)
      (commonPrefix : string) (forest : list FileTreeNode) :
  List.length (embeddedFiles entries commonPrefix forest)
  <= countNodes file forest.
Proof.
  induction forest as [|k kids IH]; [cbn; lia|].
  rewrite embeddedFiles_cons, countNodes_cons, length_app.
  pose proof (embeddedIn_at_most_files entries commonPrefix k). lia.
Qed.

Variable localeCompare : string -> string -> comparison.

(** X13: the figures of a run fit together: the document has at most as
    many blocks as the tree has files, every block adds at least one line
    of code, and the line count is zero exactly when no block was
    written. *)
Theorem blocks_and_statistics (entries : list ZipEntry)
        (out : ProcessedOutput) :
  processUpload localeCompare entries = Normal out ->
  let blocksWritten :=
    Z.of_nat (List.length (embeddedFiles entries (lookupPrefix entries)
                                         (fileTree out))) in
  (blocksWritten <= totalFiles (stats out))%Z
  /\ (blocksWritten <= linesOfCode (stats out))%Z
  /\ (linesOfCode (stats out) = 0%Z <-> blocksWritten = 0%Z)
  /\ (0 <= totalFolders (stats out))%Z.
Proof.
  intros Hrun. cbv zeta.
  destruct (processUpload_walked localeCompare entries out Hrun) as [_ Hl].
  pose proof (processUpload_tree localeCompare entries out Hrun) as Hb.
  pose proof Hrun as Hrun'.
  rewrite processUpload_prefix, Hb in Hrun'. cbn [bindC] in Hrun'.
  injection Hrun' as Hout.
  destruct (processNodes_counted entries (lookupPrefix entries) (fileTree out)
              (mkLocals (documentHead (fileTree out)) 0 0 0)
              (buildFileTree_typed localeCompare entries (fileTree out) Hb))
    as [C1 C2].
  cbn [l_totalFiles l_totalFolders] in C1, C2.
  assert (totalFiles (stats out)
          = Z.of_nat (countNodes file (fileTree out))) as Hf.
  { rewrite <- Hout at 1. cbn [stats totalFiles]. rewrite C1. lia. }
  assert (totalFolders (stats out)
          = Z.of_nat (countNodes folder (fileTree out))) as Hd.
  { rewrite <- Hout at 1. cbn [stats totalFolders]. rewrite C2. lia. }
  cbv zeta in Hl.
  pose proof (sum_at_least_length
                (embeddedFiles entries (lookupPrefix entries) (fileTree out)))
    as Hsum.
  pose proof (embeddedFiles_at_most_files entries (lookupPrefix entries)
                                          (fileTree out)) as Hle.
  rewrite Hf, Hd, Hl.
  repeat split; try lia.
  intros H0.
  destruct (embeddedFiles entries (lookupPrefix entries) (fileTree out));
    [reflexivity | cbn [List.length] in H0; lia].
Qed.

End BlocksAndCounts.

Lemma blocks_and_statistics_witness :
  exists out,
    processUpload byteCompare (scenario 1 (Normal "x")) = Normal out
    /\ (Z.of_nat (List.length
                    (embeddedFiles (scenario 1 (Normal "x"))
                                   (lookupPrefix (scenario 1 (Normal "x")))
                                   (fileTree out)))
        <= totalFiles (stats out))%Z
    /\ (Z.of_nat (List.length
                    (embeddedFiles (scenario 1 (Normal "x"))
                                   (lookupPrefix (scenario 1 (Normal "x")))
                                   (fileTree out)))
        <= linesOfCode (stats out))%Z.
Proof.
  eexists. split; [vm_compute; reflexivity|].
  destruct (blocks_and_statistics byteCompare (scenario 1 (Normal "x")) _
              ltac:(vm_compute; reflexivity)) as (H1 & H2 & _).
  split; [exact H1 | exact H2].
Defined.

(* ===================================================================== *)
(** ** The lines of the rendered tree *)
(* ===================================================================== *)

Section TreeLines.

Lemma countLF_app (a b : string) :
  countLF (a ++ b) = countLF a + countLF b.
Proof.
  induction a as [|c a IH]; [reflexivity|].
  cbn [append countLF]. rewrite IH. lia.
Qed.

Lemma countLF_segment (s p : string) :
  In p (split "/" s) -> countLF p <= countLF s.
Proof.
  revert p; induction s as [|d s IH]; intros p; cbn [split].
  - intros [<-|[]]. cbn. lia.
  - destruct (Ascii.eqb_spec d "/") as [->|Hne].
    + intros [<-|H]; [cbn; lia|]. apply IH in H. cbn [countLF]. lia.
    + destruct (split "/" s) as [|q qs] eqn:E.
      * intros [<-|[]]. cbn [countLF]. lia.
      * intros [<-|H].
        -- specialize (IH q (or_introl eq_refl)). cbn [countLF]. lia.
        -- specialize (IH p (or_intror H)). cbn [countLF]. lia.
Qed.

Lemma walk_children (prefix : string) (kids : list FileTreeNode) :
  (fix walk (nodes : list FileTreeNode) : string :=
     match nodes with
     | [] => EmptyString
     | child :: nodes' =>
         (renderNode child prefix
                     (match nodes' with [] => true | _ => false end)
          ++ walk nodes')%string
     end) kids
  = generateFileTreeString kids prefix.
Proof.
  induction kids as [|c l IH]; [reflexivity|].
  cbn [generateFileTreeString]. now rewrite <- IH.
Qed.

Lemma renderNode_unfold (node : FileTreeNode) (prefix : string)
      (isLastItem : bool) :
  renderNode node prefix isLastItem
  = ((prefix ++ (if isLastItem then "└── " else "├── ")
             ++ match type node with folder => "📁 " | file => "📄 " end
             ++ name node ++ LF)
       ++ match children node with
          | Some (k :: kids) =>
              generateFileTreeString
                (k :: kids)
                (prefix ++ (if isLastItem then "    " else "│   "))
          | _ => EmptyString
          end)%string.
Proof.
  destruct node as [n p t s e [[|k kids]|]].
  - cbn [children]. rewrite append_nil_r. reflexivity.
  - cbn [children].
    rewrite <- (walk_children
                  (prefix ++ (if isLastItem then "    " else "│   "))
                  (k :: kids)).
    reflexivity.
  - cbn [children]. rewrite append_nil_r. reflexivity.
Qed.

Lemma Occurs_tail (m k : FileTreeNode) (l : list FileTreeNode) :
  Occurs m l -> Occurs m (k :: l).
Proof.
  intros [f Hin | f m' ks Hin Hch Hocc].
  - apply Occurs_here. right. exact Hin.
  - apply (Occurs_below m _ m' ks); [right; exact Hin | exact Hch | exact Hocc].
Qed.

Lemma Occurs_head (m k : FileTreeNode) (l : list FileTreeNode) :
  Occurs m [k] -> Occurs m (k :: l).
Proof.
  intros H. inversion H as [f Hin Ef | f m' ks Hin Hch Hocc Ef]; subst.
  - destruct Hin as [<-|[]]. apply Occurs_here. left. reflexivity.
  - destruct Hin as [<-|[]].
    apply (Occurs_below m _ k ks); [left; reflexivity | exact Hch | exact Hocc].
Qed.

Lemma forest_lines (forest : list FileTreeNode) :
  Forall oneLineEach forest ->
  forall prefix,
    countLF prefix = 0 ->
    (forall n, Occurs n forest -> countLF (name n) = 0) ->
    countLF (generateFileTreeString forest prefix)
    = countNodes file forest + countNodes folder forest.
Proof.
  induction 1 as [|k forest Hk _ IH]; intros prefix Hp Hnames;
    [reflexivity|].
  cbn [generateFileTreeString].
  assert (forall m, Occurs m forest -> countLF (name m) = 0) as Htail
      by (intros m Hm; apply Hnames, Occurs_tail, Hm).
  assert (forall m, Occurs m [k] -> countLF (name m) = 0) as Hhead
      by (intros m Hm; apply Hnames, Occurs_head, Hm).
  rewrite countLF_app, !countNodes_cons, (Hk Hhead _ _ Hp),
    (IH prefix Hp Htail).
  lia.
Qed.

Lemma renderNode_lines (node : FileTreeNode) : oneLineEach node.
Proof.
  unfold oneLineEach.
  induction node as [n p t s e | n p t s e kids IH]
    using FileTreeNode_induction; intros Hnames prefix isLastItem Hp;
    match type of Hnames with
    | forall m, Occurs m [?node] -> _ =>
        pose proof (Hnames node (Occurs_here node [node] (or_introl eq_refl)))
          as Hn
    end;
    cbn [name] in Hn;
    rewrite renderNode_unfold, !countType_node; cbn [children type name];
    rewrite !countLF_app, Hp, Hn.
  - destruct isLastItem, t; reflexivity.
  - assert (countLF (prefix ++ (if isLastItem then "    " else "│   ")) = 0)
      as Hp' by (rewrite countLF_app, Hp; destruct isLastItem; reflexivity).
    assert (forall m, Occurs m kids -> countLF (name m) = 0) as Hbelow.
    { intros m Hm. apply Hnames.
      apply (Occurs_below m _ (mkNode n p t s e (Some kids)) kids);
        [left; reflexivity | reflexivity | exact Hm]. }
    pose proof (forest_lines kids IH _ Hp' Hbelow) as Hall.
    assert (countLF match kids with
                    | [] => EmptyString
                    | k :: kids0 =>
                        generateFileTreeString
                          (k :: kids0)
                          (prefix ++ (if isLastItem then "    " else "│   "))
                    end
            = countNodes file kids + countNodes folder kids) as Hkids
        by (destruct kids; [reflexivity | exact Hall]).
    rewrite Hkids. destruct isLastItem, t; cbn; lia.
Qed.

(** X14: [generateFileTreeString] writes one line for every node of the
    forest, files and folders at every depth, when no name and not the
    prefix holds a line feed. *)
Theorem tree_string_lines (forest : list FileTreeNode) (prefix : string) :
  countLF prefix = 0 ->
  (forall n, Occurs n forest -> countLF (name n) = 0) ->
  countLF (generateFileTreeString forest prefix)
  = countNodes file forest + countNodes folder forest.
Proof.
  intros Hp Hnames. apply forest_lines; [|exact Hp|exact Hnames].
  apply Forall_forall. intros k _. apply renderNode_lines.
Qed.

End TreeLines.

Lemma tree_string_lines_witness :
  countLF "  " = 0
  /\ (forall n, Occurs n scenarioTree -> countLF (name n) = 0)
  /\ countLF (generateFileTreeString scenarioTree "  ") = 3.
Proof.
  assert (forall n, Occurs n scenarioTree -> countLF (name n) = 0) as Hn.
  { assert (forall n l, Occurs n l -> l = scenarioTree \/
                                      l = [scenarioA; scenarioB] ->
                        countLF (name n) = 0) as H.
    { intros n l Ho.
      induction Ho as [f Hin | f m ks Hin Hch Hocc IH]; intros [->| ->].
      - destruct Hin as [<-|[]]. reflexivity.
      - destruct Hin as [<-|[<-|[]]]; reflexivity.
      - destruct Hin as [<-|[]]. injection Hch as <-. apply IH. now right.
      - destruct Hin as [<-|[<-|[]]]; discriminate Hch. }
    intros n Ho. apply (H n scenarioTree Ho). now left. }
  split; [reflexivity|]. split; [exact Hn|].
  apply (tree_string_lines scenarioTree "  " eq_refl Hn).
Defined.

Section TreeLinesOfRun.

Lemma namedAfter_invariant (commonPrefix : string) (valid : list ZipEntry)
      (entry : ZipEntry) :
  In entry valid ->
  InsertInvariant (namedAfter commonPrefix valid) (fun _ => True)
                  entry (cleanParts commonPrefix entry).
Proof.
  intros Hin. constructor.
  - intros index part Hskip. exists entry. split; [exact Hin|].
    apply (skipn_cons_In _ _ _ _ Hskip).
  - intros index part rest' below Hskip _ _. exists entry.
    split; [exact Hin|]. apply (skipn_cons_In _ _ _ _ Hskip).
  - intros node below (e & He & Hn) _ _. exists e. split; [exact He|].
    destruct node; exact Hn.
  - trivial.
Qed.

Variable localeCompare : string -> string -> comparison.

Lemma processUpload_counted (entries : list ZipEntry)
      (out : ProcessedOutput) :
  processUpload localeCompare entries = Normal out ->
  totalFiles (stats out) = Z.of_nat (countNodes file (fileTree out))
  /\ totalFolders (stats out) = Z.of_nat (countNodes folder (fileTree out)).
Proof.
  intros Hrun.
  pose proof (processUpload_tree localeCompare entries out Hrun) as Hb.
  rewrite processUpload_prefix, Hb in Hrun. cbn [bindC] in Hrun.
  injection Hrun as Hout.
  destruct (processNodes_counted entries (lookupPrefix entries) (fileTree out)
              (mkLocals (documentHead (fileTree out)) 0 0 0)
              (buildFileTree_typed localeCompare entries (fileTree out) Hb))
    as [C1 C2].
  cbn [l_totalFiles l_totalFolders] in C1, C2.
  split.
  - rewrite <- Hout at 1. cbn [stats totalFiles]. rewrite C1. lia.
  - rewrite <- Hout at 1. cbn [stats totalFolders]. rewrite C2. lia.
Qed.

(** X15: when no retained entry name holds a line feed, the tree drawn
    into the document has one line for every file and folder the
    statistics count: [totalFiles + totalFolders] lines. *)
Theorem tree_lines_match_statistics (entries : list ZipEntry)
        (out : ProcessedOutput) :
  processUpload localeCompare entries = Normal out ->
  (forall e, In e entries -> shouldIgnore (entryName e) = false ->
             countLF (entryName e) = 0) ->
  Z.of_nat (countLF (generateFileTreeString (fileTree out) EmptyString))
  = (totalFiles (stats out) + totalFolders (stats out))%Z.
Proof.
  intros Hrun Hclean.
  destruct (processUpload_counted entries out Hrun) as [-> ->].
  pose proof (processUpload_tree localeCompare entries out Hrun) as Hb.
  rewrite (forest_lines (fileTree out)); [lia| |reflexivity|].
  - apply Forall_forall. intros k _. apply renderNode_lines.
  - intros n Hn.
    destruct (buildFileTree_AllRaw localeCompare
                (namedAfter (treePrefix localeCompare entries)
                            (validEntries localeCompare entries))
                (fun _ => True) entries (fileTree out)
                (fun e He => namedAfter_invariant _ _ e He) Hb n Hn)
      as (r & (e & He & Hname) & ->).
    rewrite convertItem_name.
    apply cleanParts_incl in Hname as [Hseg _].
    apply countLF_segment in Hseg.
    apply validEntries_In in He as [He Hkeep].
    rewrite (Hclean e He Hkeep) in Hseg. lia.
Qed.

End TreeLinesOfRun.

Lemma tree_lines_match_statistics_witness :
  exists out,
    processUpload byteCompare (scenario 1 (Normal "x")) = Normal out
    /\ (forall e, In e (scenario 1 (Normal "x")) ->
                  shouldIgnore (entryName e) = false ->
                  countLF (entryName e) = 0)
    /\ Z.of_nat (countLF (generateFileTreeString (fileTree out) EmptyString))
       = (totalFiles (stats out) + totalFolders (stats out))%Z.
Proof.
  assert (forall e, In e (scenario 1 (Normal "x")) ->
                    shouldIgnore (entryName e) = false ->
                    countLF (entryName e) = 0) as Hclean.
  { intros e [<-|[<-|[<-|[]]]] _; reflexivity. }
  eexists. split; [vm_compute; reflexivity|]. split; [exact Hclean|].
  apply (tree_lines_match_statistics byteCompare (scenario 1 (Normal "x")) _
           ltac:(vm_compute; reflexivity) Hclean).
Defined.

(* ===================================================================== *)
(** ** The in-memory storage *)
(* ===================================================================== *)

Section JsMapFacts.

Variable V : Type.

Implicit Types (m : JsMap.t V) (k : Z) (v : V).

Lemma Map_get_set_same m k v : JsMap.get (JsMap.set m k v) k = Some v.
Proof.
  induction m as [|[k' v'] m IH]; cbn [JsMap.set JsMap.get].
  - now rewrite Z.eqb_refl.
  - destruct (Z.eqb_spec k' k) as [->|Hne]; cbn [JsMap.get].
    + now rewrite Z.eqb_refl.
    + destruct (Z.eqb_spec k' k); [congruence | exact IH].
Qed.

Lemma Map_get_set_other m k k' v :
  k' <> k -> JsMap.get (JsMap.set m k v) k' = JsMap.get m k'.
Proof.
  intros Hne. induction m as [|[k0 v0] m IH]; cbn [JsMap.set JsMap.get].
  - destruct (Z.eqb_spec k k'); [congruence | reflexivity].
  - destruct (Z.eqb_spec k0 k) as [->|Hk]; cbn [JsMap.get].
    + destruct (Z.eqb_spec k k'); [congruence | reflexivity].
    + now rewrite IH.
Qed.

Lemma Map_get_In m k v : JsMap.get m k = Some v -> In (k, v) m.
Proof.
  induction m as [|[k' v'] m IH]; cbn [JsMap.get]; [discriminate|].
  destruct (Z.eqb_spec k' k) as [->|Hne].
  - intros [= ->]. now left.
  - intros H. right. apply IH, H.
Qed.

Lemma Map_get_absent m k : ~ In k (JsMap.keys m) -> JsMap.get m k = None.
Proof.
  induction m as [|[k' v'] m IH]; cbn [JsMap.get JsMap.keys map fst];
    [reflexivity|].
  intros H. destruct (Z.eqb_spec k' k) as [->|Hne].
  - exfalso. apply H. now left.
  - apply IH. intros Hin. apply H. now right.
Qed.

Lemma Map_get_present m k : In k (JsMap.keys m) -> JsMap.get m k <> None.
Proof.
  induction m as [|[k' v'] m IH]; cbn [JsMap.get JsMap.keys map fst];
    [intros []|].
  intros [->|H].
  - rewrite Z.eqb_refl. discriminate.
  - destruct (Z.eqb_spec k' k); [discriminate | apply IH, H].
Qed.

Lemma Map_set_absent m k v :
  ~ In k (JsMap.keys m) -> JsMap.set m k v = m ++ [(k, v)].
Proof.
  induction m as [|[k' v'] m IH]; cbn [JsMap.set JsMap.keys map fst app];
    [reflexivity|].
  intros H. destruct (Z.eqb_spec k' k) as [->|Hne].
  - exfalso. apply H. now left.
  - rewrite IH; [reflexivity|]. intros Hin. apply H. now right.
Qed.

Lemma Map_set_present m k v :
  In k (JsMap.keys m) -> JsMap.keys (JsMap.set m k v) = JsMap.keys m.
Proof.
  induction m as [|[k' v'] m IH]; cbn [JsMap.set JsMap.keys map fst];
    [intros []|].
  intros H. destruct (Z.eqb_spec k' k) as [->|Hne]; [reflexivity|].
  cbn [map fst]. f_equal. apply IH. destruct H as [H|H]; [congruence|exact H].
Qed.

Lemma Map_In_set_cases m k v k' v' :
  In (k', v') (JsMap.set m k v) -> (k', v') = (k, v) \/ In (k', v') m.
Proof.
  induction m as [|[k0 v0] m IH]; cbn [JsMap.set].
  - intros [[= <- <-]|[]]. now left.
  - destruct (Z.eqb_spec k0 k) as [->|Hne].
    + intros [[= <- <-]|H]; [now left | right; now right].
    + intros [[= <- <-]|H]; [right; now left|].
      destruct (IH H) as [E|Hin]; [now left | right; now right].
Qed.

Lemma Map_get_sorted m k v :
  StronglySorted Z.lt (JsMap.keys m) -> In (k, v) m ->
  JsMap.get m k = Some v.
Proof.
  induction m as [|[k0 v0] m IH]; cbn [JsMap.keys map fst JsMap.get];
    [intros _ []|].
  intros Hs [[= -> ->]|Hin].
  - now rewrite Z.eqb_refl.
  - apply StronglySorted_inv in Hs as [Hs Hall].
    destruct (Z.eqb_spec k0 k) as [->|Hne]; [|apply (IH Hs Hin)].
    exfalso. rewrite Forall_forall in Hall.
    specialize (Hall k (in_map fst _ _ Hin)). lia.
Qed.

Lemma Map_sorted_snoc (l : list Z) (k : Z) :
  StronglySorted Z.lt l -> (forall x, In x l -> (x < k)%Z) ->
  StronglySorted Z.lt (l ++ [k]).
Proof.
  induction 1 as [|x l Hs IH Hall]; intros Hlt; cbn [app].
  - constructor; constructor.
  - constructor.
    + apply IH. intros y Hy. apply Hlt. now right.
    + apply Forall_app. split; [exact Hall|].
      constructor; [|constructor]. apply Hlt. now left.
Qed.

Variable idOf : V -> Z.

Lemma CountedMap_fresh m (c : Z) :
  CountedMap idOf m c -> (c < MAX_COUNTER)%Z -> ~ In c (JsMap.keys m).
Proof.
  intros (_ & _ & Hin & _) Hc H.
  apply in_map_iff in H as ([k v] & Hk & Hkv). cbn [fst] in Hk. subst k.
  destruct (Hin c v Hkv) as (_ & _ & Hmax). specialize (Hmax eq_refl). lia.
Qed.

Lemma CountedMap_new : CountedMap idOf [] 1.
Proof.
  unfold CountedMap, MAX_COUNTER. split; [lia|]. split; [constructor|].
  split; [intros k v []|]. intros k Hk. lia.
Qed.

Lemma CountedMap_set m (c : Z) v :
  CountedMap idOf m c -> idOf v = c ->
  CountedMap idOf (JsMap.set m c v) (increment c).
Proof.
  intros Hm Hid. pose proof Hm as (Hc & Hs & Hin & Hcov).
  assert (forall x, In x (JsMap.keys m) -> (x <= c)%Z) as Hle.
  { intros x Hx. apply in_map_iff in Hx as ([k w] & Hk & Hkw).
    cbn [fst] in Hk. subst k. destruct (Hin x w Hkw) as (_ & H & _). lia. }
  unfold CountedMap. split; [|split; [|split]].
  - unfold increment. destruct (Z.ltb_spec c MAX_COUNTER); lia.
  - destruct (in_dec Z.eq_dec c (JsMap.keys m)) as [Hp|Ha].
    + now rewrite (Map_set_present _ _ _ Hp).
    + rewrite (Map_set_absent _ _ _ Ha). unfold JsMap.keys.
      rewrite map_app. cbn [map fst]. apply Map_sorted_snoc; [exact Hs|].
      intros x Hx. specialize (Hle x Hx).
      assert (x <> c) by (intros ->; apply Ha, Hx). lia.
  - intros k w Hkw. unfold increment.
    apply Map_In_set_cases in Hkw as [[= -> ->]|Hold].
    + split; [exact Hid|].
      destruct (Z.ltb_spec c MAX_COUNTER); split; lia.
    + destruct (Hin k w Hold) as (H1 & H2 & H3). split; [exact H1|].
      destruct (Z.ltb_spec c MAX_COUNTER); split; lia.
  - intros k Hk. unfold increment in Hk.
    destruct (Z.eq_dec k c) as [->|Hne].
    + rewrite Map_get_set_same. discriminate.
    + rewrite (Map_get_set_other _ _ _ _ Hne). apply Hcov.
      destruct (Z.ltb_spec c MAX_COUNTER); lia.
Qed.

Lemma CountedMap_keys m (c : Z) :
  CountedMap idOf m c ->
  forall k v, JsMap.get m k = Some v ->
              idOf v = k /\ (1 <= k <= c)%Z
              /\ (k = c -> c = MAX_COUNTER).
Proof.
  intros (_ & _ & Hin & _) k v Hget. apply (Hin k v), Map_get_In, Hget.
Qed.

End JsMapFacts.

Section StorageFacts.

Variable Columns : Type.

Implicit Types (this : MemStorage.t Columns).

Lemma Reachable_counted this :
  MemStorage.Reachable this ->
  CountedMap upload_id (MemStorage.uploads this)
             (MemStorage.currentUploadId this)
  /\ CountedMap (@MemStorage.processed_id Columns)
                (MemStorage.processedFiles this)
                (MemStorage.currentProcessedId this).
Proof.
  induction 1 as [|this ins now _ [IHu IHp]|this ins now _ [IHu IHp]].
  - split; apply CountedMap_new.
  - split; [|exact IHp].
    cbn [MemStorage.createUpload snd MemStorage.uploads
         MemStorage.currentUploadId].
    apply CountedMap_set; [exact IHu | reflexivity].
  - split; [exact IHu|].
    cbn [MemStorage.createProcessedFile snd MemStorage.processedFiles
         MemStorage.currentProcessedId].
    apply CountedMap_set; [exact IHp | reflexivity].
Qed.

Lemma find_app_first {A : Type} (f : A -> bool) (l l' : list A) :
  find f (l ++ l')
  = match find f l with Some x => Some x | None => find f l' end.
Proof.
  induction l as [|a l IH]; cbn [app find]; [reflexivity|].
  destruct (f a); [reflexivity | exact IH].
Qed.

Lemma find_earliest {A : Type} (idOf : A -> Z) (f : A -> bool)
      (l : list A) :
  StronglySorted Z.lt (map idOf l) ->
  match find f l with
  | Some x =>
      f x = true /\ In x l
      /\ forall y, In y l -> f y = true -> (idOf x <= idOf y)%Z
  | None => forall y, In y l -> f y = false
  end.
Proof.
  induction l as [|a l IH]; cbn [map find]; intros Hs.
  - intros y [].
  - apply StronglySorted_inv in Hs as [Hs Hall].
    destruct (f a) eqn:Ha.
    + split; [exact Ha|]. split; [now left|].
      intros y [<-|Hy] _; [lia|].
      rewrite Forall_forall in Hall.
      specialize (Hall (idOf y) (in_map idOf _ _ Hy)). lia.
    + specialize (IH Hs). destruct (find f l) as [x|].
      * destruct IH as (Hx & Hin & Hmin). split; [exact Hx|].
        split; [now right|].
        intros y [<-|Hy] Hfy; [congruence | apply (Hmin y Hy Hfy)].
      * intros y [<-|Hy]; [exact Ha | apply (IH y Hy)].
Qed.

Lemma values_sorted {V : Type} (idOf : V -> Z) (m : JsMap.t V) (c : Z) :
  CountedMap idOf m c ->
  StronglySorted Z.lt (map idOf (JsMap.values m)).
Proof.
  intros (_ & Hs & Hin & _).
  replace (map idOf (JsMap.values m)) with (JsMap.keys m); [exact Hs|].
  unfold JsMap.keys, JsMap.values. rewrite map_map.
  apply map_ext_in. intros [k v] Hkv. cbn [fst snd].
  symmetry. apply (Hin k v Hkv).
Qed.

(** X16: [createUpload] on a store whose counter still moves takes an
    identifier no record has, stores the record under it with the fields
    it was given, and leaves every other record of the store, uploads and
    processed files, as it was: [getUpload] with the new identifier
    returns the record [createUpload] returned. *)
Theorem created_upload_is_stored this (insertUpload : InsertUpload)
        (now : Date) :
  MemStorage.Reachable this ->
  (MemStorage.currentUploadId this < MAX_COUNTER)%Z ->
  let upload := fst (MemStorage.createUpload this insertUpload now) in
  let after := snd (MemStorage.createUpload this insertUpload now) in
  MemStorage.getUpload this (upload_id upload) = None
  /\ MemStorage.getUpload after (upload_id upload) = Some upload
  /\ upload_fields upload = insertUpload
  /\ (forall id, id <> upload_id upload ->
                 MemStorage.getUpload after id = MemStorage.getUpload this id)
  /\ (forall id, MemStorage.getProcessedFile after id
                 = MemStorage.getProcessedFile this id)
  /\ (upload_id upload < MemStorage.currentUploadId after)%Z.
Proof.
  intros Hr Hc. cbv zeta.
  destruct (Reachable_counted this Hr) as [Hu _].
  cbn [MemStorage.createUpload fst snd upload_id upload_fields].
  unfold MemStorage.getUpload, MemStorage.getProcessedFile.
  cbn [MemStorage.uploads MemStorage.processedFiles
       MemStorage.currentUploadId].
  split; [|split; [|split; [|split; [|split]]]].
  - apply Map_get_absent, (CountedMap_fresh _ _ _ _ Hu Hc).
  - apply Map_get_set_same.
  - reflexivity.
  - intros id Hne. apply Map_get_set_other, Hne.
  - reflexivity.
  - unfold increment. destruct (Z.ltb_spec (MemStorage.currentUploadId this)
                                           MAX_COUNTER); lia.
Qed.

(** X17: the upload identifiers count up from [1]: in a store whose
    counter still moves, [getUpload] finds a record exactly for the
    identifiers from [1] to below the counter, and the record carries
    the identifier it is found under. *)
Theorem upload_ids_count_up this :
  MemStorage.Reachable this ->
  (MemStorage.currentUploadId this < MAX_COUNTER)%Z ->
  forall id,
    (exists upload, MemStorage.getUpload this id = Some upload
                    /\ upload_id upload = id)
    <-> (1 <= id < MemStorage.currentUploadId this)%Z.
Proof.
  intros Hr Hc id. destruct (Reachable_counted this Hr) as [Hu _].
  unfold MemStorage.getUpload. split.
  - intros (upload & Hget & _).
    destruct (CountedMap_keys _ _ _ _ Hu id upload Hget) as (_ & H1 & H2).
    assert (id <> MemStorage.currentUploadId this)
      by (intros E; specialize (H2 E); lia).
    lia.
  - intros Hid. destruct Hu as (_ & _ & Hin & Hcov).
    specialize (Hcov id Hid).
    destruct (JsMap.get (MemStorage.uploads this) id) as [upload|] eqn:Hget;
      [|congruence].
    exists upload. split; [reflexivity|].
    apply (Hin id upload), Map_get_In, Hget.
Qed.

(** X18: [getProcessedFile] returns a stored record of the upload asked
    for, the one created first when there are several, and returns
    nothing only when no stored record belongs to that upload. *)
Theorem processed_lookup_earliest this (id : Z) :
  MemStorage.Reachable this ->
  match MemStorage.getProcessedFile this id with
  | Some stored =>
      MemStorage.uploadId (MemStorage.processed_fields stored) = id
      /\ In stored (JsMap.values (MemStorage.processedFiles this))
      /\ forall other,
           In other (JsMap.values (MemStorage.processedFiles this)) ->
           MemStorage.uploadId (MemStorage.processed_fields other) = id ->
           (MemStorage.processed_id stored
            <= MemStorage.processed_id other)%Z
  | None =>
      forall other,
        In other (JsMap.values (MemStorage.processedFiles this)) ->
        MemStorage.uploadId (MemStorage.processed_fields other) <> id
  end.
Proof.
  intros Hr. destruct (Reachable_counted this Hr) as [_ Hp].
  pose proof (find_earliest
                (@MemStorage.processed_id Columns)
                (fun stored =>
                   (MemStorage.uploadId (MemStorage.processed_fields stored)
                    =? id)%Z)
                _ (values_sorted _ _ _ Hp)) as H.
  unfold MemStorage.getProcessedFile.
  destruct (find _ _) as [stored|].
  - destruct H as (Hf & Hin & Hmin). split; [now apply Z.eqb_eq|].
    split; [exact Hin|].
    intros other Ho Hid. apply (Hmin other Ho). now apply Z.eqb_eq.
  - intros other Ho Hid. specialize (H other Ho). cbn beta in H.
    apply Z.eqb_neq in H. congruence.
Qed.

(** X19: [createProcessedFile] on a store whose counter still moves adds
    the record behind the others: a lookup that found a record before
    finds the same one afterwards, also for the upload of the new
    record, and the new record is returned only for its own upload and
    only when that upload had none.  The uploads are left as they
    were. *)
Theorem later_record_is_shadowed this
        (insertProcessedFile : MemStorage.InsertProcessedFile Columns)
        (now : Date) :
  MemStorage.Reachable this ->
  (MemStorage.currentProcessedId this < MAX_COUNTER)%Z ->
  let stored :=
    fst (MemStorage.createProcessedFile this insertProcessedFile now) in
  let after :=
    snd (MemStorage.createProcessedFile this insertProcessedFile now) in
  (forall id,
      MemStorage.getProcessedFile after id
      = match MemStorage.getProcessedFile this id with
        | Some earlier => Some earlier
        | None =>
            if (MemStorage.uploadId insertProcessedFile =? id)%Z
            then Some stored else None
        end)
  /\ (forall id, MemStorage.getUpload after id = MemStorage.getUpload this id)
  /\ MemStorage.processed_fields stored = insertProcessedFile.
Proof.
  intros Hr Hc. cbv zeta.
  destruct (Reachable_counted this Hr) as [_ Hp].
  cbn [MemStorage.createProcessedFile fst snd].
  unfold MemStorage.getProcessedFile, MemStorage.getUpload.
  cbn [MemStorage.uploads MemStorage.processedFiles
       MemStorage.processed_fields].
  split; [|split; reflexivity].
  intros id.
  rewrite (Map_set_absent _ _ _ _ (CountedMap_fresh _ _ _ _ Hp Hc)).
  unfold JsMap.values. rewrite map_app, find_app_first.
  destruct (find _ _); reflexivity.
Qed.

End StorageFacts.

Lemma exampleStore_reachable : MemStorage.Reachable exampleStore.
Proof.
  unfold exampleStore. cbv zeta.
  apply MemStorage.Reachable_processed, MemStorage.Reachable_processed,
    MemStorage.Reachable_upload, MemStorage.Reachable_new.
Qed.

Lemma created_upload_is_stored_witness :
  MemStorage.Reachable exampleStore
  /\ (MemStorage.currentUploadId exampleStore < MAX_COUNTER)%Z
  /\ MemStorage.getUpload exampleStore 2%Z = None
  /\ MemStorage.getUpload
       (snd (MemStorage.createUpload exampleStore exampleUpload 40%Z)) 2%Z
     = Some (mkUpload exampleUpload 2%Z 40%Z).
Proof.
  split; [exact exampleStore_reachable|]. split; [reflexivity|].
  destruct (created_upload_is_stored ProcessedOutput exampleStore
              exampleUpload 40%Z exampleStore_reachable eq_refl)
    as (H1 & H2 & _).
  split; [exact H1 | exact H2].
Defined.

Lemma upload_ids_count_up_witness :
  MemStorage.Reachable exampleStore
  /\ (MemStorage.currentUploadId exampleStore < MAX_COUNTER)%Z
  /\ forall id,
       (exists upload, MemStorage.getUpload exampleStore id = Some upload
                       /\ upload_id upload = id)
       <-> (1 <= id < 2)%Z.
Proof.
  split; [exact exampleStore_reachable|]. split; [reflexivity|].
  apply (upload_ids_count_up ProcessedOutput exampleStore
           exampleStore_reachable eq_refl).
Defined.

Lemma processed_lookup_earliest_witness :
  MemStorage.Reachable exampleStore
  /\ exists stored,
       MemStorage.getProcessedFile exampleStore 1%Z = Some stored
       /\ formattedContent (MemStorage.columns
                              (MemStorage.processed_fields stored))
          = "first"
       /\ forall other,
            In other (JsMap.values (MemStorage.processedFiles exampleStore)) ->
            MemStorage.uploadId (MemStorage.processed_fields other) = 1%Z ->
            (MemStorage.processed_id stored
             <= MemStorage.processed_id other)%Z.
Proof.
  split; [exact exampleStore_reachable|].
  pose proof (processed_lookup_earliest ProcessedOutput exampleStore 1%Z
                exampleStore_reachable) as H.
  destruct (MemStorage.getProcessedFile exampleStore 1%Z) as [stored|] eqn:E;
    [|discriminate E].
  exists stored. split; [reflexivity|]. split.
  - injection E as <-. reflexivity.
  - apply H.
Defined.

Lemma later_record_is_shadowed_witness :
  MemStorage.Reachable exampleStore
  /\ (MemStorage.currentProcessedId exampleStore < MAX_COUNTER)%Z
  /\ forall id,
       MemStorage.getProcessedFile
         (snd (MemStorage.createProcessedFile
                 exampleStore
                 (MemStorage.mkInsertProcessedFile 1%Z (exampleOutput "third"))
                 50%Z)) id
       = match MemStorage.getProcessedFile exampleStore id with
         | Some earlier => Some earlier
         | None =>
             if (1 =? id)%Z
             then Some (MemStorage.mkProcessedFile
                          (MemStorage.mkInsertProcessedFile
                             1%Z (exampleOutput "third")) 3%Z 50%Z)
             else None
         end.
Proof.
  split; [exact exampleStore_reachable|]. split; [reflexivity|].
  apply (later_record_is_shadowed ProcessedOutput exampleStore
           (MemStorage.mkInsertProcessedFile 1%Z (exampleOutput "third"))
           50%Z
           exampleStore_reachable eq_refl).
Defined.

(* ===================================================================== *)
(** ** The tree panel of the client *)
(* ===================================================================== *)

Section TreePanel.

Lemma has_add (set : JsSet.t) (p q : string) :
  has (JsSet.add set p) q = has set q || String.eqb q p.
Proof.
  unfold JsSet.add. destruct (has set p) eqn:Hp.
  - destruct (String.eqb_spec q p) as [->|_].
    + now rewrite Hp.
    + now rewrite orb_false_r.
  - unfold has. rewrite existsb_app. cbn [existsb].
    now rewrite orb_false_r.
Qed.

Lemma has_delete (set : JsSet.t) (p q : string) :
  has (JsSet.delete set p) q = has set q && negb (String.eqb q p).
Proof.
  unfold has, JsSet.delete.
  induction set as [|x set IH]; cbn [filter existsb]; [reflexivity|].
  destruct (String.eqb_spec p x) as [<-|Hne]; cbn [negb existsb].
  - rewrite IH. destruct (String.eqb q p); cbn [orb negb andb];
      [now rewrite andb_false_r | reflexivity].
  - rewrite IH. destruct (String.eqb_spec q x) as [->|Hqx];
      cbn [orb]; [|reflexivity].
    destruct (String.eqb_spec x p); [congruence | reflexivity].
Qed.

Lemma has_toggleNode (expandedNodes : JsSet.t) (p q : string) :
  has (FileTree.toggleNode expandedNodes p) q
  = if String.eqb q p then negb (has expandedNodes p)
    else has expandedNodes q.
Proof.
  unfold FileTree.toggleNode.
  destruct (has expandedNodes p) eqn:Hp.
  - rewrite has_delete. destruct (String.eqb_spec q p) as [->|_];
      cbn [negb]; [now rewrite andb_false_r | now rewrite andb_true_r].
  - rewrite has_add. destruct (String.eqb_spec q p) as [->|_];
      cbn [negb]; [now rewrite orb_true_r | now rewrite orb_false_r].
Qed.

Lemma renderTreeNode_unfold (expandedNodes : JsSet.t) (node : FileTreeNode)
      (level : nat) :
  FileTree.renderTreeNode expandedNodes node level
  = (node, level)
      :: match type node, children node with
         | folder, Some kids =>
             if (0 <? List.length kids)%nat
                && has expandedNodes (path node)
             then flat_map (fun child =>
                              FileTree.renderTreeNode expandedNodes child
                                                      (level + 1))
                           kids
             else []
         | _, _ => []
         end.
Proof. destruct node. reflexivity. Qed.

Lemma collectNode_unfold (node : FileTreeNode) (allPaths : JsSet.t) :
  FileTree.collectNode node allPaths
  = match type node, children node with
    | folder, Some kids =>
        FileTree.collectPaths kids (JsSet.add allPaths (path node))
    | _, _ => allPaths
    end.
Proof.
  destruct node as [n p t s e [kids|]]; destruct t; reflexivity.
Qed.

Lemma render_agrees (s s' : JsSet.t) (node : FileTreeNode) :
  (forall q, has s q = has s' q) ->
  forall level,
    FileTree.renderTreeNode s node level
    = FileTree.renderTreeNode s' node level.
Proof.
  intros Hsame.
  induction node as [n p t sz e | n p t sz e kids IH]
    using FileTreeNode_induction; intros level;
    rewrite !renderTreeNode_unfold; cbn [type children path].
  - reflexivity.
  - f_equal. destruct t; [reflexivity|]. rewrite Hsame.
    destruct (_ && _); [|reflexivity].
    induction IH as [|k kids Hk _ IHk]; [reflexivity|].
    cbn [flat_map]. now rewrite Hk, IHk.
Qed.

(** X20: a click on a folder row changes the membership of its path in
    [expandedNodes] and of no other path; a second click on the same row
    brings back the rows that were on the page before the first. *)
Theorem toggle_twice_restores (expandedNodes : JsSet.t) (p : string) :
  (forall q,
      has (FileTree.toggleNode expandedNodes p) q
      = if String.eqb q p then negb (has expandedNodes p)
        else has expandedNodes q)
  /\ (forall fileTree,
         FileTree.render
           (FileTree.toggleNode (FileTree.toggleNode expandedNodes p) p)
           fileTree
         = FileTree.render expandedNodes fileTree).
Proof.
  split; [apply has_toggleNode|].
  intros fileTree. unfold FileTree.render.
  induction fileTree as [|k kids IH]; [reflexivity|].
  cbn [flat_map]. rewrite IH. f_equal.
  apply render_agrees. intros q. rewrite !has_toggleNode.
  destruct (String.eqb_spec q p) as [->|_];
    [rewrite String.eqb_refl; apply negb_involutive | reflexivity].
Qed.

Lemma collectPaths_keeps (nodes : list FileTreeNode) :
  Forall (fun node => forall acc q, has acc q = true ->
                                    has (FileTree.collectNode node acc) q
                                    = true) nodes ->
  forall acc q, has acc q = true ->
                has (FileTree.collectPaths nodes acc) q = true.
Proof.
  induction 1 as [|k kids Hk _ IH]; intros acc q Hq; [exact Hq|].
  cbn [FileTree.collectPaths]. apply IH, Hk, Hq.
Qed.

Lemma collectNode_keeps (node : FileTreeNode) (acc : JsSet.t) (q : string) :
  has acc q = true -> has (FileTree.collectNode node acc) q = true.
Proof.
  revert acc q.
  induction node as [n p t s e | n p t s e kids IH]
    using FileTreeNode_induction; intros acc q Hq;
    rewrite collectNode_unfold; cbn [type children path].
  - destruct t; exact Hq.
  - destruct t; [exact Hq|].
    apply (collectPaths_keeps kids IH). rewrite has_add, Hq. reflexivity.
Qed.

Lemma collectPaths_keeps_all (nodes : list FileTreeNode) (acc : JsSet.t)
      (q : string) :
  has acc q = true -> has (FileTree.collectPaths nodes acc) q = true.
Proof.
  apply collectPaths_keeps, Forall_forall.
  intros node _ acc' q'. apply collectNode_keeps.
Qed.

Lemma In_nodesOf_Occurs (forest : list FileTreeNode) (n : FileTreeNode) :
  In n (flat_map nodesOf forest) -> Occurs n forest.
Proof.
  assert (forall node n, In n (nodesOf node) -> Occurs n [node]) as Hnode.
  { intros node.
    induction node as [nm p t s e | nm p t s e kids IH]
      using FileTreeNode_induction; intros m; cbn [nodesOf children].
    - intros [<-|[]]. apply Occurs_here. now left.
    - intros [<-|Hm]; [apply Occurs_here; now left|].
      apply (Occurs_below m _ (mkNode nm p t s e (Some kids)) kids);
        [now left | reflexivity |].
      induction IH as [|k kids' Hk _ IHk]; [destruct Hm|].
      cbn [flat_map] in Hm. apply in_app_or in Hm as [Hm|Hm].
      + apply Occurs_head, Hk, Hm.
      + apply Occurs_tail, IHk, Hm. }
  induction forest as [|k forest IH]; cbn [flat_map]; [intros []|].
  intros Hn. apply in_app_or in Hn as [Hn|Hn].
  - apply Occurs_head, Hnode, Hn.
  - apply Occurs_tail, IH, Hn.
Qed.

Lemma collectPaths_folders (nodes : list FileTreeNode) :
  Forall collectsFolders nodes ->
  (forall m, In m (flat_map nodesOf nodes) -> typedNode m) ->
  forall acc m,
    In m (flat_map nodesOf nodes) -> type m = folder ->
    has (FileTree.collectPaths nodes acc) (path m) = true.
Proof.
  induction 1 as [|k kids Hk _ IH]; intros Htyped acc m Hm Hf;
    [destruct Hm|].
  cbn [flat_map] in Hm, Htyped. cbn [FileTree.collectPaths].
  apply in_app_or in Hm as [Hm|Hm].
  - apply collectPaths_keeps_all, Hk; [|exact Hm|exact Hf].
    intros x Hx. apply Htyped, in_or_app. now left.
  - apply IH; [|exact Hm|exact Hf].
    intros x Hx. apply Htyped, in_or_app. now right.
Qed.

Lemma collectNode_folders (node : FileTreeNode) : collectsFolders node.
Proof.
  unfold collectsFolders.
  induction node as [n p t s e | n p t s e kids IH]
    using FileTreeNode_induction; intros Htyped acc m Hm Hf;
    rewrite collectNode_unfold; cbn [type children path nodesOf] in *.
  - destruct Hm as [<-|[]]. cbn [type] in Hf. subst t.
    specialize (Htyped _ (or_introl eq_refl)).
    unfold typedNode in Htyped. cbn [type children] in Htyped. congruence.
  - destruct Hm as [<-|Hm].
    + cbn [type path] in *. subst t.
      apply collectPaths_keeps_all. rewrite has_add, String.eqb_refl.
      apply orb_true_r.
    + pose proof (Htyped _ (or_introl eq_refl)) as Hroot.
      unfold typedNode in Hroot. cbn [type children] in Hroot.
      destruct t; [discriminate Hroot|].
      apply (collectPaths_folders kids IH); [|exact Hm|exact Hf].
      intros x Hx. apply Htyped. now right.
Qed.

Lemma renderTreeNode_all (node : FileTreeNode) : rendersAll node.
Proof.
  unfold rendersAll.
  induction node as [n p t s e | n p t s e kids IH]
    using FileTreeNode_induction; intros set level Htyped Hhas;
    rewrite renderTreeNode_unfold; cbn [type children path nodesOf map fst]
      in *.
  - destruct t; reflexivity.
  - f_equal.
    pose proof (Htyped _ (or_introl eq_refl)) as Hroot.
    unfold typedNode in Hroot. cbn [type children] in Hroot.
    destruct t; [discriminate Hroot|].
    pose proof (Hhas _ (or_introl eq_refl) eq_refl) as Hopen.
    cbn [path] in Hopen. rewrite Hopen, andb_true_r.
    destruct kids as [|k0 kids0]; [reflexivity|].
    cbn [List.length Nat.ltb Nat.leb].
    assert (forall m, In m (flat_map nodesOf (k0 :: kids0)) -> typedNode m)
      as Ht' by (intros m Hm; apply Htyped; now right).
    assert (forall m, In m (flat_map nodesOf (k0 :: kids0)) ->
                      type m = folder -> has set (path m) = true)
      as Hh' by (intros m Hm; apply Hhas; now right).
    clear Htyped Hhas Hroot.
    induction IH as [|k kids' Hk _ IHk]; [reflexivity|].
    cbn [flat_map] in *. rewrite map_app, Hk, IHk; [reflexivity| | | |].
    + intros m Hm. apply Ht', in_or_app. now right.
    + intros m Hm. apply Hh', in_or_app. now right.
    + intros m Hm. apply Ht', in_or_app. now left.
    + intros m Hm. apply Hh', in_or_app. now left.
Qed.

(** X21: after "Expand All" the panel shows every node of the tree, each
    once and a node before its children, when the tree is typed as the
    server types it (files without, folders with a [children] field);
    after "Collapse All" it shows the top-level nodes and no other. *)
Theorem expand_all_shows_every_node (fileTree : list FileTreeNode) :
  (forall n, Occurs n fileTree -> typedNode n) ->
  map fst (FileTree.render (FileTree.expandAll fileTree) fileTree)
  = flat_map nodesOf fileTree
  /\ FileTree.render FileTree.collapseAll fileTree
     = map (fun node => (node, 0)) fileTree.
Proof.
  intros Htyped.
  assert (forall m, In m (flat_map nodesOf fileTree) -> typedNode m) as Ht
      by (intros m Hm; apply Htyped, In_nodesOf_Occurs, Hm).
  split.
  - assert (forall m, In m (flat_map nodesOf fileTree) -> type m = folder ->
                      has (FileTree.expandAll fileTree) (path m) = true)
      as Hh.
    { intros m Hm Hf. unfold FileTree.expandAll.
      apply collectPaths_folders; [|exact Ht|exact Hm|exact Hf].
      apply Forall_forall. intros k _. apply collectNode_folders. }
    revert Ht Hh. generalize (FileTree.expandAll fileTree). intros set.
    unfold FileTree.render.
    induction fileTree as [|k kids IH]; intros Ht Hh; [reflexivity|].
    cbn [flat_map] in *. rewrite map_app, renderTreeNode_all, IH;
      [reflexivity| | | | |].
    + intros n Hn. apply Htyped, Occurs_tail, Hn.
    + intros m Hm. apply Ht, in_or_app. now right.
    + intros m Hm. apply Hh, in_or_app. now right.
    + intros m Hm. apply Ht, in_or_app. now left.
    + intros m Hm. apply Hh, in_or_app. now left.
  - unfold FileTree.render, FileTree.collapseAll. clear Htyped Ht.
    induction fileTree as [|k kids IH]; [reflexivity|].
    cbn [flat_map map]. rewrite IH, renderTreeNode_unfold.
    destruct (type k); [reflexivity|].
    destruct (children k) as [below|]; [|reflexivity].
    change (has [] (path k)) with false. now rewrite andb_false_r.
Qed.

End TreePanel.

Lemma expand_all_shows_every_node_witness :
  (forall n, Occurs n scenarioTree -> typedNode n)
  /\ map fst (FileTree.render (FileTree.expandAll scenarioTree) scenarioTree)
     = [scenarioSrc; scenarioA; scenarioB]
  /\ FileTree.render FileTree.collapseAll scenarioTree = [(scenarioSrc, 0)].
Proof.
  assert (forall n, Occurs n scenarioTree -> typedNode n) as Htyped.
  { apply (buildFileTree_typed byteCompare (scenario 1 (Normal "x"))).
    vm_compute. reflexivity. }
  split; [exact Htyped|].
  apply (expand_all_shows_every_node scenarioTree Htyped).
Defined.

Section PanelOfRun.

Lemma nodesOf_count (node : FileTreeNode) :
  List.length (nodesOf node) = countType file node + countType folder node.
Proof.
  induction node as [n p t s e | n p t s e kids IH]
    using FileTreeNode_induction;
    rewrite !countType_node; cbn [nodesOf children List.length].
  - destruct t; reflexivity.
  - assert (List.length (flat_map nodesOf kids)
            = countNodes file kids + countNodes folder kids) as ->.
    { induction IH as [|k kids' Hk _ IHk]; [reflexivity|].
      cbn [flat_map]. rewrite length_app, !countNodes_cons, Hk, IHk. lia. }
    destruct t; cbn; lia.
Qed.

Variable localeCompare : string -> string -> comparison.

(** X22: the panel and its heading agree: on the tree of a run, "Expand
    All" puts as many rows on the page as the heading announces files
    and folders, [totalFiles + totalFolders]. *)
Theorem expanded_rows_match_heading (entries : list ZipEntry)
        (out : ProcessedOutput) :
  processUpload localeCompare entries = Normal out ->
  Z.of_nat (List.length
              (FileTree.render (FileTree.expandAll (fileTree out))
                               (fileTree out)))
  = (totalFiles (stats out) + totalFolders (stats out))%Z.
Proof.
  intros Hrun.
  destruct (processUpload_counted localeCompare entries out Hrun) as [-> ->].
  pose proof (processUpload_tree localeCompare entries out Hrun) as Hb.
  assert (forall m, In m (flat_map nodesOf (fileTree out)) -> typedNode m)
    as Ht.
  { intros m Hm.
    apply (buildFileTree_typed localeCompare entries (fileTree out) Hb).
    apply In_nodesOf_Occurs, Hm. }
  assert (forall m, In m (flat_map nodesOf (fileTree out)) ->
                    type m = folder ->
                    has (FileTree.expandAll (fileTree out)) (path m) = true)
    as Hh.
  { intros m Hm Hf. unfold FileTree.expandAll.
    apply collectPaths_folders; [|exact Ht|exact Hm|exact Hf].
    apply Forall_forall. intros k _. apply collectNode_folders. }
  clear Hrun Hb. revert Ht Hh.
  generalize (FileTree.expandAll (fileTree out)).
  generalize (fileTree out). intros forest set.
  unfold FileTree.render.
  induction forest as [|k kids IH]; intros Ht Hh; [reflexivity|].
  cbn [flat_map] in *. rewrite length_app, !countNodes_cons.
  rewrite <- (length_map fst (FileTree.renderTreeNode set k 0)).
  rewrite renderTreeNode_all, nodesOf_count.
  - specialize (IH (fun m Hm => Ht m (in_or_app _ _ _ (or_intror Hm)))
                   (fun m Hm => Hh m (in_or_app _ _ _ (or_intror Hm)))).
    lia.
  - intros m Hm. apply Ht, in_or_app. now left.
  - intros m Hm. apply Hh, in_or_app. now left.
Qed.

End PanelOfRun.

Lemma expanded_rows_match_heading_witness :
  exists out,
    processUpload byteCompare (scenario 1 (Normal "x")) = Normal out
    /\ Z.of_nat (List.length
                   (FileTree.render (FileTree.expandAll (fileTree out))
                                    (fileTree out)))
       = (totalFiles (stats out) + totalFolders (stats out))%Z.
Proof.
  eexists. split; [vm_compute; reflexivity|].
  apply (expanded_rows_match_heading byteCompare (scenario 1 (Normal "x"))).
  vm_compute. reflexivity.
Defined.
